(** * openfeature-cli: plugin registry, flag reconciliation and the DevCycle client

    A shallow embedding of
      - internal/flagset/flagset.go                      (module [flagset])
      - internal/plugin/plugin.go, manager.go            (module [plugin])
      - internal/plugin/builtin/default_plugin.go        (module [builtin])
      - internal/plugin/builtin/devcycle/client.go,
        internal/plugin/builtin/devcycle/plugin.go       (module [devcycle])

    Go maps are [gmap]s, key sets are [gset]s, Go's [any] is the inductive
    [any], machine integers are [Z] with the wrap-around written out, and
    code that talks to the network threads an explicit state through a small
    state monad.  What belongs to Go's libraries and to the remote server
    (fmt's rendering, encoding/json, net/http, the clock) is a field of a
    type class, so every theorem holds for all of their behaviours. *)

From Stdlib Require Import ZArith PrimFloat.
From stdpp Require Import base option list sorting strings pretty gmap.

Local Open Scope Z_scope.

(** ** Go values *)

(** A value of Go's dynamic type [any], as far as this program builds or
    decodes one: JSON decoding yields nil, bool, float64, string, []any and
    map[string]any; the code itself also stores ints.  A Go map literal is
    kept as its list of entries. *)
#[local] Unset Elimination Schemes.
Inductive any : Type :=
| AnyNil
| AnyBool (b : bool)
| AnyInt (n : Z)
| AnyFloat64 (f : float)
| AnyString (s : string)
| AnySlice (l : list any)
| AnyMap (m : list (string * any)).
#[local] Set Elimination Schemes.

(** [fmt.Sprintf("%v", v)] belongs to Go's fmt package. *)
Class Fmt := { Sprintf_v : any → string }.

(** Go's rendering of the scalars that need no float formatting: nil,
    booleans, ints (in decimal) and strings.  It is the instance the examples
    run with; they use no other value. *)
Definition Sprintf_v_scalars (v : any) : string :=
  match v with
  | AnyNil => "<nil>"
  | AnyBool true => "true"
  | AnyBool false => "false"
  | AnyInt n => pretty n
  | AnyString s => s
  | _ => ""
  end.

Definition scalarFmt : Fmt := {| Sprintf_v := Sprintf_v_scalars |}.

(** ** Errors

    An [error] keeps the format string's pieces and its arguments instead of
    the formatted text, so that the flag key, the status code and the wrapped
    cause stay visible. *)
Inductive error : Type :=
| Errorf (msg : string)                              (* a message without arguments; also a library's own error *)
| Errorf_status (what : string) (status : Z) (body : string)  (* "<what> (status %d): %s" *)
| Errorf_w (what : string) (cause : error)           (* "<what>: %w" *)
| Errorf_key (what key : string) (cause : error)     (* "<what> <key>: %w" *)
| ErrAlreadyRegistered (name : string)               (* "plugin %q is already registered" *)
| ErrPluginNotFound (name : string) (available : list string)
                                                     (* "plugin %q not found. Available plugins: %v" *)
| ErrInfoNotFound (name : string)                    (* "plugin %q not found" *)
| ErrConfigInvalid (plugin message : string)         (* &plugin.ErrConfigInvalid{Plugin, Message} *)
| ErrNotSupported (plugin operation : string).       (* &plugin.ErrNotSupported{Plugin, Operation} *)

(** ** State passing

    Code that reads the clock or talks to a server is a function from a
    state to a result and the next state. *)
Definition M (S A : Type) : Type := S → A * S.

Definition ret {S A} (a : A) : M S A := λ s, (a, s).

Definition bind {S A B} (c : M S A) (k : A → M S B) : M S B :=
  λ s, let '(a, s') := c s in k a s'.

Definition gets {S A} (f : S → A) : M S A := λ s, (f s, s).

Definition modify {S} (f : S → S) : M S unit := λ s, ((), f s).

Declare Scope go_scope.
Delimit Scope go_scope with go.
Notation "x <- c ;; k" := (bind c (λ x, k))
  (at level 100, c at next level, right associativity) : go_scope.
Notation "c ;;; k" := (bind c (λ _, k))
  (at level 100, right associativity) : go_scope.

(** ** Ranging over a Go map

    A [range] statement visits the entries of a map in an order the
    language leaves open.  A [MapRange] is one such choice of order; the
    code that ranges over a map takes it as an argument, so what is proved
    of that code holds for every order. *)
Record MapRange (V : Type) : Type := {
  visit : gmap string V → list (string * V);
  visit_perm : ∀ m, visit m ≡ₚ map_to_list m
}.
Arguments visit {V} _ _.
Arguments visit_perm {V} _ _.

(** The order of [map_to_list]. *)
Definition canonicalRange (V : Type) : MapRange V :=
  {| visit := map_to_list; visit_perm := λ m, reflexivity (map_to_list m) |}.

(** ** internal/flagset *)
Module flagset.

Inductive FlagType : Type :=
| UnknownFlagType | IntType | FloatType | BoolType | StringType | ObjectType.

#[global] Instance FlagType_eq_dec : EqDecision FlagType.
Proof. solve_decision. Defined.

(** [FlagType.String] *)
Definition String (f : FlagType) : string :=
  match f with
  | IntType => "integer"
  | FloatType => "float"
  | BoolType => "boolean"
  | StringType => "string"
  | ObjectType => "object"
  | UnknownFlagType => "unknown"
  end.

Record Flag : Type := {
  Key : string;
  Type_ : FlagType;
  Description : string;
  DefaultValue : any;
  Expiry : string
}.

Record Flagset : Type := { Flags : list Flag }.

(** [ParseFlagType] *)
Definition ParseFlagType (typeStr : string) : error + FlagType :=
  if bool_decide (typeStr = "integer" ∨ typeStr = "Integer") then inr IntType
  else if bool_decide (typeStr = "float" ∨ typeStr = "Float" ∨ typeStr = "Number")
  then inr FloatType
  else if bool_decide (typeStr = "boolean" ∨ typeStr = "bool" ∨ typeStr = "Boolean")
  then inr BoolType
  else if bool_decide (typeStr = "string" ∨ typeStr = "String") then inr StringType
  else if bool_decide (typeStr = "object" ∨ typeStr = "Object" ∨ typeStr = "JSON")
  then inr ObjectType
  else inl (Errorf ("unknown flag type: " +:+ typeStr)).

#[global] Instance FlagType_countable : Countable FlagType.
Proof.
  refine (inj_countable'
    (λ t, match t with
          | UnknownFlagType => 0%nat | IntType => 1%nat | FloatType => 2%nat
          | BoolType => 3%nat | StringType => 4%nat | ObjectType => 5%nat
          end)
    (λ n, match n with
          | 0%nat => UnknownFlagType | 1%nat => IntType | 2%nat => FloatType
          | 3%nat => BoolType | 4%nat => StringType | _ => ObjectType
          end) _); by intros [].
Defined.

(** *** Expiry *)

(** [time.Parse("2006-01-02", s)] and [time.Now()], over the state of the
    clock; an instant is counted in nanoseconds. *)
Class DateLib (World : Type) := {
  time_Parse_date : string → error + Z;
  time_Now : M World Z
}.

(** The zero [time.Time]. *)
Definition zeroTime : Z := -62135596800 * 1000000000.

(** [Flag.HasExpiry] *)
Definition HasExpiry (f : Flag) : bool := bool_decide (Expiry f ≠ "").

(** [Flag.IsExpired]: the clock is read only when the date parses. *)
Definition IsExpired {World} `{DateLib World} (f : Flag) : M World bool :=
  if bool_decide (Expiry f = "") then ret false
  else
    match time_Parse_date (Expiry f) with
    | inl _ => ret false
    | inr expiryDate => bind time_Now (λ now, ret (bool_decide (expiryDate < now)))
    end.

(** [Flag.ExpiryTime]: [time.Parse] returns the zero time with its error. *)
Definition ExpiryTime {World} `{DateLib World} (f : Flag) : Z :=
  if bool_decide (Expiry f = "") then zeroTime
  else
    match time_Parse_date (Expiry f) with
    | inl _ => zeroTime
    | inr t => t
    end.

(** *** Filter *)

(** [Flagset.Filter]: a missing key of the map reads as false. *)
Definition Filter (fs : Flagset) (unsupportedFlagTypes : gmap FlagType bool) : Flagset :=
  {| Flags :=
       foldl (λ filtered flag,
                if negb (default false (unsupportedFlagTypes !! Type_ flag))
                then filtered ++ [flag] else filtered)
             [] (Flags fs) |}.

(** *** Source flags *)

(** The struct [SourceFlag] of [LoadFromSourceFlags]. *)
Record SourceFlag : Type := {
  SKey : string;
  SType : string;
  SDescription : string;
  SDefaultValue : any;
  SExpiry : string
}.

(** encoding/json on the two shapes [LoadFromSourceFlags] accepts: the object
    with a ["flags"] array ([None] when the decoded [Flags] is nil) and the
    bare array. *)
Class SourceCodec := {
  SourceDocument : Type;
  json_Unmarshal_wrapper : SourceDocument → error + option (list SourceFlag);
  json_Unmarshal_array : SourceDocument → error + list SourceFlag
}.

(** The double quote, and the message of [LoadFromSourceFlags], which quotes
    the word flags. *)
Definition quote : string :=
  String.String (Ascii.Ascii false true false false false true false false) "".

Definition sourceFormatError : string :=
  "failed to parse flags: expected either {" +:+ quote +:+ "flags" +:+ quote +:+
  ": [...]} or direct array format".

(** The loop of [LoadFromSourceFlags] over the source flags. *)
Fixpoint appendSource (source : list SourceFlag) (flags : list Flag) : error + list Flag :=
  match source with
  | [] => inr flags
  | sf :: rest =>
      match ParseFlagType (SType sf) with
      | inl err => inl err
      | inr flagType =>
          appendSource rest
            (flags ++ [{| Key := SKey sf; Type_ := flagType; Description := SDescription sf;
                          DefaultValue := SDefaultValue sf; Expiry := SExpiry sf |}])
      end
  end.

(** [LoadFromSourceFlags] *)
Definition LoadFromSourceFlags `{SourceCodec} (data : SourceDocument) : error + list Flag :=
  match
    match json_Unmarshal_wrapper data with
    | inr (Some flags) => inr flags
    | _ =>
        match json_Unmarshal_array data with
        | inl _ => inl (Errorf sourceFormatError)
        | inr flags => inr flags
        end
    end
  with
  | inl err => inl err
  | inr sourceFlagsArray => appendSource sourceFlagsArray []
  end.

(** *** The manifest document *)

(** The anonymous struct both JSON methods declare for one entry of
    ["flags"]: [flagType], [description], [defaultValue], [expiry]. *)
Record ManifestFlag : Type := {
  MFlagType : string;
  MDescription : string;
  MDefaultValue : any;
  MExpiry : string
}.

(** encoding/json on the manifest struct, whose only field is the map
    ["flags"]; [Document] is what the [[]byte] holds. *)
Class ManifestCodec := {
  Document : Type;
  json_Marshal_manifest : gmap string ManifestFlag → error + Document;
  json_Unmarshal_manifest : Document → error + gmap string ManifestFlag
}.

(** [sort.Slice(fs.Flags, func(i, j int) bool { return fs.Flags[i].Key < fs.Flags[j].Key })]:
    some rearrangement in which no flag is followed by one with a smaller
    key; the order of flags with equal keys is left open. *)
Definition keyLe (a b : Flag) : Prop := String.le (Key a) (Key b).

#[global] Instance keyLe_dec : RelDecision keyLe.
Proof. intros a b. unfold keyLe. apply _. Defined.

#[global] Instance keyLe_trans : Transitive keyLe.
Proof. intros a b c. unfold keyLe. apply transitivity. Qed.

#[global] Instance keyLe_total : Total keyLe.
Proof. intros a b. unfold keyLe. apply total, _. Qed.

Record KeySort : Type := {
  sortFlags : list Flag → list Flag;
  sortFlags_perm : ∀ l, sortFlags l ≡ₚ l;
  sortFlags_sorted : ∀ l, Sorted keyLe (sortFlags l)
}.

(** A stable merge sort by key is one such rearrangement. *)
Definition mergeKeySort : KeySort :=
  {| sortFlags := merge_sort keyLe;
     sortFlags_perm := merge_sort_Permutation keyLe;
     sortFlags_sorted := Sorted_merge_sort keyLe |}.

Section json.
Context `{ManifestCodec}.

(** The loop of [UnmarshalJSON] over the decoded entries, in the order the
    map is ranged over: it stops at the first type that does not parse and
    keeps what it has appended. *)
Fixpoint appendParsed (entries : list (string * ManifestFlag)) (flags : list Flag)
    : option error * list Flag :=
  match entries with
  | [] => (None, flags)
  | (key, flag) :: rest =>
      match ParseFlagType (MFlagType flag) with
      | inl err => (Some err, flags)
      | inr flagType =>
          appendParsed rest
            (flags ++ [{| Key := key; Type_ := flagType; Description := MDescription flag;
                          DefaultValue := MDefaultValue flag; Expiry := MExpiry flag |}])
      end
  end.

(** [Flagset.UnmarshalJSON]: the error and the receiver after the call. *)
Definition UnmarshalJSON (ord : MapRange ManifestFlag) (srt : KeySort)
    (data : Document) (fs : Flagset) : option error * Flagset :=
  match json_Unmarshal_manifest data with
  | inl err => (Some err, fs)
  | inr manifest =>
      match appendParsed (visit ord manifest) (Flags fs) with
      | (Some err, flags) => (Some err, {| Flags := flags |})
      | (None, flags) => (None, {| Flags := sortFlags srt flags |})
      end
  end.

(** The entry [MarshalJSON] stores under [flag.Key]. *)
Definition manifestFlagOf (flag : Flag) : ManifestFlag :=
  {| MFlagType := String (Type_ flag); MDescription := Description flag;
     MDefaultValue := DefaultValue flag; MExpiry := Expiry flag |}.

(** The map [MarshalJSON] fills: [manifest.Flags[flag.Key] = ...] for each flag. *)
Definition manifestOf (fs : Flagset) : gmap string ManifestFlag :=
  foldl (λ m flag, <[Key flag := manifestFlagOf flag]> m) ∅ (Flags fs).

(** [Flagset.MarshalJSON] *)
Definition MarshalJSON (fs : Flagset) : error + Document :=
  json_Marshal_manifest (manifestOf fs).
End json.

End flagset.

(** ** internal/plugin: the contract *)
Module plugin.

Inductive Capability : Type :=
| CapabilityPull | CapabilityPush | CapabilityCompare | CapabilityDelete.

#[global] Instance Capability_eq_dec : EqDecision Capability.
Proof. solve_decision. Defined.

Inductive Stability : Type :=
| StabilityExperimental | StabilityBeta | StabilityStable.

Record ConfigProperty : Type := {
  Type_ : string;
  PropDescription : string;
  Default : any;
  EnvVar : string;
  Sensitive : bool
}.

Record ConfigSchema : Type := {
  Required : list string;
  Properties : gmap string ConfigProperty
}.

Record Metadata : Type := {
  Name : string;
  Version : string;
  Description : string;
  Stability_ : Stability;
  Capabilities : list Capability;
  ConfigSchema_ : option ConfigSchema
}.

Record Config : Type := {
  BaseURL : string;
  AuthToken : string;
  Custom : gmap string any
}.

(** The options structs carry a context, which only reaches the transport;
    a cancelled context shows as a transport error there. *)
Record PushOptions : Type := { DryRun : bool }.

Record PushResult : Type := {
  Created : list flagset.Flag;
  Updated : list flagset.Flag;
  Deleted : list flagset.Flag;
  Unchanged : list flagset.Flag;
  Errors : list error
}.

Record FlagDiff : Type := {
  Key : string;
  Local : flagset.Flag;
  Remote : flagset.Flag
}.

Record CompareResult : Type := {
  Added : list flagset.Flag;
  Removed : list flagset.Flag;
  Modified : list FlagDiff;
  CmpUnchanged : list flagset.Flag
}.

(** The part of the [SyncPlugin] interface that the registry and
    [HasCapability] call.  An implementation is a type with this method. *)
Class SyncPlugin (P : Type) := { GetMetadata : P → Metadata }.

(** [HasCapability] *)
Definition HasCapability {P} `{SyncPlugin P} (p : P) (cap : Capability) : bool :=
  bool_decide (cap ∈ Capabilities (GetMetadata p)).

(** *** manager.go *)
Section manager.
Context {P : Type} `{SyncPlugin P}.

(** [PluginFactory]: [func() SyncPlugin], a constructor without state. *)
Definition PluginFactory : Type := unit → P.

Record PluginInfo : Type := {
  InfoName : string;
  InfoDescription : string;
  InfoStability : Stability;
  Factory : PluginFactory
}.

(** [Manager]: the lock is held for the whole of each method, so a
    method is one atomic step on the map. *)
Record Manager : Type := { plugins : gmap string PluginInfo }.

Definition NewManager : Manager := {| plugins := ∅ |}.

(** [Manager.Register]: the returned manager is the receiver after the
    call. *)
Definition Register (factory : PluginFactory) (m : Manager) : option error * Manager :=
  let plugin := factory () in
  let meta := GetMetadata plugin in
  if bool_decide (Name meta = "") then
    (Some (Errorf "plugin name cannot be empty"), m)
  else
    match plugins m !! Name meta with
    | Some _ => (Some (ErrAlreadyRegistered (Name meta)), m)
    | None =>
        (None,
         {| plugins :=
             <[Name meta :=
                 {| InfoName := Name meta;
                    InfoDescription := Description meta;
                    InfoStability := Stability_ meta;
                    Factory := factory |}]> (plugins m) |})
    end.

(** [Manager.listPluginNames]: the keys, sorted by [sort.Strings]. *)
Definition listPluginNames (m : Manager) : list string :=
  merge_sort String.le (map_to_list (plugins m)).*1.

(** [Manager.Get] *)
Definition Get (name : string) (m : Manager) : error + P :=
  match plugins m !! name with
  | None => inl (ErrPluginNotFound name (listPluginNames m))
  | Some info => inr (Factory info ())
  end.

(** [Manager.GetInfo] *)
Definition GetInfo (name : string) (m : Manager) : error + PluginInfo :=
  match plugins m !! name with
  | None => inl (ErrInfoNotFound name)
  | Some info => inr info
  end.

(** [Manager.List] *)
Definition List (m : Manager) : list string := listPluginNames m.

(** [Manager.GetAll]: a copy of the map. *)
Definition GetAll (m : Manager) : gmap string PluginInfo := plugins m.

(** [Manager.HasPlugin] *)
Definition HasPlugin (name : string) (m : Manager) : bool :=
  bool_decide (is_Some (plugins m !! name)).
(** [string(info.Stability)] *)
Definition Stability_string (s : Stability) : string :=
  match s with
  | StabilityExperimental => "experimental"
  | StabilityBeta => "beta"
  | StabilityStable => "stable"
  end.

(** The table [Manager.PrintPluginsTable] hands to the renderer. *)
Definition pluginsTableData (m : Manager) : list (list string) :=
  foldl (λ tableData name,
           match plugins m !! name with
           | Some info =>
               tableData ++ [[name; InfoDescription info; Stability_string (InfoStability info)]]
           | None =>
               (* the zero [PluginInfo]; not reached, the names are the keys *)
               tableData ++ [[name; ""; ""]]
           end)
        [["Plugin"; "Description"; "Stability"]] (listPluginNames m).

End manager.

Arguments PluginInfo P : clear implicits.
Arguments Manager P : clear implicits.
Arguments PluginFactory P : clear implicits.

End plugin.


(** ** The reconciliation loops of [Compare]

    [DefaultPlugin.Compare] and the DevCycle [Plugin.Compare] spell the same
    statements once the remote flags are fetched: build the two maps, range
    over the local map, range over the remote map. *)
Section compare_loops.
Variable flagsEqual : flagset.Flag → flagset.Flag → bool.

(** [m := make(map[string]flagset.Flag); for _, flag := range flags { m[flag.Key] = flag }] *)
Definition buildMap (flags : list flagset.Flag) : gmap string flagset.Flag :=
  foldl (λ m flag, <[flagset.Key flag := flag]> m) ∅ flags.

(** The body of [for key, localFlag := range localMap]. *)
Definition compareLocal (remoteMap : gmap string flagset.Flag)
    (result : plugin.CompareResult) (entry : string * flagset.Flag) : plugin.CompareResult :=
  let '(key, localFlag) := entry in
  match remoteMap !! key with
  | Some remoteFlag =>
      if negb (flagsEqual localFlag remoteFlag) then
        {| plugin.Added := plugin.Added result;
           plugin.Removed := plugin.Removed result;
           plugin.Modified :=
             plugin.Modified result ++
             [{| plugin.Key := key; plugin.Local := localFlag; plugin.Remote := remoteFlag |}];
           plugin.CmpUnchanged := plugin.CmpUnchanged result |}
      else
        {| plugin.Added := plugin.Added result;
           plugin.Removed := plugin.Removed result;
           plugin.Modified := plugin.Modified result;
           plugin.CmpUnchanged := plugin.CmpUnchanged result ++ [localFlag] |}
  | None =>
      {| plugin.Added := plugin.Added result ++ [localFlag];
         plugin.Removed := plugin.Removed result;
         plugin.Modified := plugin.Modified result;
         plugin.CmpUnchanged := plugin.CmpUnchanged result |}
  end.

(** The body of [for key, remoteFlag := range remoteMap]. *)
Definition compareRemote (localMap : gmap string flagset.Flag)
    (result : plugin.CompareResult) (entry : string * flagset.Flag) : plugin.CompareResult :=
  let '(key, remoteFlag) := entry in
  match localMap !! key with
  | Some _ => result
  | None =>
      {| plugin.Added := plugin.Added result;
         plugin.Removed := plugin.Removed result ++ [remoteFlag];
         plugin.Modified := plugin.Modified result;
         plugin.CmpUnchanged := plugin.CmpUnchanged result |}
  end.

(** From [localMap := ...] to [return result, nil]. *)
Definition compareFlags (ordLocal ordRemote : MapRange flagset.Flag)
    (localFlags remoteFlags : list flagset.Flag) : plugin.CompareResult :=
  let localMap := buildMap localFlags in
  let remoteMap := buildMap remoteFlags in
  let result :=
    {| plugin.Added := []; plugin.Removed := []; plugin.Modified := [];
       plugin.CmpUnchanged := [] |} in
  let result := foldl (compareLocal remoteMap) result (visit ordLocal localMap) in
  foldl (compareRemote localMap) result (visit ordRemote remoteMap).
End compare_loops.

(** ** internal/plugin/builtin: the default plugin *)

(** The client of internal/api/sync, which this plugin wraps: its three
    entry points, over the state of the outside world. *)
Class SyncAPI (World : Type) := {
  SyncClient : Type;
  sync_NewClient : string → string → error + SyncClient;
  sync_PullFlags : SyncClient → M World (error + flagset.Flagset);
  (** [PushFlags(ctx, local, remote, dryRun)] returns the created, updated
      and unchanged flags. *)
  sync_PushFlags : SyncClient → flagset.Flagset → flagset.Flagset → bool →
    M World (error + (list flagset.Flag * list flagset.Flag * list flagset.Flag))
}.

Module builtin.
Section default_plugin.
Context `{Fmt} {World : Type} `{SyncAPI World}.
Local Open Scope go_scope.

Record DefaultPlugin : Type := {
  config : plugin.Config;
  client : option SyncClient   (* nil until Configure builds it *)
}.

(** [NewDefaultPlugin]: [&DefaultPlugin{}] *)
Definition NewDefaultPlugin (_ : unit) : DefaultPlugin :=
  {| config := {| plugin.BaseURL := ""; plugin.AuthToken := ""; plugin.Custom := ∅ |};
     client := None |}.

(** [DefaultPlugin.Metadata] *)
Definition Metadata (p : DefaultPlugin) : plugin.Metadata :=
  {| plugin.Name := "default";
     plugin.Version := "1.0.0";
     plugin.Description := "Default sync plugin using the OpenFeature Manifest Management API";
     plugin.Stability_ := plugin.StabilityStable;
     plugin.Capabilities :=
       [plugin.CapabilityPull; plugin.CapabilityPush; plugin.CapabilityCompare];
     plugin.ConfigSchema_ :=
       Some {| plugin.Required := [];
               plugin.Properties :=
                 <["baseUrl" :=
                     {| plugin.Type_ := "string";
                        plugin.PropDescription := "Base URL of the Manifest Management API endpoint";
                        plugin.Default := AnyNil; plugin.EnvVar := "";
                        plugin.Sensitive := false |}]>
                 (<["authToken" :=
                     {| plugin.Type_ := "string";
                        plugin.PropDescription := "Bearer token for API authentication";
                        plugin.Default := AnyNil; plugin.EnvVar := "OPENFEATURE_AUTH_TOKEN";
                        plugin.Sensitive := true |}]> ∅) |} |}.

(** [DefaultPlugin.Configure]: the receiver after the call and the error. *)
Definition Configure (cfg : plugin.Config) (p : DefaultPlugin) : option error * DefaultPlugin :=
  let p := {| config := cfg; client := client p |} in
  match sync_NewClient (plugin.BaseURL cfg) (plugin.AuthToken cfg) with
  | inl err => (Some (Errorf_w "failed to create sync client" err), p)
  | inr c => (None, {| config := cfg; client := Some c |})
  end.

(** [DefaultPlugin.ValidateConfig] *)
Definition ValidateConfig (p : DefaultPlugin) : option error :=
  if bool_decide (plugin.BaseURL (config p) = "") then
    Some (ErrConfigInvalid "default" "baseUrl is required")
  else None.

Definition notConfigured : error := Errorf "plugin not configured: call Configure() first".

(** [DefaultPlugin.Pull] *)
Definition Pull (p : DefaultPlugin) : M World (error + flagset.Flagset) :=
  match client p with
  | None => ret (inl notConfigured)
  | Some c => sync_PullFlags c
  end.

(** [DefaultPlugin.Push] *)
Definition Push (p : DefaultPlugin) (local : flagset.Flagset) (opts : plugin.PushOptions)
    : M World (error + plugin.PushResult) :=
  match client p with
  | None => ret (inl notConfigured)
  | Some c =>
      r <- sync_PullFlags c;;
      match r with
      | inl err => ret (inl (Errorf_w "failed to fetch remote flags for comparison" err))
      | inr remoteFlags =>
          r <- sync_PushFlags c local remoteFlags (plugin.DryRun opts);;
          match r with
          | inl err => ret (inl err)
          | inr (created, updated, unchanged) =>
              ret (inr {| plugin.Created := created; plugin.Updated := updated;
                          plugin.Deleted := []; plugin.Unchanged := unchanged;
                          plugin.Errors := [] |})
          end
      end
  end.

(** [flagsEqual] *)
Definition flagsEqual (a b : flagset.Flag) : bool :=
  if bool_decide (flagset.Key a ≠ flagset.Key b) ||
     bool_decide (flagset.Type_ a ≠ flagset.Type_ b) ||
     bool_decide (flagset.Description a ≠ flagset.Description b)
  then false
  else bool_decide (Sprintf_v (flagset.DefaultValue a) = Sprintf_v (flagset.DefaultValue b)).

(** [DefaultPlugin.Compare] *)
Definition Compare (ordLocal ordRemote : MapRange flagset.Flag)
    (p : DefaultPlugin) (local : flagset.Flagset) : M World (error + plugin.CompareResult) :=
  match client p with
  | None => ret (inl notConfigured)
  | Some c =>
      r <- sync_PullFlags c;;
      match r with
      | inl err => ret (inl (Errorf_w "failed to fetch remote flags" err))
      | inr remoteFlags =>
          ret (inr (compareFlags flagsEqual ordLocal ordRemote
                      (flagset.Flags local) (flagset.Flags remoteFlags)))
      end
  end.
End default_plugin.
End builtin.

(** ** internal/plugin/builtin/devcycle *)
Module devcycle.

(** *** client.go: data *)

Definition authURL : string := "https://auth.devcycle.com/oauth/token".
Definition apiURL : string := "https://api.devcycle.com".

(** The struct [Variable]; the name alone is taken in Rocq. *)
Record Variable_ : Type := {
  ID : string;
  Key : string;
  Name : string;
  Type_ : string;          (* Boolean, String, Number, JSON *)
  Description : string;
  DefaultValue : any;
  CreatedAt : string;
  UpdatedAt : string
}.

Record Feature : Type := {
  FeatureID : string;
  FeatureKey : string;
  FeatureName : string;
  FeatureDescription : string;
  FeatureType : string;
  Variables : list Variable_;
  Variations : list any
}.

Record tokenResponse : Type := {
  AccessToken : string;
  TokenType : string;
  ExpiresIn : Z
}.

(** A [time.Time] is an instant, counted in nanoseconds; a [time.Duration]
    is an int64 of nanoseconds. *)
Definition Time : Type := Z.
Definition Second : Z := 1000000000.

(** The zero [time.Time], January 1 of year 1, relative to the Unix epoch. *)
Definition zeroTime : Time := -62135596800 * Second.

(** Two's complement wrap-around of 64-bit signed arithmetic ([int] and
    [time.Duration] on a 64-bit platform). *)
Definition wrap64 (z : Z) : Z := (z + 2 ^ 63) mod 2 ^ 64 - 2 ^ 63.

(** [Client] without its transport and its lock: [authenticate] holds the
    write lock from its first to its last statement. *)
Record Client : Type := {
  clientID : string;
  clientSecret : string;
  accessToken : string;
  tokenExpiry : Time
}.

(** What [doRequest] is given as [body]. *)
Inductive Payload : Type :=
| BodyFeature (f : Feature)
| BodyMap (m : list (string * any)).

(** *** The transport, the codecs and the clock *)

Record Request (Wire : Type) : Type := {
  Method : string;
  URL : string;
  Header : gmap string string;
  Body : option Wire
}.
Arguments Method {Wire} _.
Arguments URL {Wire} _.
Arguments Header {Wire} _.
Arguments Body {Wire} _.

Record Response (Wire : Type) : Type := {
  StatusCode : Z;
  RespBody : Wire
}.
Arguments StatusCode {Wire} _.
Arguments RespBody {Wire} _.

(** Everything [Client] calls outside this repository.  [Wire] is what
    travels as a request or response body, [World] the state of the servers
    and of the clock. *)
Class Runtime := {
  Wire : Type;
  World : Type;
  (** [time.Now()] *)
  time_Now : M World Time;
  (** [c.httpClient.Do(req)]; a cancelled or expired context is an error here *)
  http_Do : Request Wire → M World (error + Response Wire);
  (** whether [http.NewRequestWithContext] accepts the method and the URL *)
  NewRequest_ok : string → string → bool;
  (** [url.Values.Encode] of the form fields *)
  url_Encode : gmap string string → Wire;
  (** [json.Marshal(body)] *)
  json_Marshal : Payload → error + Wire;
  (** [json.NewDecoder(resp.Body).Decode] into a [tokenResponse] and into a
      [[]Variable] *)
  json_Decode_token : Wire → error + tokenResponse;
  json_Decode_variables : Wire → error + list Variable_;
  (** [string(body)] after [io.ReadAll(resp.Body)] *)
  body_string : Wire → string;
  (** the constant authentication URL is a well-formed request target *)
  NewRequest_ok_authURL : NewRequest_ok "POST" authURL = true
}.

Section client.
Context `{Runtime}.
Local Open Scope go_scope.

(** The state the client code runs in: the world, and the requests handed
    to the transport so far (oldest first), kept to state what was sent. *)
Record Net : Type := {
  world : World;
  sent : list (Request Wire)
}.

Definition lift_world {A} (c : M World A) : M Net A :=
  λ n, let '(a, w) := c (world n) in (a, {| world := w; sent := sent n |}).

(** [c.httpClient.Do(req)] *)
Definition Do (req : Request Wire) : M Net (error + Response Wire) :=
  λ n, let '(r, w) := http_Do req (world n) in
       (r, {| world := w; sent := sent n ++ [req] |}).

(** [http.NewRequestWithContext(ctx, method, url, body)] *)
Definition NewRequestWithContext (method url : string) (body : option Wire)
    : error + Request Wire :=
  if NewRequest_ok method url then
    inr {| Method := method; URL := url; Header := ∅; Body := body |}
  else inl (Errorf "net/http: invalid request").

(** [req.Header.Set(key, value)] *)
Definition Header_Set (key value : string) (req : Request Wire) : Request Wire :=
  {| Method := Method req; URL := URL req;
     Header := <[key := value]> (Header req); Body := Body req |}.

(** A method of [*Client] runs on the client and the net. *)
Definition ClientM (A : Type) : Type := M (Client * Net) A.

Definition on_net {A} (c : M Net A) : ClientM A :=
  λ '(cl, n), let '(a, n') := c n in (a, (cl, n')).

Definition this : ClientM Client := gets fst.

(** *** client.go: operations *)

(** [NewClient] *)
Definition NewClient (clientID clientSecret : string) : error + Client :=
  if bool_decide (clientID = "") || bool_decide (clientSecret = "") then
    inl (Errorf "clientId and clientSecret are required")
  else
    inr {| clientID := clientID; clientSecret := clientSecret;
           accessToken := ""; tokenExpiry := zeroTime |}.

(** The form of the client-credentials exchange. *)
Definition authForm (c : Client) : gmap string string :=
  <["audience" := "https://api.devcycle.com/"]>
  (<["client_secret" := clientSecret c]>
  (<["client_id" := clientID c]>
  (<["grant_type" := "client_credentials"]> ∅))).

(** The expiry stored for a token: [time.Now().Add(time.Duration(expiresIn-60) * time.Second)]. *)
Definition expiryOf (now : Time) (expiresIn : Z) : Time :=
  now + wrap64 (wrap64 (expiresIn - 60) * Second).

(** [c.accessToken != "" && time.Now().Before(c.tokenExpiry)]: the clock is
    read only when the token is not empty. *)
Definition tokenValid : ClientM bool :=
  c <- this;;
  if bool_decide (accessToken c ≠ "") then
    now <- on_net (lift_world time_Now);;
    ret (bool_decide (now < tokenExpiry c))
  else ret false.

(** [Client.authenticate] *)
Definition authenticate : ClientM (option error) :=
  c <- this;;
  valid <- tokenValid;;
  if valid then
    ret None
  else
    match NewRequestWithContext "POST" authURL (Some (url_Encode (authForm c))) with
    | inl err => ret (Some (Errorf_w "failed to create auth request" err))
    | inr req =>
        let req := Header_Set "Content-Type" "application/x-www-form-urlencoded" req in
        r <- on_net (Do req);;
        match r with
        | inl err => ret (Some (Errorf_w "failed to authenticate" err))
        | inr resp =>
            if bool_decide (StatusCode resp ≠ 200) then
              ret (Some (Errorf_status "authentication failed" (StatusCode resp)
                           (body_string (RespBody resp))))
            else
              match json_Decode_token (RespBody resp) with
              | inl err => ret (Some (Errorf_w "failed to parse auth response" err))
              | inr tokenResp =>
                  now' <- on_net (lift_world time_Now);;
                  modify (λ '(c, n),
                    ({| clientID := clientID c; clientSecret := clientSecret c;
                        accessToken := AccessToken tokenResp;
                        tokenExpiry := expiryOf now' (ExpiresIn tokenResp) |}, n));;;
                  ret None
              end
        end
    end.

(** [Client.doRequest] *)
Definition doRequest (method path : string) (body : option Payload)
    : ClientM (error + Response Wire) :=
  e <- authenticate;;
  match e with
  | Some err => ret (inl err)
  | None =>
      match
        match body with
        | None => inr None
        | Some b =>
            match json_Marshal b with
            | inl err => inl (Errorf_w "failed to marshal request body" err)
            | inr jsonBody => inr (Some jsonBody)
            end
        end
      with
      | inl err => ret (inl err)
      | inr reqBody =>
          match NewRequestWithContext method (apiURL +:+ path) reqBody with
          | inl err => ret (inl (Errorf_w "failed to create request" err))
          | inr req =>
              c <- this;;
              let req := Header_Set "Authorization" ("Bearer " +:+ accessToken c) req in
              let req := Header_Set "Content-Type" "application/json" req in
              let req := Header_Set "Accept" "application/json" req in
              on_net (Do req)
          end
      end
  end.

(** [Client.GetVariables] *)
Definition GetVariables (project : string) : ClientM (error + list Variable_) :=
  r <- doRequest "GET" ("/v1/projects/" +:+ project +:+ "/variables") None;;
  match r with
  | inl err => ret (inl err)
  | inr resp =>
      if bool_decide (StatusCode resp ≠ 200) then
        ret (inl (Errorf_status "failed to fetch variables" (StatusCode resp)
                    (body_string (RespBody resp))))
      else
        match json_Decode_variables (RespBody resp) with
        | inl err => ret (inl (Errorf_w "failed to parse variables response" err))
        | inr variables => ret (inr variables)
        end
  end.

(** [getOnValue] *)
Definition getOnValue (varType : string) (defaultValue : any) : any :=
  if bool_decide (varType = "Boolean") then
    match defaultValue with
    | AnyBool b => AnyBool (negb b)
    | _ => AnyBool true
    end
  else if bool_decide (varType = "String") then AnyString "enabled"
  else if bool_decide (varType = "Number") then AnyInt 1
  else if bool_decide (varType = "JSON") then AnyMap [("enabled", AnyBool true)]
  else defaultValue.

(** The feature [CreateFeatureWithVariable] posts. *)
Definition featureOf (variable : Variable_) : Feature :=
  {| FeatureID := "";
     FeatureKey := Key variable;
     FeatureName := Key variable;
     FeatureDescription := Description variable;
     FeatureType := "release";
     Variables :=
       [{| ID := ""; Key := Key variable; Name := Key variable; Type_ := Type_ variable;
           Description := Description variable; DefaultValue := DefaultValue variable;
           CreatedAt := ""; UpdatedAt := "" |}];
     Variations :=
       [AnyMap [("key", AnyString "variation-on");
                ("name", AnyString "Variation On");
                ("variables",
                 AnyMap [(Key variable, getOnValue (Type_ variable) (DefaultValue variable))])];
        AnyMap [("key", AnyString "variation-off");
                ("name", AnyString "Variation Off");
                ("variables", AnyMap [(Key variable, DefaultValue variable)])]] |}.

(** [resp.StatusCode < 200 || resp.StatusCode >= 300] *)
Definition notSuccess (status : Z) : bool :=
  bool_decide (status < 200) || bool_decide (status >= 300).

(** [Client.CreateFeatureWithVariable] *)
Definition CreateFeatureWithVariable (project : string) (variable : Variable_)
    : ClientM (option error) :=
  r <- doRequest "POST" ("/v2/projects/" +:+ project +:+ "/features")
         (Some (BodyFeature (featureOf variable)));;
  match r with
  | inl err => ret (Some err)
  | inr resp =>
      if notSuccess (StatusCode resp) then
        ret (Some (Errorf_status "failed to create feature" (StatusCode resp)
                     (body_string (RespBody resp))))
      else ret None
  end.

(** The body [UpdateVariable] sends: [map[string]any{"description": variable.Description}]. *)
Definition updateBody (variable : Variable_) : list (string * any) :=
  [("description", AnyString (Description variable))].

(** [Client.UpdateVariable] *)
Definition UpdateVariable (project variableKey : string) (variable : Variable_)
    : ClientM (option error) :=
  r <- doRequest "PATCH" ("/v1/projects/" +:+ project +:+ "/variables/" +:+ variableKey)
         (Some (BodyMap (updateBody variable)));;
  match r with
  | inl err => ret (Some err)
  | inr resp =>
      if notSuccess (StatusCode resp) then
        ret (Some (Errorf_status "failed to update variable" (StatusCode resp)
                     (body_string (RespBody resp))))
      else ret None
  end.
End client.

(** *** plugin.go *)
Section plugin.
Context `{Fmt} `{Runtime}.
Local Open Scope go_scope.

Record Plugin : Type := {
  config : plugin.Config;
  client : option Client;      (* nil until Configure builds it *)
  project : string;
  environment : string
}.

(** [NewPlugin]: [&Plugin{}] *)
Definition NewPlugin (_ : unit) : Plugin :=
  {| config := {| plugin.BaseURL := ""; plugin.AuthToken := ""; plugin.Custom := ∅ |};
     client := None; project := ""; environment := "" |}.

Definition stringProperty (description envVar : string) (default : any) (sensitive : bool)
    : plugin.ConfigProperty :=
  {| plugin.Type_ := "string"; plugin.PropDescription := description;
     plugin.Default := default; plugin.EnvVar := envVar; plugin.Sensitive := sensitive |}.

(** [Plugin.Metadata] *)
Definition Metadata (p : Plugin) : plugin.Metadata :=
  {| plugin.Name := "devcycle";
     plugin.Version := "1.0.0";
     plugin.Description := "Sync plugin for DevCycle feature flag management platform";
     plugin.Stability_ := plugin.StabilityBeta;
     plugin.Capabilities :=
       [plugin.CapabilityPull; plugin.CapabilityPush; plugin.CapabilityCompare];
     plugin.ConfigSchema_ :=
       Some {| plugin.Required := ["project"; "clientId"; "clientSecret"];
               plugin.Properties :=
                 <["project" := stringProperty "DevCycle project key" "" AnyNil false]>
                 (<["clientId" :=
                      stringProperty "DevCycle OAuth client ID" "DEVCYCLE_CLIENT_ID" AnyNil false]>
                 (<["clientSecret" :=
                      stringProperty "DevCycle OAuth client secret" "DEVCYCLE_CLIENT_SECRET"
                        AnyNil true]>
                 (<["environment" :=
                      stringProperty "Target environment for sync operations" ""
                        (AnyString "development") false]> ∅))) |} |}.

(** [config.Custom[key].(string)]: the value and whether the assertion holds. *)
Definition customString (cfg : plugin.Config) (key : string) : option string :=
  match plugin.Custom cfg !! key with
  | Some (AnyString s) => Some s
  | _ => None
  end.

(** [Plugin.Configure]: the error and the receiver after the call. *)
Definition Configure (cfg : plugin.Config) (p : Plugin) : option error * Plugin :=
  let project' := default (project p) (customString cfg "project") in
  let environment' := default "development" (customString cfg "environment") in
  let clientID := default "" (customString cfg "clientId") in
  let clientSecret := default "" (customString cfg "clientSecret") in
  match NewClient clientID clientSecret with
  | inl err =>
      (Some (Errorf_w "failed to create DevCycle client" err),
       {| config := cfg; client := client p; project := project';
          environment := environment' |})
  | inr c =>
      (None,
       {| config := cfg; client := Some c; project := project'; environment := environment' |})
  end.

(** [Plugin.ValidateConfig] *)
Definition ValidateConfig (p : Plugin) : option error :=
  if bool_decide (project p = "") then
    Some (ErrConfigInvalid "devcycle" "project is required")
  else
    match client p with
    | None =>
        Some (ErrConfigInvalid "devcycle"
                "client not configured - ensure clientId and clientSecret are provided")
    | Some _ => None
    end.

(** [devCycleTypeToFlagType] *)
Definition devCycleTypeToFlagType (dcType : string) : error + flagset.FlagType :=
  if bool_decide (dcType = "Boolean") then inr flagset.BoolType
  else if bool_decide (dcType = "String") then inr flagset.StringType
  else if bool_decide (dcType = "Number") then inr flagset.FloatType
  else if bool_decide (dcType = "JSON") then inr flagset.ObjectType
  else inl (Errorf ("unsupported DevCycle type: " +:+ dcType)).

(** [flagTypeToDevCycleType] *)
Definition flagTypeToDevCycleType (ft : flagset.FlagType) : string :=
  match ft with
  | flagset.BoolType => "Boolean"
  | flagset.StringType => "String"
  | flagset.IntType | flagset.FloatType => "Number"
  | flagset.ObjectType => "JSON"
  | flagset.UnknownFlagType => "String"
  end.

(** [variableToFlag] *)
Definition variableToFlag (v : Variable_) : error + flagset.Flag :=
  match devCycleTypeToFlagType (Type_ v) with
  | inl err => inl err
  | inr flagType =>
      inr {| flagset.Key := Key v; flagset.Type_ := flagType;
             flagset.Description := Description v;
             flagset.DefaultValue := DefaultValue v; flagset.Expiry := "" |}
  end.

(** [flagToVariable] *)
Definition flagToVariable (flag : flagset.Flag) (project : string) : Variable_ :=
  {| ID := ""; Key := flagset.Key flag; Name := "";
     Type_ := flagTypeToDevCycleType (flagset.Type_ flag);
     Description := flagset.Description flag;
     DefaultValue := flagset.DefaultValue flag;
     CreatedAt := ""; UpdatedAt := "" |}.

(** [variableNeedsUpdate] *)
Definition variableNeedsUpdate (existing new : Variable_) : bool :=
  if bool_decide (Type_ existing ≠ Type_ new) then true
  else if bool_decide (Description existing ≠ Description new) then true
  else bool_decide (Sprintf_v (DefaultValue existing) ≠ Sprintf_v (DefaultValue new)).

(** [flagsEqual] *)
Definition flagsEqual (a b : flagset.Flag) : bool :=
  if bool_decide (flagset.Key a ≠ flagset.Key b) ||
     bool_decide (flagset.Type_ a ≠ flagset.Type_ b) ||
     bool_decide (flagset.Description a ≠ flagset.Description b)
  then false
  else bool_decide (Sprintf_v (flagset.DefaultValue a) = Sprintf_v (flagset.DefaultValue b)).

(** A method of [*Plugin] runs on the plugin, whose [client] field points to
    the client, and the net. *)
Definition PluginM (A : Type) : Type := M (Plugin * Net) A.

(** The common opening of [Pull], [Push] and [Compare]: return the error of
    [ValidateConfig], else run the rest of the method on [p.client]. *)
Definition validated {A} (rest : Plugin → ClientM (error + A)) : PluginM (error + A) :=
  λ '(p, n),
    match ValidateConfig p, client p with
    | Some err, _ => (inl err, (p, n))
    | None, Some c =>
        let '(r, (c', n')) := rest p (c, n) in
        (r, ({| config := config p; client := Some c'; project := project p;
                environment := environment p |}, n'))
    | None, None =>
        (* not reached: ValidateConfig rejects a nil client *)
        (inl (ErrConfigInvalid "devcycle"
                "client not configured - ensure clientId and clientSecret are provided"),
         (p, n))
    end.

(** The variables that convert to a flag, in order; the others are skipped. *)
Definition variablesToFlags (variables : list Variable_) : list flagset.Flag :=
  omap (λ v, match variableToFlag v with inl _ => None | inr flag => Some flag end) variables.

(** [Plugin.Pull] *)
Definition Pull : PluginM (error + flagset.Flagset) :=
  validated (λ p,
    r <- GetVariables (project p);;
    match r with
    | inl err => ret (inl (Errorf_w "failed to fetch DevCycle variables" err))
    | inr variables => ret (inr {| flagset.Flags := variablesToFlags variables |})
    end).

(** [remoteMap := make(map[string]Variable); for _, v := range remoteVars { remoteMap[v.Key] = v }] *)
Definition buildVariableMap (remoteVars : list Variable_) : gmap string Variable_ :=
  foldl (λ m v, <[Key v := v]> m) ∅ remoteVars.

Definition appendCreated (flag : flagset.Flag) (r : plugin.PushResult) : plugin.PushResult :=
  {| plugin.Created := plugin.Created r ++ [flag]; plugin.Updated := plugin.Updated r;
     plugin.Deleted := plugin.Deleted r; plugin.Unchanged := plugin.Unchanged r;
     plugin.Errors := plugin.Errors r |}.

Definition appendUpdated (flag : flagset.Flag) (r : plugin.PushResult) : plugin.PushResult :=
  {| plugin.Created := plugin.Created r; plugin.Updated := plugin.Updated r ++ [flag];
     plugin.Deleted := plugin.Deleted r; plugin.Unchanged := plugin.Unchanged r;
     plugin.Errors := plugin.Errors r |}.

Definition appendUnchanged (flag : flagset.Flag) (r : plugin.PushResult) : plugin.PushResult :=
  {| plugin.Created := plugin.Created r; plugin.Updated := plugin.Updated r;
     plugin.Deleted := plugin.Deleted r; plugin.Unchanged := plugin.Unchanged r ++ [flag];
     plugin.Errors := plugin.Errors r |}.

Definition appendError (err : error) (r : plugin.PushResult) : plugin.PushResult :=
  {| plugin.Created := plugin.Created r; plugin.Updated := plugin.Updated r;
     plugin.Deleted := plugin.Deleted r; plugin.Unchanged := plugin.Unchanged r;
     plugin.Errors := plugin.Errors r ++ [err] |}.

Definition emptyPushResult : plugin.PushResult :=
  {| plugin.Created := []; plugin.Updated := []; plugin.Deleted := [];
     plugin.Unchanged := []; plugin.Errors := [] |}.

(** The body of [for _, flag := range local.Flags] in [Push]. *)
Definition pushFlag (p : Plugin) (opts : plugin.PushOptions)
    (remoteMap : gmap string Variable_) (result : plugin.PushResult) (flag : flagset.Flag)
    : ClientM plugin.PushResult :=
  let variable := flagToVariable flag (project p) in
  match remoteMap !! flagset.Key flag with
  | Some existingVar =>
      if variableNeedsUpdate existingVar variable then
        e <- (if negb (plugin.DryRun opts)
              then UpdateVariable (project p) (flagset.Key flag) variable
              else ret None);;
        match e with
        | Some err =>
            ret (appendError (Errorf_key "failed to update" (flagset.Key flag) err) result)
        | None => ret (appendUpdated flag result)
        end
      else ret (appendUnchanged flag result)
  | None =>
      e <- (if negb (plugin.DryRun opts)
            then CreateFeatureWithVariable (project p) variable
            else ret None);;
      match e with
      | Some err =>
          ret (appendError (Errorf_key "failed to create" (flagset.Key flag) err) result)
      | None => ret (appendCreated flag result)
      end
  end.

(** The loop over [local.Flags]. *)
Fixpoint pushFlags (p : Plugin) (opts : plugin.PushOptions)
    (remoteMap : gmap string Variable_) (result : plugin.PushResult)
    (flags : list flagset.Flag) : ClientM plugin.PushResult :=
  match flags with
  | [] => ret result
  | flag :: rest =>
      result' <- pushFlag p opts remoteMap result flag;;
      pushFlags p opts remoteMap result' rest
  end.

(** [Plugin.Push] *)
Definition Push (local : flagset.Flagset) (opts : plugin.PushOptions)
    : PluginM (error + plugin.PushResult) :=
  validated (λ p,
    r <- GetVariables (project p);;
    match r with
    | inl err => ret (inl (Errorf_w "failed to fetch existing DevCycle variables" err))
    | inr remoteVars =>
        result <- pushFlags p opts (buildVariableMap remoteVars) emptyPushResult
                    (flagset.Flags local);;
        ret (inr result)
    end).

(** [Plugin.Compare] *)
Definition Compare (ordLocal ordRemote : MapRange flagset.Flag) (local : flagset.Flagset)
    : PluginM (error + plugin.CompareResult) :=
  validated (λ p,
    r <- GetVariables (project p);;
    match r with
    | inl err => ret (inl (Errorf_w "failed to fetch DevCycle variables" err))
    | inr remoteVars =>
        ret (inr (compareFlags flagsEqual ordLocal ordRemote
                    (flagset.Flags local) (variablesToFlags remoteVars)))
    end).
End plugin.
End devcycle.

(** ** internal/cmd: flag lists and usage reports *)
Module cmd.

(** *** manifest_list.go *)

(** The counting loop of [displayFlagList]: the expired flags and the flags
    with an expiry still to come. *)
Fixpoint countExpiry {World} `{flagset.DateLib World} (flags : list flagset.Flag)
    (expiredCount expiringCount : Z) : M World (Z * Z) :=
  match flags with
  | [] => ret (expiredCount, expiringCount)
  | flag :: rest =>
      if flagset.HasExpiry flag then
        bind (flagset.IsExpired flag) (λ expired,
          if expired : bool then countExpiry rest (expiredCount + 1) expiringCount
          else countExpiry rest expiredCount (expiringCount + 1))
      else countExpiry rest expiredCount expiringCount
  end.

(** *** manifest_usage.go *)

Record FlagUsage : Type := {
  FilePath : string;
  LineNumber : Z;
  Line : string
}.

Record FlagUsageReport : Type := {
  FlagKey : string;
  FlagType : string;
  Expiry : string;
  IsExpired : bool;
  UsageCount : Z;
  Usages : list FlagUsage
}.

Record UsageReport : Type := {
  TotalFlags : Z;
  FlagsWithUsage : Z;
  UnusedFlags : Z;
  TotalUsages : Z;
  Reports : list FlagUsageReport
}.

(** The comparison [analyzeUsage] sorts the reports with: expired first,
    then the flags with an expiry, then by usage count, then by key. *)
Definition usageLess (a b : FlagUsageReport) : bool :=
  if bool_decide (IsExpired a ≠ IsExpired b) then IsExpired a
  else if bool_decide (bool_decide (Expiry a ≠ "") ≠ bool_decide (Expiry b ≠ ""))
  then bool_decide (Expiry a ≠ "")
  else if bool_decide (UsageCount a ≠ UsageCount b)
  then bool_decide (UsageCount a < UsageCount b)
  else String.ltb (FlagKey a) (FlagKey b).

(** *** push.go *)

(** The methods of the [SyncPlugin] interface that [pushWithPlugin] calls on
    the plugin it got from the registry.  The plugin is a pointer: [Push]
    runs on the plugin and the world. *)
Class PluginOps (P World : Type) := {
  ops_Configure : plugin.Config → P → option error * P;
  ops_ValidateConfig : P → option error;
  ops_Push : flagset.Flagset → plugin.PushOptions → M (P * World) (error + plugin.PushResult)
}.

(** [strconv.Quote], which the verb [%q] applies to the plugin name. *)
Class Quoting := { strconv_Quote : string → string }.

(** [pushWithPlugin]: the error it returns and the errors it prints as
    warnings.  [m] is the default manager, [pluginConfig] what the getters of
    the config package return; the rendering of the result is left out. *)
Definition pushWithPlugin {P World} `{plugin.SyncPlugin P} `{!PluginOps P World} `{Quoting}
    (m : plugin.Manager P) (pluginName : string) (pluginConfig : plugin.Config)
    (flags : flagset.Flagset) (dryRun : bool) : M World (option error * list error) :=
  match plugin.Get pluginName m with
  | inl err => ret (Some (Errorf_w "failed to get plugin" err), [])
  | inr p =>
      match ops_Configure pluginConfig p with
      | (Some err, _) => ret (Some (Errorf_w "failed to configure plugin" err), [])
      | (None, p) =>
          match ops_ValidateConfig p with
          | Some err => ret (Some (Errorf_w "invalid plugin configuration" err), [])
          | None =>
              if negb (plugin.HasCapability p plugin.CapabilityPush) then
                ret (Some (Errorf ("plugin " +:+ strconv_Quote pluginName +:+
                                   " does not support push operations")), [])
              else
                λ w,
                  let '(r, (_, w')) := ops_Push flags {| plugin.DryRun := dryRun |} (p, w) in
                  match r with
                  | inl err => ((Some (Errorf_w "error pushing flags via plugin" err), []), w')
                  | inr result => ((None, plugin.Errors result), w')
                  end
          end
      end
  end.

End cmd.

(** ** Instances used by the examples *)

(** The mock plugin of plugin_test.go: it answers [Metadata] with the
    metadata it was built with. *)
Record MockPlugin : Type := {
  metadata : plugin.Metadata;
  configured : bool
}.

#[global] Instance MockPlugin_SyncPlugin : plugin.SyncPlugin MockPlugin :=
  {| plugin.GetMetadata := metadata |}.

Definition mockNamed (name description : string) : plugin.PluginFactory MockPlugin :=
  λ _, {| metadata :=
            {| plugin.Name := name; plugin.Version := "1.0.0";
               plugin.Description := description;
               plugin.Stability_ := plugin.StabilityExperimental;
               plugin.Capabilities :=
                 [plugin.CapabilityPull; plugin.CapabilityPush; plugin.CapabilityCompare];
               plugin.ConfigSchema_ := None |};
          configured := false |}.

(** [NewMockPlugin] *)
Definition NewMockPlugin : plugin.PluginFactory MockPlugin :=
  mockNamed "mock" "A mock plugin for testing".

(** Registering a list of factories one after the other, errors dropped. *)
Definition registerAll {P} `{plugin.SyncPlugin P}
    (factories : list (plugin.PluginFactory P)) (m : plugin.Manager P) : plugin.Manager P :=
  foldl (λ m factory, (plugin.Register factory m).2) m factories.

(** The two values of [PushOptions]. *)
Definition dryRun : plugin.PushOptions := {| plugin.DryRun := true |}.
Definition realRun : plugin.PushOptions := {| plugin.DryRun := false |}.

(** An in-memory manifest service for the default plugin: the world is the
    remote list of flags; a push that is not a dry run stores the local
    flags and reports them as created. *)
#[global] Instance memorySyncAPI : SyncAPI (list flagset.Flag) := {|
  SyncClient := string;
  sync_NewClient := λ baseURL _,
    if bool_decide (baseURL = "") then inl (Errorf "base URL is required") else inr baseURL;
  sync_PullFlags := λ _ w, (inr {| flagset.Flags := w |}, w);
  sync_PushFlags := λ _ local _ dryRun w,
    (inr (flagset.Flags local, [], []), if dryRun then w else flagset.Flags local)
|}.

(** The default plugin after [Configure] with the in-memory service. *)
Definition memoryPlugin : builtin.DefaultPlugin (World := list flagset.Flag) :=
  (builtin.Configure
     {| plugin.BaseURL := "https://flags.example.com"; plugin.AuthToken := "secret-token";
        plugin.Custom := ∅ |}
     (builtin.NewDefaultPlugin ())).2.

(** An in-memory DevCycle.  Bodies travel as structured values; the server
    hands out one token, lists its variables, stores the variables of a
    posted feature, and applies to a patched variable the fields the body
    carries.  Keys in [rejected] are refused with status 500. *)
Module sim.

Inductive SimWire : Type :=
| WForm (form : gmap string string)
| WPayload (p : devcycle.Payload)
| WToken (t : devcycle.tokenResponse)
| WVariables (vs : list devcycle.Variable_)
| WText (s : string).

Record SimWorld : Type := {
  clock : devcycle.Time;
  simProject : string;
  store : list devcycle.Variable_;
  rejected : list string;
  lifetime : Z
}.

Definition withStore (w : SimWorld) (vs : list devcycle.Variable_) : SimWorld :=
  {| clock := clock w; simProject := simProject w; store := vs;
     rejected := rejected w; lifetime := lifetime w |}.

Definition tick (w : SimWorld) : SimWorld :=
  {| clock := clock w + devcycle.Second; simProject := simProject w; store := store w;
     rejected := rejected w; lifetime := lifetime w |}.

Fixpoint field (name : string) (m : list (string * any)) : option any :=
  match m with
  | [] => None
  | (k, v) :: rest => if bool_decide (k = name) then Some v else field name rest
  end.

(** A PATCH changes the fields present in the body and no other. *)
Definition patch (m : list (string * any)) (v : devcycle.Variable_) : devcycle.Variable_ :=
  {| devcycle.ID := devcycle.ID v;
     devcycle.Key := devcycle.Key v;
     devcycle.Name := devcycle.Name v;
     devcycle.Type_ :=
       match field "type" m with Some (AnyString t) => t | _ => devcycle.Type_ v end;
     devcycle.Description :=
       match field "description" m with
       | Some (AnyString d) => d
       | _ => devcycle.Description v
       end;
     devcycle.DefaultValue := default (devcycle.DefaultValue v) (field "defaultValue" m);
     devcycle.CreatedAt := devcycle.CreatedAt v;
     devcycle.UpdatedAt := devcycle.UpdatedAt v |}.

Definition respond (status : Z) (body : SimWire) (w : SimWorld)
    : (error + devcycle.Response SimWire) * SimWorld :=
  (inr {| devcycle.StatusCode := status; devcycle.RespBody := body |}, w).

Definition variableURL (w : SimWorld) (key : string) : string :=
  devcycle.apiURL +:+ "/v1/projects/" +:+ simProject w +:+ "/variables/" +:+ key.

Definition serve (req : devcycle.Request SimWire) (w0 : SimWorld)
    : (error + devcycle.Response SimWire) * SimWorld :=
  let w := tick w0 in
  if bool_decide (devcycle.Method req = "POST" ∧ devcycle.URL req = devcycle.authURL) then
    respond 200
      (WToken {| devcycle.AccessToken := "sim-token"; devcycle.TokenType := "Bearer";
                 devcycle.ExpiresIn := lifetime w |}) w
  else if bool_decide (devcycle.Header req !! "Authorization" ≠ Some "Bearer sim-token") then
    respond 401 (WText "unauthorized") w
  else if bool_decide (devcycle.Method req = "GET" ∧
                       devcycle.URL req =
                         devcycle.apiURL +:+ "/v1/projects/" +:+ simProject w +:+ "/variables")
  then respond 200 (WVariables (store w)) w
  else if bool_decide (devcycle.Method req = "POST" ∧
                       devcycle.URL req =
                         devcycle.apiURL +:+ "/v2/projects/" +:+ simProject w +:+ "/features")
  then
    match devcycle.Body req with
    | Some (WPayload (devcycle.BodyFeature f)) =>
        if bool_decide (devcycle.FeatureKey f ∈ rejected w) then
          respond 500 (WText "rejected") w
        else respond 201 (WText "created") (withStore w (store w ++ devcycle.Variables f))
    | _ => respond 400 (WText "bad request") w
    end
  else if bool_decide (devcycle.Method req = "PATCH") then
    match devcycle.Body req with
    | Some (WPayload (devcycle.BodyMap m)) =>
        if bool_decide (Forall (λ v, devcycle.URL req ≠ variableURL w (devcycle.Key v))
                          (store w))
        then respond 404 (WText "not found") w
        else if bool_decide (Exists (λ v, devcycle.URL req = variableURL w (devcycle.Key v) ∧
                                          devcycle.Key v ∈ rejected w) (store w))
        then respond 500 (WText "rejected") w
        else
          respond 200 (WText "updated")
            (withStore w
               ((λ v, if bool_decide (devcycle.URL req = variableURL w (devcycle.Key v))
                      then patch m v else v) <$> store w))
    | _ => respond 400 (WText "bad request") w
    end
  else respond 404 (WText "not found") w.

#[global] Instance runtime : devcycle.Runtime := {|
  devcycle.Wire := SimWire;
  devcycle.World := SimWorld;
  devcycle.time_Now := λ w, (clock w, w);
  devcycle.http_Do := serve;
  devcycle.NewRequest_ok := λ _ _, true;
  devcycle.url_Encode := WForm;
  devcycle.json_Marshal := λ p, inr (WPayload p);
  devcycle.json_Decode_token := λ b,
    match b with WToken t => inr t | _ => inl (Errorf "json: cannot decode") end;
  devcycle.json_Decode_variables := λ b,
    match b with WVariables vs => inr vs | _ => inl (Errorf "json: cannot decode") end;
  devcycle.body_string := λ b, match b with WText s => s | _ => "" end;
  devcycle.NewRequest_ok_authURL := eq_refl
|}.

(** The project "proj" holds the boolean variable "a", whose default is
    false.  [world0] accepts every change, [world1] refuses to create "b". *)
Definition remoteA : devcycle.Variable_ :=
  {| devcycle.ID := "1"; devcycle.Key := "a"; devcycle.Name := "a";
     devcycle.Type_ := "Boolean"; devcycle.Description := "flag a";
     devcycle.DefaultValue := AnyBool false;
     devcycle.CreatedAt := ""; devcycle.UpdatedAt := "" |}.

Definition world0 : SimWorld :=
  {| clock := 1700000000 * devcycle.Second; simProject := "proj"; store := [remoteA];
     rejected := []; lifetime := 3600 |}.

Definition world1 : SimWorld :=
  {| clock := 1700000000 * devcycle.Second; simProject := "proj"; store := [remoteA];
     rejected := ["b"]; lifetime := 3600 |}.

Definition net (w : SimWorld) : devcycle.Net := {| devcycle.world := w; devcycle.sent := [] |}.

(** The plugin after [Configure] with a project and credentials. *)
Definition configured : devcycle.Plugin :=
  (devcycle.Configure
     {| plugin.BaseURL := ""; plugin.AuthToken := "";
        plugin.Custom :=
          <["project" := AnyString "proj"]>
          (<["clientId" := AnyString "id"]>
          (<["clientSecret" := AnyString "secret"]> ∅)) |}
     (devcycle.NewPlugin ())).2.

(** Its client: no token yet. *)
Definition freshClient : devcycle.Client :=
  {| devcycle.clientID := "id"; devcycle.clientSecret := "secret";
     devcycle.accessToken := ""; devcycle.tokenExpiry := devcycle.zeroTime |}.

(** A client whose token expired a quarter of an hour before [world0]. *)
Definition staleClient : devcycle.Client :=
  {| devcycle.clientID := "id"; devcycle.clientSecret := "secret";
     devcycle.accessToken := "old-token";
     devcycle.tokenExpiry := 1699999100 * devcycle.Second |}.

(** A client whose token is valid for another 59 minutes in [world0]. *)
Definition warmClient : devcycle.Client :=
  {| devcycle.clientID := "id"; devcycle.clientSecret := "secret";
     devcycle.accessToken := "sim-token";
     devcycle.tokenExpiry := 1700003540 * devcycle.Second |}.

(** Local flags: "a" with default true (the remote one is false), and a new
    string flag "b". *)
Definition localA : flagset.Flag :=
  {| flagset.Key := "a"; flagset.Type_ := flagset.BoolType;
     flagset.Description := "flag a"; flagset.DefaultValue := AnyBool true;
     flagset.Expiry := "" |}.

Definition localB : flagset.Flag :=
  {| flagset.Key := "b"; flagset.Type_ := flagset.StringType;
     flagset.Description := "flag b"; flagset.DefaultValue := AnyString "x";
     flagset.Expiry := "" |}.

End sim.

(** A clock that stands still at the instant the world holds, and a date
    parser that knows two dates: the first of January of 2020 and of 2030. *)
#[global] Instance fixedDateLib : flagset.DateLib Z := {|
  flagset.time_Parse_date := λ s,
    if bool_decide (s = "2020-01-01") then inr (1577836800 * 1000000000)
    else if bool_decide (s = "2030-01-01") then inr (1893456000 * 1000000000)
    else inl (Errorf "parsing time: cannot parse");
  flagset.time_Now := λ w, (w, w)
|}.

(** A codec for source flags whose documents are the decoded values: an
    object with a flags array, or a bare array. *)
Inductive SourceDoc : Type :=
| SourceObject (flags : option (list flagset.SourceFlag))
| SourceArray (flags : list flagset.SourceFlag).

Definition structuredSourceCodec : flagset.SourceCodec :=
  {| flagset.SourceDocument := SourceDoc;
     flagset.json_Unmarshal_wrapper := λ d,
       match d with
       | SourceObject flags => inr flags
       | SourceArray _ => inl (Errorf "json: cannot unmarshal array into Go value")
       end;
     flagset.json_Unmarshal_array := λ d,
       match d with
       | SourceArray flags => inr flags
       | SourceObject _ => inl (Errorf "json: cannot unmarshal object into Go value")
       end |}.

(** A runtime without a network: every request fails in the transport.  The
    world is the clock. *)
Definition offline : devcycle.Runtime := {|
  devcycle.Wire := unit;
  devcycle.World := Z;
  devcycle.time_Now := λ w, (w, w);
  devcycle.http_Do := λ _ w, (inl (Errorf "dial tcp: no route to host"), w);
  devcycle.NewRequest_ok := λ _ _, true;
  devcycle.url_Encode := λ _, ();
  devcycle.json_Marshal := λ _, inr ();
  devcycle.json_Decode_token := λ _, inl (Errorf "EOF");
  devcycle.json_Decode_variables := λ _, inl (Errorf "EOF");
  devcycle.body_string := λ _, "";
  devcycle.NewRequest_ok_authURL := eq_refl
|}.

(** The DevCycle plugin as the registry and [pushWithPlugin] see it. *)
#[global] Instance devcycle_SyncPlugin : plugin.SyncPlugin devcycle.Plugin :=
  {| plugin.GetMetadata := devcycle.Metadata |}.

Definition devcycleOps `{Fmt} `{devcycle.Runtime} : cmd.PluginOps devcycle.Plugin devcycle.Net :=
  {| cmd.ops_Configure := devcycle.Configure;
     cmd.ops_ValidateConfig := devcycle.ValidateConfig;
     cmd.ops_Push := devcycle.Push |}.

(** Quoting of a name that needs no escape. *)
Definition plainQuoting : cmd.Quoting :=
  {| cmd.strconv_Quote := λ s, flagset.quote +:+ s +:+ flagset.quote |}.

(** ** Vocabulary of the statements *)

(** The request of the client-credentials exchange, as [authenticate]
    builds it. *)
Definition authRequest `{devcycle.Runtime} (c : devcycle.Client)
    : devcycle.Request devcycle.Wire :=
  {| devcycle.Method := "POST"; devcycle.URL := devcycle.authURL;
     devcycle.Header := <["Content-Type" := "application/x-www-form-urlencoded"]> ∅;
     devcycle.Body := Some (devcycle.url_Encode (devcycle.authForm c)) |}.

(** The world in which a token exchange of [authenticate] runs: the one the
    clock read leaves when a non-empty token was tested, else the world as it
    is. *)
Definition exchangeWorld `{devcycle.Runtime} (c : devcycle.Client) (n : devcycle.Net)
    : devcycle.World :=
  if bool_decide (devcycle.accessToken c ≠ "")
  then (devcycle.time_Now (devcycle.world n)).2
  else devcycle.world n.

(** The request [doRequest] builds for a method, a path, an encoded body and
    the token it reads from the client. *)
Definition apiRequest `{devcycle.Runtime} (method path : string)
    (reqBody : option devcycle.Wire) (token : string) : devcycle.Request devcycle.Wire :=
  {| devcycle.Method := method; devcycle.URL := devcycle.apiURL +:+ path;
     devcycle.Header :=
       <["Accept" := "application/json"]>
       (<["Content-Type" := "application/json"]>
       (<["Authorization" := "Bearer " +:+ token]> ∅));
     devcycle.Body := reqBody |}.

(** [reqBody] is the encoding of what [doRequest] was given as body. *)
Definition marshalled `{devcycle.Runtime} (body : option devcycle.Payload)
    (reqBody : option devcycle.Wire) : Prop :=
  match body with
  | None => reqBody = None
  | Some b => ∃ w, devcycle.json_Marshal b = inr w ∧ reqBody = Some w
  end.

(** The client once the token of a response is stored at time [now]. *)
Definition withToken (c : devcycle.Client) (tok : devcycle.tokenResponse)
    (now : devcycle.Time) : devcycle.Client :=
  {| devcycle.clientID := devcycle.clientID c;
     devcycle.clientSecret := devcycle.clientSecret c;
     devcycle.accessToken := devcycle.AccessToken tok;
     devcycle.tokenExpiry := devcycle.expiryOf now (devcycle.ExpiresIn tok) |}.

(** The key set of a list of flags. *)
Definition keysOf (flags : list flagset.Flag) : gset string :=
  list_to_set (flagset.Key <$> flags).

(** Diff completeness of a compare result against the two flag lists. *)
Definition diffComplete (r : plugin.CompareResult) (localFlags remoteFlags : list flagset.Flag)
    : Prop :=
  let added := keysOf (plugin.Added r) in
  let modified : gset string := list_to_set (plugin.Key <$> plugin.Modified r) in
  let unchanged := keysOf (plugin.CmpUnchanged r) in
  added ## modified ∧ added ## unchanged ∧ modified ## unchanged ∧
  added ∪ modified ∪ unchanged = keysOf localFlags ∧
  keysOf (plugin.Removed r) = keysOf remoteFlags ∖ keysOf localFlags.

(** The requests handed to the transport between two states of the net. *)
Definition newRequests `{devcycle.Runtime} (before after : devcycle.Net)
    : list (devcycle.Request devcycle.Wire) :=
  drop (length (devcycle.sent before)) (devcycle.sent after).

(** The flag key a per-flag error of [Push] names. *)
Definition failedKey (e : error) : option string :=
  match e with
  | Errorf_key _ key _ => Some key
  | _ => None
  end.

(** The keys a push result accounts for: those of its Created, Updated and
    Unchanged flags and those its errors name. *)
Definition accountedKeys (r : plugin.PushResult) : list string :=
  (flagset.Key <$> plugin.Created r) ++ (flagset.Key <$> plugin.Updated r) ++
  (flagset.Key <$> plugin.Unchanged r) ++ omap failedKey (plugin.Errors r).

(** How the result [d] of a dry run relates to the result [r] of a real run:
    the real run lists a sublist of the dry run's Created and of its Updated,
    the same Unchanged, and one error for each flag it lists less; the dry run
    has no errors. *)
Definition dryRunAgrees (d r : plugin.PushResult) : Prop :=
  sublist (plugin.Created r) (plugin.Created d) ∧
  sublist (plugin.Updated r) (plugin.Updated d) ∧
  plugin.Unchanged r = plugin.Unchanged d ∧
  plugin.Errors d = [] ∧
  (length (plugin.Created d) + length (plugin.Updated d) =
   length (plugin.Created r) + length (plugin.Updated r) + length (plugin.Errors r))%nat ∧
  (plugin.Errors r = [] →
   plugin.Created r = plugin.Created d ∧ plugin.Updated r = plugin.Updated d).

(** The claim of dry-run equivalence as it is worded: both runs return a
    result, with the same Created and the same Updated keys. *)
Definition sameClassification (dry real : error + plugin.PushResult) : Prop :=
  match dry, real with
  | inr d, inr r =>
      keysOf (plugin.Created d) = keysOf (plugin.Created r) ∧
      keysOf (plugin.Updated d) = keysOf (plugin.Updated r)
  | inl _, inl _ => True
  | _, _ => False
  end.

(** How [Push] sees a local flag against the variables of the response:
    [None] when no variable has the flag's key, otherwise whether the last
    variable with that key needs an update. *)
Definition remoteClass `{Fmt} (variables : list devcycle.Variable_) (project : string)
    (flag : flagset.Flag) : option bool :=
  (λ v, devcycle.variableNeedsUpdate v (devcycle.flagToVariable flag project)) <$>
  last (filter (λ v, devcycle.Key v = flagset.Key flag) variables).

(** A difference seen from the other side. *)
Definition swapDiff (d : plugin.FlagDiff) : plugin.FlagDiff :=
  {| plugin.Key := plugin.Key d; plugin.Local := plugin.Remote d;
     plugin.Remote := plugin.Local d |}.

(** A codec whose documents are the decoded manifests themselves. *)
Definition structuredCodec : flagset.ManifestCodec :=
  {| flagset.Document := gmap string flagset.ManifestFlag;
     flagset.json_Marshal_manifest := inr;
     flagset.json_Unmarshal_manifest := inr |}.

(** A manifest with the flags "b" and "a", in that order in the document. *)
Definition exampleManifest : gmap string flagset.ManifestFlag :=
  <["b" := {| flagset.MFlagType := "string"; flagset.MDescription := "flag b";
              flagset.MDefaultValue := AnyString "x"; flagset.MExpiry := "2030-01-01" |}]>
  (<["a" := {| flagset.MFlagType := "boolean"; flagset.MDescription := "flag a";
               flagset.MDefaultValue := AnyBool true; flagset.MExpiry := "" |}]> ∅).

(** A flagset is produced by the loader when [UnmarshalJSON] returns it, on
    an empty receiver, for some document. *)
Definition loaderProduced `{flagset.ManifestCodec} (fs : flagset.Flagset) : Prop :=
  ∃ ord srt data,
    flagset.UnmarshalJSON ord srt data {| flagset.Flags := [] |} = (None, fs).

(** What [UnmarshalJSON] appends for one decoded entry, if its type parses. *)
Definition decodeEntry (entry : string * flagset.ManifestFlag) : option flagset.Flag :=
  match flagset.ParseFlagType (flagset.MFlagType entry.2) with
  | inl _ => None
  | inr flagType =>
      Some {| flagset.Key := entry.1; flagset.Type_ := flagType;
              flagset.Description := flagset.MDescription entry.2;
              flagset.DefaultValue := flagset.MDefaultValue entry.2;
              flagset.Expiry := flagset.MExpiry entry.2 |}
  end.

(** What the first loop appends, as functions of the visited entries. *)
Definition addedOf (rm : gmap string flagset.Flag) (o : list (string * flagset.Flag)) : list flagset.Flag :=
  omap (λ e, match rm !! e.1 with None => Some e.2 | Some _ => None end) o.

Definition modifiedOf (flagsEqual : flagset.Flag → flagset.Flag → bool)
    (rm : gmap string flagset.Flag) (o : list (string * flagset.Flag)) : list plugin.FlagDiff :=
  omap (λ e, match rm !! e.1 with
             | Some r =>
                 if negb (flagsEqual e.2 r)
                 then Some {| plugin.Key := e.1; plugin.Local := e.2; plugin.Remote := r |}
                 else None
             | None => None
             end) o.

Definition unchangedOf (flagsEqual : flagset.Flag → flagset.Flag → bool)
    (rm : gmap string flagset.Flag) (o : list (string * flagset.Flag)) : list flagset.Flag :=
  omap (λ e, match rm !! e.1 with
             | Some r => if negb (flagsEqual e.2 r) then None else Some e.2
             | None => None
             end) o.

Definition removedOf (lm : gmap string flagset.Flag) (o : list (string * flagset.Flag)) : list flagset.Flag :=
  omap (λ e, match lm !! e.1 with None => Some e.2 | Some _ => None end) o.

(** The entry of the manifest map that [MarshalJSON] makes of a flag. *)
Definition entryOf (flag : flagset.Flag) : string * flagset.ManifestFlag :=
  (flagset.Key flag, flagset.manifestFlagOf flag).

(** * Theorems *)

(** ** The registry *)
Section manager_facts.
Context {P : Type} `{plugin.SyncPlugin P}.
Implicit Types (m : plugin.Manager P) (factory : plugin.PluginFactory P).

Lemma Register_error_unchanged factory m err m' :
  plugin.Register factory m = (Some err, m') → m' = m.
Proof.
  unfold plugin.Register. cbv zeta. case_bool_decide; [by intros [= _ <-]|].
  destruct (plugin.plugins m !! _); by intros [= <-].
Qed.

Lemma Register_keeps factory m name info :
  plugin.plugins m !! name = Some info →
  plugin.plugins (plugin.Register factory m).2 !! name = Some info.
Proof.
  intros Hin. unfold plugin.Register. cbv zeta. case_bool_decide; [done|].
  destruct (plugin.plugins m !! plugin.Name _) eqn:Hl; [done|]. cbn.
  rewrite lookup_insert_ne; [done|]. intros Heq. rewrite Heq in Hl. congruence.
Qed.

Lemma registerAll_keeps factories m name info :
  plugin.plugins m !! name = Some info →
  plugin.plugins (registerAll factories m) !! name = Some info.
Proof.
  revert m. induction factories as [|f fs IH]; intros m Hin; [done|].
  cbn. apply IH. by apply Register_keeps.
Qed.

Lemma Register_success factory m m' :
  plugin.Register factory m = (None, m') →
  let name := plugin.Name (plugin.GetMetadata (factory ())) in
  name ≠ "" ∧ plugin.plugins m !! name = None ∧
  ∃ info, plugin.plugins m' !! name = Some info ∧ plugin.Factory info = factory.
Proof.
  unfold plugin.Register. cbv zeta. case_bool_decide as Hn; [done|].
  destruct (plugin.plugins m !! _) eqn:Hl; [done|]. intros [= <-]. cbn.
  split_and!; [done..|]. eexists. by rewrite lookup_insert_eq.
Qed.

(** C6.  [Register] returns an error and leaves the registry as it was when
    the factory's metadata name is empty or is already registered.  When the
    name was registered by an earlier successful [Register first], the later
    call fails with the already-registered error, [Get] of the name still
    builds the first factory's plugin, and no later registration (this one
    or any after it) replaces it. *)
Theorem Register_rejects_and_first_wins m factory :
  let name := plugin.Name (plugin.GetMetadata (factory ())) in
  (name = "" →
     plugin.Register factory m = (Some (Errorf "plugin name cannot be empty"), m)) ∧
  (name ≠ "" → is_Some (plugin.plugins m !! name) →
     plugin.Register factory m = (Some (ErrAlreadyRegistered name), m)) ∧
  (∀ first m0 later,
     plugin.Register first m0 = (None, m) →
     plugin.Name (plugin.GetMetadata (first ())) = name →
     plugin.Register factory m = (Some (ErrAlreadyRegistered name), m) ∧
     plugin.Get name m = inr (first ()) ∧
     plugin.Get name (registerAll (factory :: later) m) = inr (first ())).
Proof.
  intros name. split_and!.
  - intros Hn. unfold plugin.Register. fold name. by rewrite bool_decide_eq_true_2.
  - intros Hn [info Hinfo]. unfold plugin.Register. fold name.
    rewrite bool_decide_eq_false_2 by done. by rewrite Hinfo.
  - intros first m0 later Hreg Hname.
    apply Register_success in Hreg as (Hne & _ & info & Hinfo & Hfac).
    rewrite Hname in Hne, Hinfo. fold name in Hne, Hinfo.
    split_and!.
    + unfold plugin.Register. fold name.
      rewrite bool_decide_eq_false_2 by done. by rewrite Hinfo.
    + unfold plugin.Get. by rewrite Hinfo, Hfac.
    + unfold plugin.Get. by rewrite (registerAll_keeps _ _ _ _ Hinfo), Hfac.
Qed.
End manager_facts.

(** A registry holding the mock plugin rejects a factory without a name and
    a second factory named "mock", and still builds the first mock. *)
Lemma Register_rejects_and_first_wins_witness :
  let m := (plugin.Register NewMockPlugin plugin.NewManager).2 in
  let second := mockNamed "mock" "another plugin of the same name" in
  plugin.Register (mockNamed "" "nameless") m =
    (Some (Errorf "plugin name cannot be empty"), m) ∧
  plugin.Register second m = (Some (ErrAlreadyRegistered "mock"), m) ∧
  plugin.Get "mock" m = inr (NewMockPlugin ()) ∧
  plugin.Get "mock" (registerAll [second; mockNamed "other" "x"; second] m)
    = inr (NewMockPlugin ()).
Proof.
  intros m second.
  pose proof (Register_rejects_and_first_wins m (mockNamed "" "nameless")) as (H1 & _ & _).
  pose proof (Register_rejects_and_first_wins m second) as (_ & H2 & H3).
  destruct (H3 NewMockPlugin plugin.NewManager [mockNamed "other" "x"; second])
    as (_ & H4 & H5); [reflexivity..|].
  split_and!.
  - apply H1. reflexivity.
  - apply H2; [discriminate|]. eexists. reflexivity.
  - exact H4.
  - exact H5.
Defined.

(** ** Reconciliation: the diff *)

Section compare_facts.
Variable flagsEqual : flagset.Flag → flagset.Flag → bool.
Implicit Types (flags : list flagset.Flag) (rm lm : gmap string flagset.Flag).

Lemma buildMap_snoc flags flag :
  buildMap (flags ++ [flag]) = <[flagset.Key flag := flag]> (buildMap flags).
Proof. unfold buildMap. by rewrite foldl_app. Qed.

Lemma buildMap_lookup flags k f :
  buildMap flags !! k = Some f → flagset.Key f = k ∧ f ∈ flags.
Proof.
  induction flags as [|x flags IH] using rev_ind.
  { unfold buildMap. cbn. by rewrite lookup_empty. }
  rewrite buildMap_snoc, lookup_insert. case_decide as Hk.
  - intros [= ->]. split; [done|]. apply elem_of_app. right. by apply list_elem_of_singleton.
  - intros [? ?]%IH. split; [done|]. apply elem_of_app. by left.
Qed.

Lemma dom_buildMap flags : dom (buildMap flags) = keysOf flags.
Proof.
  unfold keysOf. induction flags as [|x flags IH] using rev_ind.
  { unfold buildMap. cbn. apply dom_empty_L. }
  rewrite buildMap_snoc, dom_insert_L, IH, fmap_app, list_to_set_app_L. cbn.
  rewrite (comm_L (∪)). f_equal. apply symmetry, (right_id_L ∅ (∪)).
Qed.

Lemma buildMap_lookup_NoDup flags f :
  NoDup (flagset.Key <$> flags) → f ∈ flags → buildMap flags !! flagset.Key f = Some f.
Proof.
  induction flags as [|x flags IH] using rev_ind; [by intros _ ?%elem_of_nil|].
  rewrite fmap_app, NoDup_app, buildMap_snoc. intros (Hnd & Hdisj & _) Hin.
  apply elem_of_app in Hin as [Hin|Hin%list_elem_of_singleton].
  - rewrite lookup_insert_ne; [by apply IH|].
    intros Heq. apply (Hdisj (flagset.Key f)).
    + apply list_elem_of_fmap. by exists f.
    + rewrite <- Heq. cbn. by apply list_elem_of_singleton.
  - subst. by rewrite lookup_insert_eq.
Qed.

Lemma foldl_compareLocal rm o init :
  foldl (compareLocal flagsEqual rm) init o =
  {| plugin.Added := plugin.Added init ++ addedOf rm o;
     plugin.Removed := plugin.Removed init;
     plugin.Modified := plugin.Modified init ++ modifiedOf flagsEqual rm o;
     plugin.CmpUnchanged := plugin.CmpUnchanged init ++ unchangedOf flagsEqual rm o |}.
Proof.
  revert init. induction o as [|[k l] o IH]; intros init.
  { cbn. rewrite !app_nil_r. by destruct init. }
  cbn [foldl]. rewrite IH. unfold compareLocal, addedOf, modifiedOf, unchangedOf. cbn.
  destruct (rm !! k) as [r|]; [destruct (flagsEqual l r)|]; cbn;
    by rewrite <- ?app_assoc.
Qed.

Lemma foldl_compareRemote lm o init :
  foldl (compareRemote lm) init o =
  {| plugin.Added := plugin.Added init;
     plugin.Removed := plugin.Removed init ++ removedOf lm o;
     plugin.Modified := plugin.Modified init;
     plugin.CmpUnchanged := plugin.CmpUnchanged init |}.
Proof.
  revert init. induction o as [|[k r] o IH]; intros init.
  { cbn. rewrite !app_nil_r. by destruct init. }
  cbn [foldl]. rewrite IH. unfold compareRemote, removedOf. cbn.
  destruct (lm !! k); cbn; by rewrite <- ?app_assoc.
Qed.

Lemma compareFlags_eq ordLocal ordRemote localFlags remoteFlags :
  compareFlags flagsEqual ordLocal ordRemote localFlags remoteFlags =
  {| plugin.Added := addedOf (buildMap remoteFlags) (visit ordLocal (buildMap localFlags));
     plugin.Removed := removedOf (buildMap localFlags) (visit ordRemote (buildMap remoteFlags));
     plugin.Modified :=
       modifiedOf flagsEqual (buildMap remoteFlags) (visit ordLocal (buildMap localFlags));
     plugin.CmpUnchanged :=
       unchangedOf flagsEqual (buildMap remoteFlags) (visit ordLocal (buildMap localFlags)) |}.
Proof. unfold compareFlags. by rewrite foldl_compareRemote, foldl_compareLocal. Qed.

Lemma elem_of_visit {V} (ord : MapRange V) (m : gmap string V) k v :
  (k, v) ∈ visit ord m ↔ m !! k = Some v.
Proof. by rewrite (visit_perm ord m), elem_of_map_to_list. Qed.

Lemma elem_of_keysOf flags k : k ∈ keysOf flags ↔ ∃ f, f ∈ flags ∧ flagset.Key f = k.
Proof.
  unfold keysOf. rewrite elem_of_list_to_set, list_elem_of_fmap. split.
  - intros (f & -> & Hin). by exists f.
  - intros (f & Hin & <-). by exists f.
Qed.

Section with_maps.
Variables (ordLocal ordRemote : MapRange flagset.Flag) (localFlags remoteFlags : list flagset.Flag).
Let lm := buildMap localFlags.
Let rm := buildMap remoteFlags.

Lemma elem_of_added k :
  k ∈ keysOf (addedOf rm (visit ordLocal lm)) ↔ is_Some (lm !! k) ∧ rm !! k = None.
Proof.
  rewrite elem_of_keysOf. unfold addedOf. split.
  - intros (f & ((k' & l) & Hin & Hf)%list_elem_of_omap & <-).
    apply elem_of_visit in Hin. cbn in Hf. destruct (rm !! k') eqn:Hr; [done|].
    injection Hf as <-. apply buildMap_lookup in Hin as Hk. destruct Hk as [-> _]. eauto.
  - intros [[l Hl] Hr]. exists l. split; [|by apply buildMap_lookup in Hl as []].
    apply list_elem_of_omap. exists (k, l). split; [by apply elem_of_visit|]. cbn.
    fold rm. by rewrite Hr.
Qed.

Lemma elem_of_modified k :
  k ∈ (list_to_set (plugin.Key <$> modifiedOf flagsEqual rm (visit ordLocal lm)) : gset string) ↔
  ∃ l r, lm !! k = Some l ∧ rm !! k = Some r ∧ flagsEqual l r = false.
Proof.
  rewrite elem_of_list_to_set, list_elem_of_fmap. unfold modifiedOf. split.
  - intros (d & -> & ((k' & l) & Hin & Hd)%list_elem_of_omap).
    apply elem_of_visit in Hin. cbn in Hd. destruct (rm !! k') as [r|] eqn:Hr; [|done].
    destruct (flagsEqual l r) eqn:He; [done|]. injection Hd as <-. cbn. eauto.
  - intros (l & r & Hl & Hr & He).
    exists {| plugin.Key := k; plugin.Local := l; plugin.Remote := r |}. split; [done|].
    apply list_elem_of_omap. exists (k, l). split; [by apply elem_of_visit|]. cbn.
    fold rm. by rewrite Hr, He.
Qed.

Lemma elem_of_unchanged k :
  k ∈ keysOf (unchangedOf flagsEqual rm (visit ordLocal lm)) ↔
  ∃ l r, lm !! k = Some l ∧ rm !! k = Some r ∧ flagsEqual l r = true.
Proof.
  rewrite elem_of_keysOf. unfold unchangedOf. split.
  - intros (f & ((k' & l) & Hin & Hf)%list_elem_of_omap & <-).
    apply elem_of_visit in Hin. cbn in Hf. destruct (rm !! k') as [r|] eqn:Hr; [|done].
    destruct (flagsEqual l r) eqn:He; [|done]. injection Hf as <-.
    apply buildMap_lookup in Hin as Hk. destruct Hk as [-> _]. eauto.
  - intros (l & r & Hl & Hr & He). exists l. split; [|by apply buildMap_lookup in Hl as []].
    apply list_elem_of_omap. exists (k, l). split; [by apply elem_of_visit|]. cbn.
    fold rm. by rewrite Hr, He.
Qed.

Lemma elem_of_removed k :
  k ∈ keysOf (removedOf lm (visit ordRemote rm)) ↔ is_Some (rm !! k) ∧ lm !! k = None.
Proof.
  rewrite elem_of_keysOf. unfold removedOf. split.
  - intros (f & ((k' & r) & Hin & Hf)%list_elem_of_omap & <-).
    apply elem_of_visit in Hin. cbn in Hf. destruct (lm !! k') eqn:Hl; [done|].
    injection Hf as <-. apply buildMap_lookup in Hin as Hk. destruct Hk as [-> _]. eauto.
  - intros [[r Hr] Hl]. exists r. split; [|by apply buildMap_lookup in Hr as []].
    apply list_elem_of_omap. exists (k, r). split; [by apply elem_of_visit|]. cbn.
    fold lm. by rewrite Hl.
Qed.

Lemma compareFlags_diffComplete :
  diffComplete (compareFlags flagsEqual ordLocal ordRemote localFlags remoteFlags)
    localFlags remoteFlags.
Proof.
  rewrite compareFlags_eq. unfold diffComplete. cbn. fold lm rm.
  rewrite <- !dom_buildMap. fold lm rm.
  split_and!.
  - intros k Ha Hm. apply elem_of_added in Ha as [_ Hr].
    apply elem_of_modified in Hm as (? & ? & _ & ? & _). congruence.
  - intros k Ha Hu. apply elem_of_added in Ha as [_ Hr].
    apply elem_of_unchanged in Hu as (? & ? & _ & ? & _). congruence.
  - intros k Hm Hu. apply elem_of_modified in Hm as (l & r & Hl & Hr & He).
    apply elem_of_unchanged in Hu as (l' & r' & Hl' & Hr' & He'). congruence.
  - apply set_eq. intros k. rewrite !elem_of_union, elem_of_added, elem_of_modified,
      elem_of_unchanged, elem_of_dom. split.
    + intros [[[? _]|(l & _ & ? & _)]|(l & _ & ? & _)]; eauto.
    + intros [l Hl]. destruct (rm !! k) as [r|] eqn:Hr; [|by left; left; eauto].
      destruct (flagsEqual l r) eqn:He; [right|left; right]; eauto.
  - apply set_eq. intros k.
    rewrite elem_of_removed, elem_of_difference, !elem_of_dom, eq_None_not_Some. done.
Qed.
End with_maps.
End compare_facts.

Lemma NoDup_keys_unique (flags : list flagset.Flag) f g :
  NoDup (flagset.Key <$> flags) → f ∈ flags → g ∈ flags →
  flagset.Key f = flagset.Key g → f = g.
Proof.
  intros Hnd Hf Hg Hk. apply (buildMap_lookup_NoDup _ _ Hnd) in Hf, Hg.
  rewrite Hk in Hf. congruence.
Qed.

Lemma variablesToFlags_filter (variables : list devcycle.Variable_) :
  Forall2 (λ v flag, devcycle.variableToFlag v = inr flag)
    (filter (λ v, devcycle.Type_ v ∈ ["Boolean"; "String"; "Number"; "JSON"]) variables)
    (devcycle.variablesToFlags variables).
Proof.
  induction variables as [|v variables IH]; [constructor|].
  unfold devcycle.variablesToFlags. cbn [omap list_omap].
  destruct (devcycle.variableToFlag v) as [err|flag] eqn:Hv.
  - rewrite filter_cons_False; [done|]. intros Htype.
    assert (∃ flag, devcycle.variableToFlag v = inr flag) as [flag Hflag]; [|congruence].
    revert Htype. unfold devcycle.variableToFlag, devcycle.devCycleTypeToFlagType.
    rewrite !elem_of_cons, elem_of_nil. intros Htype.
    repeat case_bool_decide; try by eexists. tauto.
  - rewrite filter_cons_True; [by constructor|].
    revert Hv. unfold devcycle.variableToFlag, devcycle.devCycleTypeToFlagType.
    rewrite !elem_of_cons, elem_of_nil. repeat case_bool_decide; try done; tauto.
Qed.

Lemma variableToFlag_fields (v : devcycle.Variable_) (flag : flagset.Flag) :
  devcycle.variableToFlag v = inr flag →
  flagset.Key flag = devcycle.Key v ∧
  flagset.Description flag = devcycle.Description v ∧
  flagset.DefaultValue flag = devcycle.DefaultValue v.
Proof.
  unfold devcycle.variableToFlag. destruct (devcycle.devCycleTypeToFlagType _); [done|].
  by intros [= <-].
Qed.

Lemma keys_of_converted (variables : list devcycle.Variable_) (flags : list flagset.Flag) :
  Forall2 (λ v flag,
             flagset.Key flag = devcycle.Key v ∧
             flagset.Description flag = devcycle.Description v ∧
             flagset.DefaultValue flag = devcycle.DefaultValue v) variables flags →
  flagset.Key <$> flags = devcycle.Key <$> variables.
Proof. induction 1 as [|v f vs fs (Hk & _) _ IH]; [done|]. cbn. by rewrite Hk, IH. Qed.

(** C1.  Once the remote flags are fetched, [Compare] of either plugin
    returns a result whose Added, Modified and Unchanged key sets are
    pairwise disjoint, cover exactly the local keys, and whose Removed key set
    is the remote keys that are not local keys.  For the default plugin the
    remote flagset is what the fetch returned.  For DevCycle it is read off
    the fetched variables: one remote flag, with the key, description and
    default value, for each variable of the response whose type is Boolean,
    String, Number or JSON, so that Removed has exactly the keys of those
    variables that are not local keys.  It holds for every order in which the
    two maps are ranged over. *)
Theorem Compare_diff_complete :
  (∀ (F : Fmt) (World : Type) (S : SyncAPI World) (ordLocal ordRemote : MapRange flagset.Flag)
     (p : builtin.DefaultPlugin) (local remote : flagset.Flagset) (c : SyncClient)
     (w w' : World),
     builtin.client p = Some c →
     sync_PullFlags c w = (inr remote, w') →
     ∃ r, builtin.Compare ordLocal ordRemote p local w = (inr r, w') ∧
          diffComplete r (flagset.Flags local) (flagset.Flags remote)) ∧
  (∀ (F : Fmt) (R : devcycle.Runtime) (ordLocal ordRemote : MapRange flagset.Flag)
     (p : devcycle.Plugin) (local : flagset.Flagset) (c c' : devcycle.Client)
     (n n' : devcycle.Net) (variables : list devcycle.Variable_),
     devcycle.ValidateConfig p = None →
     devcycle.client p = Some c →
     devcycle.GetVariables (devcycle.project p) (c, n) = (inr variables, (c', n')) →
     ∃ r p' remote,
       devcycle.Compare ordLocal ordRemote local (p, n) = (inr r, (p', n')) ∧
       devcycle.client p' = Some c' ∧
       Forall2 (λ v flag,
                  flagset.Key flag = devcycle.Key v ∧
                  flagset.Description flag = devcycle.Description v ∧
                  flagset.DefaultValue flag = devcycle.DefaultValue v)
         (filter (λ v, devcycle.Type_ v ∈ ["Boolean"; "String"; "Number"; "JSON"]) variables)
         remote ∧
       diffComplete r (flagset.Flags local) remote ∧
       keysOf (plugin.Removed r) =
         list_to_set
           (devcycle.Key <$>
            filter (λ v, devcycle.Type_ v ∈ ["Boolean"; "String"; "Number"; "JSON"])
              variables) ∖ keysOf (flagset.Flags local)).
Proof.
  split.
  - intros F World S ordLocal ordRemote p local remote c w w' Hc Hpull.
    eexists. unfold builtin.Compare, bind, ret. rewrite Hc, Hpull.
    split; [done|]. apply compareFlags_diffComplete.
  - intros F R ordLocal ordRemote p local c c' n n' variables Hv Hc Hget.
    unfold devcycle.Compare, devcycle.validated, bind, ret. rewrite Hv, Hc, Hget.
    assert (Forall2 (λ v flag,
                       flagset.Key flag = devcycle.Key v ∧
                       flagset.Description flag = devcycle.Description v ∧
                       flagset.DefaultValue flag = devcycle.DefaultValue v)
              (filter (λ v, devcycle.Type_ v ∈ ["Boolean"; "String"; "Number"; "JSON"])
                 variables)
              (devcycle.variablesToFlags variables)) as Hremote.
    { eapply Forall2_impl; [apply variablesToFlags_filter|].
      intros v flag. apply variableToFlag_fields. }
    pose proof (compareFlags_diffComplete devcycle.flagsEqual ordLocal ordRemote
                  (flagset.Flags local) (devcycle.variablesToFlags variables)) as Hdiff.
    exists (compareFlags devcycle.flagsEqual ordLocal ordRemote (flagset.Flags local)
              (devcycle.variablesToFlags variables)).
    eexists. exists (devcycle.variablesToFlags variables).
    split_and!; [done|done|exact Hremote|exact Hdiff|].
    destruct Hdiff as (_ & _ & _ & _ & ->). unfold keysOf at 1.
    by rewrite (keys_of_converted _ _ Hremote).
Qed.

(** The in-memory manifest holds "a" and the local flags are "a" and "b".
    The in-memory DevCycle holds the variable "a" and the only local flag is
    "b": the key "a" is removed. *)
Lemma Compare_diff_complete_witness :
  let local := {| flagset.Flags := [sim.localA; sim.localB] |} in
  let fetched := devcycle.GetVariables "proj" (sim.freshClient, sim.net sim.world0) in
  (∃ r, builtin.Compare (H := scalarFmt) (canonicalRange _) (canonicalRange _)
          memoryPlugin local [sim.localA] = (inr r, [sim.localA]) ∧
        diffComplete r [sim.localA; sim.localB] [sim.localA]) ∧
  fetched.1 = inr [sim.remoteA] ∧
  (∃ r p',
      devcycle.Compare (H := scalarFmt) (canonicalRange _) (canonicalRange _)
        {| flagset.Flags := [sim.localB] |}
        (sim.configured, sim.net sim.world0) = (inr r, (p', fetched.2.2)) ∧
      devcycle.client p' = Some fetched.2.1 ∧
      keysOf (plugin.Removed r) = {["a"]} ∧
      keysOf (plugin.Added r) ∪ list_to_set (plugin.Key <$> plugin.Modified r) ∪
        keysOf (plugin.CmpUnchanged r) = {["b"]}).
Proof.
  intros local fetched.
  destruct Compare_diff_complete as [Hdefault Hdevcycle].
  assert (fetched.1 = inr [sim.remoteA]) as Hfetched by (vm_compute; reflexivity).
  assert (fetched = (inr [sim.remoteA], (fetched.2.1, fetched.2.2))) as Hget.
  { rewrite <- Hfetched. clear Hfetched. clearbody fetched. by destruct fetched as [? [? ?]]. }
  split_and!.
  - apply (Hdefault scalarFmt _ memorySyncAPI (canonicalRange _) (canonicalRange _)
             memoryPlugin local {| flagset.Flags := [sim.localA] |}
             "https://flags.example.com"%string); reflexivity.
  - exact Hfetched.
  - destruct (Hdevcycle scalarFmt sim.runtime (canonicalRange _) (canonicalRange _)
                sim.configured {| flagset.Flags := [sim.localB] |} sim.freshClient
                fetched.2.1 (sim.net sim.world0) fetched.2.2 [sim.remoteA]
                eq_refl eq_refl Hget)
      as (r & p' & remote & Hcompare & Hclient & _ & (_ & _ & _ & Hcover & _) & Hremoved).
    exists r, p'. split_and!; [exact Hcompare|exact Hclient| |].
    + rewrite Hremoved. by vm_compute.
    + rewrite Hcover. by vm_compute.
Defined.

(** ** Reconciliation: the equality rule *)

Lemma devCycleType_roundtrip `{Fmt} (t : string) (ft : flagset.FlagType) :
  devcycle.devCycleTypeToFlagType t = inr ft → devcycle.flagTypeToDevCycleType ft = t.
Proof.
  unfold devcycle.devCycleTypeToFlagType.
  repeat case_bool_decide; intros [= <-]; by subst.
Qed.

(** C4.  Two flags that agree on key, type and description and whose default
    values render to the same string are equal for [flagsEqual] of both
    plugins, whatever the values themselves are.  With unique keys on both
    sides, [Compare] lists the local flag as Unchanged and its key neither as
    Modified nor as Added; and when the remote variable converts to the
    remote flag, the push loop appends the local flag to Unchanged without
    touching the client or the net (it is never Updated). *)
Theorem rendered_equal_is_unchanged (F : Fmt) (a b : flagset.Flag) :
  flagset.Key a = flagset.Key b →
  flagset.Type_ a = flagset.Type_ b →
  flagset.Description a = flagset.Description b →
  Sprintf_v (flagset.DefaultValue a) = Sprintf_v (flagset.DefaultValue b) →
  builtin.flagsEqual a b = true ∧
  devcycle.flagsEqual a b = true ∧
  (∀ flagsEqual ordLocal ordRemote localFlags remoteFlags,
     flagsEqual = builtin.flagsEqual ∨ flagsEqual = devcycle.flagsEqual →
     NoDup (flagset.Key <$> localFlags) → NoDup (flagset.Key <$> remoteFlags) →
     a ∈ localFlags → b ∈ remoteFlags →
     let r := compareFlags flagsEqual ordLocal ordRemote localFlags remoteFlags in
     a ∈ plugin.CmpUnchanged r ∧
     (flagset.Key a ∉ (plugin.Key <$> plugin.Modified r)) ∧
     flagset.Key a ∉ keysOf (plugin.Added r)) ∧
  (∀ (R : devcycle.Runtime) p opts remoteMap existing result s,
     remoteMap !! flagset.Key a = Some existing →
     devcycle.variableToFlag existing = inr b →
     devcycle.pushFlag p opts remoteMap result a s = (devcycle.appendUnchanged a result, s)).
Proof.
  intros Hk Ht Hd Hv.
  assert (builtin.flagsEqual a b = true) as He.
  { unfold builtin.flagsEqual.
    rewrite !bool_decide_eq_false_2 by (intros Hne; by apply Hne). cbn.
    by apply bool_decide_eq_true_2. }
  assert (devcycle.flagsEqual a b = true) as He' by exact He.
  split_and!; [done..| |].
  - intros flagsEqual ordLocal ordRemote localFlags remoteFlags Heq Hndl Hndr Hal Hbr r.
    assert (flagsEqual a b = true) as Hab by (by destruct Heq as [-> | ->]).
    pose proof (buildMap_lookup_NoDup _ _ Hndl Hal) as Hl.
    pose proof (buildMap_lookup_NoDup _ _ Hndr Hbr) as Hr. rewrite <- Hk in Hr.
    subst r. rewrite compareFlags_eq. cbn. split_and!.
    + unfold unchangedOf. apply list_elem_of_omap. exists (flagset.Key a, a).
      split; [by apply elem_of_visit|]. cbn. by rewrite Hr, Hab.
    + intros Hm. apply (elem_of_list_to_set (C := gset string)) in Hm.
      apply elem_of_modified in Hm as (l & r & Hl' & Hr' & Hne). congruence.
    + intros Ha. apply elem_of_added in Ha as [_ Hnone]. congruence.
  - intros R p opts remoteMap existing result s Hex Hconv.
    unfold devcycle.pushFlag. rewrite Hex.
    assert (devcycle.variableNeedsUpdate existing (devcycle.flagToVariable a (devcycle.project p))
            = false) as ->; [|done].
    unfold devcycle.variableToFlag in Hconv.
    destruct (devcycle.devCycleTypeToFlagType (devcycle.Type_ existing)) as [|ft] eqn:Hft;
      [done|].
    apply devCycleType_roundtrip in Hft. injection Hconv as <-.
    cbn in Ht, Hd, Hv. unfold devcycle.variableNeedsUpdate, devcycle.flagToVariable. cbn.
    rewrite Ht, Hft, Hd, Hv.
    rewrite !bool_decide_eq_false_2 by (intros Hne; by apply Hne). done.
Qed.

(** The flag "limit" holds the string "1" locally and the int 1 remotely:
    two representations, one rendering. *)
Lemma rendered_equal_is_unchanged_witness :
  let a := {| flagset.Key := "limit"; flagset.Type_ := flagset.StringType;
              flagset.Description := "d"; flagset.DefaultValue := AnyString "1";
              flagset.Expiry := "2030-01-01" |} in
  let b := {| flagset.Key := "limit"; flagset.Type_ := flagset.StringType;
              flagset.Description := "d"; flagset.DefaultValue := AnyInt 1;
              flagset.Expiry := "" |} in
  builtin.flagsEqual (H := scalarFmt) a b = true ∧
  a ∈ plugin.CmpUnchanged
        (compareFlags (builtin.flagsEqual (H := scalarFmt))
           (canonicalRange _) (canonicalRange _) [sim.localA; a] [b]).
Proof.
  intros a b.
  destruct (rendered_equal_is_unchanged scalarFmt a b) as (H1 & _ & H3 & _);
    [reflexivity..|].
  split; [exact H1|].
  apply (H3 builtin.flagsEqual (canonicalRange _) (canonicalRange _) [sim.localA; a] [b]).
  - by left.
  - apply (bool_decide_unpack _). vm_compute. exact I.
  - apply (bool_decide_unpack _). vm_compute. exact I.
  - apply list_elem_of_In. right. by left.
  - apply list_elem_of_In. by left.
Defined.

(** ** The default plugin before [Configure] *)

(** C10.  On a default plugin whose client is nil, as [NewDefaultPlugin]
    leaves it, [Pull], [Push] and [Compare] return the error "plugin not
    configured: call Configure() first" for every argument, and hand back the
    world untouched: no entry point of the sync client is called. *)
Theorem default_plugin_not_configured (F : Fmt) (World : Type) (S : SyncAPI World)
    (ordLocal ordRemote : MapRange flagset.Flag)
    (p : builtin.DefaultPlugin) (local : flagset.Flagset) (opts : plugin.PushOptions)
    (w : World) :
  builtin.client p = None →
  builtin.Pull p w = (inl builtin.notConfigured, w) ∧
  builtin.Push p local opts w = (inl builtin.notConfigured, w) ∧
  builtin.Compare ordLocal ordRemote p local w = (inl builtin.notConfigured, w).
Proof.
  intros Hnil. unfold builtin.Pull, builtin.Push, builtin.Compare. by rewrite Hnil.
Qed.

Lemma default_plugin_not_configured_witness :
  let p := builtin.NewDefaultPlugin () in
  let local := {| flagset.Flags := [sim.localA] |} in
  builtin.Pull p [sim.localB] = (inl builtin.notConfigured, [sim.localB]) ∧
  builtin.Push p local realRun [sim.localB] = (inl builtin.notConfigured, [sim.localB]) ∧
  builtin.Compare (H := scalarFmt) (canonicalRange _) (canonicalRange _) p local [sim.localB]
    = (inl builtin.notConfigured, [sim.localB]).
Proof.
  intros p local.
  apply (default_plugin_not_configured scalarFmt _ memorySyncAPI). reflexivity.
Defined.

(** ** The DevCycle client *)
Section client_facts.
Context `{R : devcycle.Runtime}.
Implicit Types (c : devcycle.Client) (n : devcycle.Net).

Lemma apiURL_not_authURL path : devcycle.apiURL +:+ path ≠ devcycle.authURL.
Proof. unfold devcycle.apiURL, devcycle.authURL. cbn. intros [=]. Qed.

Lemma wrap64_le z : - 2 ^ 63 ≤ z → devcycle.wrap64 z ≤ z.
Proof.
  intros Hz. unfold devcycle.wrap64.
  pose proof (Z.mod_le (z + 2 ^ 63) (2 ^ 64)). lia.
Qed.

Lemma wrap64_id z : - 2 ^ 63 ≤ z < 2 ^ 63 → devcycle.wrap64 z = z.
Proof. intros Hz. unfold devcycle.wrap64. rewrite Z.mod_small; lia. Qed.

Lemma expiryOf_shortened now expiresIn :
  0 ≤ expiresIn < 2 ^ 63 →
  devcycle.expiryOf now expiresIn < now + expiresIn * devcycle.Second.
Proof.
  intros Hr. unfold devcycle.expiryOf. rewrite (wrap64_id (expiresIn - 60)) by lia.
  pose proof (wrap64_le ((expiresIn - 60) * devcycle.Second)) as Hle.
  unfold devcycle.Second in *. lia.
Qed.

Lemma tokenValid_eq c n :
  devcycle.tokenValid (c, n) =
    if bool_decide (devcycle.accessToken c ≠ "") then
      (bool_decide ((devcycle.time_Now (devcycle.world n)).1 < devcycle.tokenExpiry c),
       (c, {| devcycle.world := (devcycle.time_Now (devcycle.world n)).2;
              devcycle.sent := devcycle.sent n |}))
    else (false, (c, n)).
Proof.
  unfold devcycle.tokenValid, bind, devcycle.this, gets, devcycle.on_net,
    devcycle.lift_world, ret. cbn.
  case_bool_decide; [|done]. by destruct (devcycle.time_Now (devcycle.world n)).
Qed.

(** The test of the token leaves the client and the requests sent as they
    are, and moves the world to where an exchange would run. *)
Lemma tokenValid_false c n :
  devcycle.accessToken c = "" ∨
  devcycle.tokenExpiry c ≤ (devcycle.time_Now (devcycle.world n)).1 →
  devcycle.tokenValid (c, n) =
    (false, (c, {| devcycle.world := exchangeWorld c n; devcycle.sent := devcycle.sent n |})).
Proof.
  intros Hstale. rewrite tokenValid_eq. unfold exchangeWorld.
  case_bool_decide as Htok.
  - destruct Hstale as [?|Hexp]; [done|]. by rewrite bool_decide_eq_false_2 by lia.
  - by destruct n.
Qed.

Lemma authenticate_valid c n now w1 :
  devcycle.time_Now (devcycle.world n) = (now, w1) →
  devcycle.accessToken c ≠ "" → now < devcycle.tokenExpiry c →
  devcycle.authenticate (c, n) =
    (None, (c, {| devcycle.world := w1; devcycle.sent := devcycle.sent n |})).
Proof.
  intros Hnow Htok Hexp.
  unfold devcycle.authenticate, bind, devcycle.this, gets, ret.
  cbn -[devcycle.tokenValid].
  rewrite tokenValid_eq, Hnow. cbn. by rewrite !bool_decide_eq_true_2.
Qed.

Lemma authenticate_success c n resp w2 tok now' w3 :
  devcycle.accessToken c = "" ∨
  devcycle.tokenExpiry c ≤ (devcycle.time_Now (devcycle.world n)).1 →
  devcycle.http_Do (authRequest c) (exchangeWorld c n) = (inr resp, w2) →
  devcycle.StatusCode resp = 200 →
  devcycle.json_Decode_token (devcycle.RespBody resp) = inr tok →
  devcycle.time_Now w2 = (now', w3) →
  devcycle.authenticate (c, n) =
    (None, (withToken c tok now',
            {| devcycle.world := w3; devcycle.sent := devcycle.sent n ++ [authRequest c] |})).
Proof.
  intros Hstale Hdo Hstatus Hdecode Hnow'.
  unfold devcycle.authenticate, bind, devcycle.this, gets, devcycle.on_net,
    devcycle.lift_world, ret, modify. cbn -[devcycle.tokenValid].
  rewrite (tokenValid_false _ _ Hstale).
  unfold devcycle.NewRequestWithContext. rewrite devcycle.NewRequest_ok_authURL.
  unfold devcycle.Header_Set, devcycle.Do. cbn. fold (authRequest c).
  rewrite Hdo. cbn. rewrite bool_decide_eq_false_2 by (intros Hne; by apply Hne).
  rewrite Hdecode. cbn. by rewrite Hnow'.
Qed.

Lemma authenticate_stale c n :
  devcycle.accessToken c = "" ∨
  devcycle.tokenExpiry c ≤ (devcycle.time_Now (devcycle.world n)).1 →
  ∃ e c1 n1,
    devcycle.authenticate (c, n) = (e, (c1, n1)) ∧
    devcycle.sent n1 = devcycle.sent n ++ [authRequest c] ∧
    (e ≠ None → c1 = c).
Proof.
  intros Hstale.
  unfold devcycle.authenticate, bind, devcycle.this, gets, devcycle.on_net,
    devcycle.lift_world, ret, modify. cbn -[devcycle.tokenValid].
  rewrite (tokenValid_false _ _ Hstale).
  unfold devcycle.NewRequestWithContext. rewrite devcycle.NewRequest_ok_authURL.
  unfold devcycle.Header_Set, devcycle.Do. cbn. fold (authRequest c).
  destruct (devcycle.http_Do (authRequest c) (exchangeWorld c n)) as [[err|resp] w2]; cbn;
    [by eauto 10|].
  case_bool_decide; [by eauto 10|].
  destruct (devcycle.json_Decode_token _) as [err|tok]; cbn; [by eauto 10|].
  destruct (devcycle.time_Now w2) as [now' w3].
  do 3 eexists. split_and!; [reflexivity..|]. by intros [].
Qed.

Lemma authenticate_failure_kind c n :
  devcycle.accessToken c = "" ∨
  devcycle.tokenExpiry c ≤ (devcycle.time_Now (devcycle.world n)).1 →
  ∃ e c1 n1,
    devcycle.authenticate (c, n) = (e, (c1, n1)) ∧
    devcycle.sent n1 = devcycle.sent n ++ [authRequest c] ∧
    (∀ err, e = Some err →
       c1 = c ∧
       ((∃ cause, err = Errorf_w "failed to authenticate" cause) ∨
        (∃ status body,
           err = Errorf_status "authentication failed" status body ∧ status ≠ 200) ∨
        (∃ cause, err = Errorf_w "failed to parse auth response" cause))).
Proof.
  intros Hstale.
  unfold devcycle.authenticate, bind, devcycle.this, gets, devcycle.on_net,
    devcycle.lift_world, ret, modify. cbn -[devcycle.tokenValid].
  rewrite (tokenValid_false _ _ Hstale).
  unfold devcycle.NewRequestWithContext. rewrite devcycle.NewRequest_ok_authURL.
  unfold devcycle.Header_Set, devcycle.Do. cbn. fold (authRequest c).
  destruct (devcycle.http_Do (authRequest c) (exchangeWorld c n)) as [[cause|resp] w2]; cbn.
  { do 3 eexists. split_and!; [reflexivity..|]. intros err [= <-]. by eauto 10. }
  case_bool_decide as Hstatus.
  { do 3 eexists. split_and!; [reflexivity..|]. intros err [= <-].
    split; [done|]. right. left. by eauto. }
  destruct (devcycle.json_Decode_token _) as [cause|tok]; cbn.
  { do 3 eexists. split_and!; [reflexivity..|]. intros err [= <-]. by eauto 10. }
  destruct (devcycle.time_Now w2) as [now' w3].
  do 3 eexists. split_and!; [reflexivity..|]. by intros err [=].
Qed.

Lemma authenticate_refresh c n now w1 :
  devcycle.time_Now (devcycle.world n) = (now, w1) →
  ¬ (devcycle.accessToken c ≠ "" ∧ now < devcycle.tokenExpiry c) →
  ∃ e c1 n1,
    devcycle.authenticate (c, n) = (e, (c1, n1)) ∧
    devcycle.sent n1 = devcycle.sent n ++ [authRequest c] ∧
    (e ≠ None → c1 = c).
Proof.
  intros Hnow Hinvalid. apply authenticate_stale. rewrite Hnow. cbn.
  destruct (decide (devcycle.accessToken c = "")) as [?|Htok]; [by left|].
  right. destruct (decide (now < devcycle.tokenExpiry c)); [|lia].
  by destruct Hinvalid.
Qed.

(** After [authenticate], [doRequest] either stops without a request, or
    hands one request to the transport: the one for its arguments, with the
    token the client holds then. *)
Lemma doRequest_shape method path body c n e c1 n1 :
  devcycle.authenticate (c, n) = (e, (c1, n1)) →
  ∃ r n2,
    devcycle.doRequest method path body (c, n) = (r, (c1, n2)) ∧
    ((∃ err, r = inl err) ∧ n2 = n1 ∨
     e = None ∧
     ∃ reqBody, marshalled body reqBody ∧
       (r, n2) = devcycle.Do (apiRequest method path reqBody (devcycle.accessToken c1)) n1).
Proof.
  intros Hauth. unfold devcycle.doRequest, bind, ret. rewrite Hauth.
  destruct e as [err|]; [by eauto 10|].
  assert (∀ reqBody, marshalled body reqBody →
    ∃ r n2,
      match devcycle.NewRequestWithContext method (devcycle.apiURL +:+ path) reqBody with
      | inl err => λ s, (inl (Errorf_w "failed to create request" err), s)
      | inr req =>
          λ s, let '(a, s') := devcycle.this s in
               devcycle.on_net
                 (devcycle.Do
                    (devcycle.Header_Set "Accept" "application/json"
                       (devcycle.Header_Set "Content-Type" "application/json"
                          (devcycle.Header_Set "Authorization"
                             ("Bearer " +:+ devcycle.accessToken a) req)))) s'
      end (c1, n1) = (r, (c1, n2)) ∧
      ((∃ err, r = inl err) ∧ n2 = n1 ∨
       None = None (A := error) ∧
       ∃ reqBody, marshalled body reqBody ∧
         (r, n2) = devcycle.Do (apiRequest method path reqBody (devcycle.accessToken c1)) n1))
    as Hsend.
  { intros reqBody Hm. unfold devcycle.NewRequestWithContext.
    destruct (devcycle.NewRequest_ok method _); [|by eauto 10].
    unfold devcycle.this, gets, devcycle.on_net, devcycle.Header_Set. cbn.
    fold (apiRequest method path reqBody (devcycle.accessToken c1)).
    destruct (devcycle.Do _ n1) as [r n2] eqn:Hdo. exists r, n2. split; [done|].
    right. split; [done|]. by exists reqBody. }
  destruct body as [b|]; [|by apply Hsend].
  destruct (devcycle.json_Marshal b) as [err|w] eqn:Hw; [by eauto 10|].
  apply Hsend. by exists w.
Qed.

Lemma Do_sent (req : devcycle.Request devcycle.Wire) n r n' :
  devcycle.Do req n = (r, n') → devcycle.sent n' = devcycle.sent n ++ [req].
Proof.
  unfold devcycle.Do. destruct (devcycle.http_Do req _). by intros [= _ <-].
Qed.

Lemma authenticate_sent c n e c1 n1 :
  devcycle.authenticate (c, n) = (e, (c1, n1)) →
  devcycle.sent n1 = devcycle.sent n ∨ devcycle.sent n1 = devcycle.sent n ++ [authRequest c].
Proof.
  intros Hauth. destruct (devcycle.time_Now (devcycle.world n)) as [now w1] eqn:Hnow.
  destruct (decide (devcycle.accessToken c ≠ "" ∧ now < devcycle.tokenExpiry c))
    as [[Htok Hexp]|Hinvalid].
  - rewrite (authenticate_valid _ _ _ _ Hnow Htok Hexp) in Hauth.
    injection Hauth as _ _ <-. by left.
  - destruct (authenticate_refresh _ _ _ _ Hnow Hinvalid) as (e' & c1' & n1' & Heq & Hs & _).
    rewrite Heq in Hauth. injection Hauth as _ _ <-. by right.
Qed.

(** The requests of one [doRequest]: at most the exchange, then at most the
    request itself. *)
Lemma doRequest_sent method path body c n r c1 n2 :
  devcycle.doRequest method path body (c, n) = (r, (c1, n2)) →
  ∃ extra,
    devcycle.sent n2 = devcycle.sent n ++ extra ∧
    Forall (λ req, req = authRequest c ∨
                   ∃ reqBody, marshalled body reqBody ∧
                     req = apiRequest method path reqBody (devcycle.accessToken c1)) extra.
Proof.
  intros Hdo. destruct (devcycle.authenticate (c, n)) as [e [c1' n1]] eqn:Hauth.
  destruct (doRequest_shape method path body _ _ _ _ _ Hauth) as (r' & n2' & Heq & Hcases).
  rewrite Heq in Hdo. injection Hdo as <- <- <-.
  apply authenticate_sent in Hauth.
  assert (∃ pre, devcycle.sent n1 = devcycle.sent n ++ pre ∧
                 Forall (λ req, req = authRequest c ∨
                   ∃ reqBody, marshalled body reqBody ∧
                     req = apiRequest method path reqBody (devcycle.accessToken c1')) pre)
    as (pre & Hpre & Hall).
  { destruct Hauth as [-> | ->].
    - exists []. by rewrite app_nil_r.
    - exists [authRequest c]. split; [done|]. apply Forall_singleton. by left. }
  destruct Hcases as [[_ ->]|(_ & reqBody & Hm & Hdo)]; [by eauto|].
  symmetry in Hdo. apply Do_sent in Hdo. rewrite Hdo, Hpre, <- app_assoc.
  eexists. split; [done|]. apply Forall_app. split; [done|].
  apply Forall_singleton. right. by exists reqBody.
Qed.
End client_facts.

Section client_claims.
Context `{R : devcycle.Runtime}.
Implicit Types (c : devcycle.Client) (n : devcycle.Net).

Lemma newRequests_app n n' extra :
  devcycle.sent n' = devcycle.sent n ++ extra → newRequests n n' = extra.
Proof. intros Hs. unfold newRequests. rewrite Hs. apply drop_app_length. Qed.

Lemma exchangeWorld_cached c n :
  devcycle.accessToken c ≠ "" →
  exchangeWorld c n = (devcycle.time_Now (devcycle.world n)).2.
Proof. intros Htok. unfold exchangeWorld. by rewrite bool_decide_eq_true_2. Qed.

Lemma exchangeWorld_empty c n :
  devcycle.accessToken c = "" → exchangeWorld c n = devcycle.world n.
Proof.
  intros Htok. unfold exchangeWorld.
  by rewrite bool_decide_eq_false_2 by (intros Hne; by apply Hne).
Qed.

(** What a client whose token does not pass the test does, whichever way the
    test failed. *)
Lemma refresh_requests c n (method path : string) (body : option devcycle.Payload) :
  devcycle.accessToken c = "" ∨
  devcycle.tokenExpiry c ≤ (devcycle.time_Now (devcycle.world n)).1 →
  ∃ e c1 n1 r n2,
    devcycle.authenticate (c, n) = (e, (c1, n1)) ∧
    newRequests n n1 = [authRequest c] ∧
    devcycle.doRequest method path body (c, n) = (r, (c1, n2)) ∧
    (newRequests n n2 = [authRequest c] ∨
     e = None ∧
     ∃ reqBody, marshalled body reqBody ∧
       newRequests n n2 =
         [authRequest c; apiRequest method path reqBody (devcycle.accessToken c1)]).
Proof.
  intros Hstale.
  destruct (authenticate_stale _ _ Hstale) as (e & c1 & n1 & Hauth & Hs & _).
  destruct (doRequest_shape method path body _ _ _ _ _ Hauth) as (r & n2 & Heq & Hcases).
  exists e, c1, n1, r, n2. split_and!; [done|by apply newRequests_app|done|].
  destruct Hcases as [[_ ->]|(He & reqBody & Hm & Hdo)].
  - left. by apply newRequests_app.
  - right. split; [done|]. exists reqBody. split; [done|]. apply newRequests_app.
    symmetry in Hdo. apply Do_sent in Hdo. by rewrite Hdo, Hs, <- app_assoc.
Qed.


End client_claims.


Section update_claims.
Context `{R : devcycle.Runtime}.
Implicit Types (c : devcycle.Client) (n : devcycle.Net).

(** C9.  Every request [UpdateVariable] hands to the transport is the token
    exchange or a PATCH of the variable whose body is the JSON encoding of the
    one-entry map [{"description": variable.Description}]; the call is the
    same for any two variables with the same description, whatever their type
    and default value.  So in a real push, two local flags with the same key
    and description that both need an update leave the client and the net in
    the same state: the type and the default value never reach the remote. *)
Theorem UpdateVariable_sends_only_description c n (project variableKey : string)
    (variable : devcycle.Variable_) :
  (∀ r c1 n1,
     devcycle.UpdateVariable project variableKey variable (c, n) = (r, (c1, n1)) →
     Forall (λ req,
               req = authRequest c ∨
               ∃ w, devcycle.json_Marshal
                      (devcycle.BodyMap
                         [("description", AnyString (devcycle.Description variable))])
                    = inr w ∧
                    req = apiRequest "PATCH"
                            ("/v1/projects/" +:+ project +:+ "/variables/" +:+ variableKey)
                            (Some w) (devcycle.accessToken c1))
            (newRequests n n1)) ∧
  (∀ variable',
     devcycle.Description variable' = devcycle.Description variable →
     devcycle.UpdateVariable project variableKey variable' =
     devcycle.UpdateVariable project variableKey variable) ∧
  (∀ (F : Fmt) p remoteMap result existing flag flag' s,
     flagset.Key flag' = flagset.Key flag →
     flagset.Description flag' = flagset.Description flag →
     remoteMap !! flagset.Key flag = Some existing →
     devcycle.variableNeedsUpdate existing (devcycle.flagToVariable flag (devcycle.project p))
       = true →
     devcycle.variableNeedsUpdate existing (devcycle.flagToVariable flag' (devcycle.project p))
       = true →
     (devcycle.pushFlag p {| plugin.DryRun := false |} remoteMap result flag' s).2 =
     (devcycle.pushFlag p {| plugin.DryRun := false |} remoteMap result flag s).2).
Proof.
  split_and!.
  - intros r c1 n1. unfold devcycle.UpdateVariable, bind.
    destruct (devcycle.doRequest _ _ _ (c, n)) as [r' [c1' n1']] eqn:Hdo.
    intros Hres.
    assert (c1' = c1 ∧ n1' = n1) as [-> ->].
    { destruct r' as [err|resp]; [by injection Hres as _ -> ->|].
      unfold ret in Hres. by destruct (devcycle.notSuccess _); injection Hres as _ -> ->. }
    apply doRequest_sent in Hdo as (extra & Hs & Hall).
    rewrite (newRequests_app _ _ _ Hs). eapply Forall_impl; [exact Hall|].
    intros req [->|(reqBody & (w & Hw & ->) & ->)]; [by left|]. right. by exists w.
  - intros variable' Hd. unfold devcycle.UpdateVariable, devcycle.updateBody.
    by rewrite Hd.
  - intros F p remoteMap result existing flag flag' s Hk Hd Hex Hup Hup'.
    unfold devcycle.pushFlag. rewrite Hk, Hex, Hup, Hup'. cbn. unfold bind.
    assert (devcycle.UpdateVariable (devcycle.project p) (flagset.Key flag)
              (devcycle.flagToVariable flag' (devcycle.project p)) =
            devcycle.UpdateVariable (devcycle.project p) (flagset.Key flag)
              (devcycle.flagToVariable flag (devcycle.project p))) as ->.
    { unfold devcycle.UpdateVariable, devcycle.updateBody, devcycle.flagToVariable. cbn.
      by rewrite Hd. }
    destruct (devcycle.UpdateVariable _ _ _ s) as [[err|] s']; done.
Qed.
End update_claims.

(** Updating "a" from the local flag (Boolean, default true) or from the
    remote variable itself (default false) is one and the same call; after the
    token exchange it sends one PATCH, whose body holds the description. *)
Lemma UpdateVariable_sends_only_description_witness :
  let call := devcycle.UpdateVariable "proj" "a" sim.remoteA
                (sim.freshClient, sim.net sim.world0) in
  devcycle.UpdateVariable "proj" "a" (devcycle.flagToVariable sim.localA "proj") =
  devcycle.UpdateVariable "proj" "a" sim.remoteA ∧
  Forall (λ req,
            req = authRequest sim.freshClient ∨
            ∃ w, inr (sim.WPayload (devcycle.BodyMap [("description", AnyString "flag a")]))
                 = inr (A := error) w ∧
                 req = apiRequest "PATCH" "/v1/projects/proj/variables/a" (Some w)
                         (devcycle.accessToken call.2.1))
         (newRequests (sim.net sim.world0) call.2.2) ∧
  length (newRequests (sim.net sim.world0) call.2.2) = 2%nat.
Proof.
  intros call.
  destruct (UpdateVariable_sends_only_description (R := sim.runtime) sim.freshClient
              (sim.net sim.world0) "proj" "a" sim.remoteA) as (Hsent & Hsame & _).
  split_and!.
  - apply Hsame. reflexivity.
  - apply (Hsent call.1 call.2.1 call.2.2). subst call.
    by destruct (devcycle.UpdateVariable _ _ _ _) as [? [? ?]].
  - vm_compute. reflexivity.
Defined.

(** ** Push *)
Section push_facts.
Context `{F : Fmt} `{R : devcycle.Runtime}.
Implicit Types (c : devcycle.Client) (n : devcycle.Net) (p : devcycle.Plugin)
  (s : devcycle.Client * devcycle.Net).

Lemma UpdateVariable_sent project key v s e s' :
  devcycle.UpdateVariable project key v s = (e, s') →
  devcycle.sent s.2 `prefix_of` devcycle.sent s'.2.
Proof.
  destruct s as [c n]. unfold devcycle.UpdateVariable, bind, ret.
  destruct (devcycle.doRequest _ _ _ (c, n)) as [r [c1 n1]] eqn:Hdo.
  apply doRequest_sent in Hdo as (extra & Hs & _). intros Hres.
  assert (s' = (c1, n1)) as ->.
  { destruct r; [|destruct (devcycle.notSuccess _)]; by injection Hres as _ <-. }
  by exists extra.
Qed.

Lemma CreateFeatureWithVariable_sent project v s e s' :
  devcycle.CreateFeatureWithVariable project v s = (e, s') →
  devcycle.sent s.2 `prefix_of` devcycle.sent s'.2.
Proof.
  destruct s as [c n]. unfold devcycle.CreateFeatureWithVariable, bind, ret.
  destruct (devcycle.doRequest _ _ _ (c, n)) as [r [c1 n1]] eqn:Hdo.
  apply doRequest_sent in Hdo as (extra & Hs & _). intros Hres.
  assert (s' = (c1, n1)) as ->.
  { destruct r; [|destruct (devcycle.notSuccess _)]; by injection Hres as _ <-. }
  by exists extra.
Qed.

Lemma dryRunAgrees_both f d r (app : flagset.Flag → plugin.PushResult → plugin.PushResult) :
  (app = devcycle.appendCreated ∨ app = devcycle.appendUpdated ∨
   app = devcycle.appendUnchanged) →
  dryRunAgrees d r → dryRunAgrees (app f d) (app f r).
Proof.
  intros Happ (Hc & Hu & Hn & He & Hlen & Heq). unfold dryRunAgrees.
  destruct Happ as [-> | [-> | ->]]; cbn; rewrite ?length_app; cbn.
  - split_and!; [by apply sublist_app|done..|lia|].
    intros Hr. destruct (Heq Hr) as [-> ->]. done.
  - split_and!; [done|by apply sublist_app|done..|lia|].
    intros Hr. destruct (Heq Hr) as [-> ->]. done.
  - split_and!; [done..|by rewrite Hn|done|lia|done].
Qed.

Lemma dryRunAgrees_failed f err d r (app : flagset.Flag → plugin.PushResult → plugin.PushResult) :
  (app = devcycle.appendCreated ∨ app = devcycle.appendUpdated) →
  dryRunAgrees d r → dryRunAgrees (app f d) (devcycle.appendError err r).
Proof.
  intros Happ (Hc & Hu & Hn & He & Hlen & Heq). unfold dryRunAgrees.
  destruct Happ as [-> | ->]; cbn; rewrite ?length_app; cbn.
  - split_and!; [by apply sublist_inserts_r|done..|lia|].
    by intros [_ [=]]%app_nil.
  - split_and!; [done|by apply sublist_inserts_r|done..|lia|].
    by intros [_ [=]]%app_nil.
Qed.

(** One flag, in a dry run and in a real run. *)
Lemma pushFlag_dry_real p remoteMap d r flag s s' :
  dryRunAgrees d r →
  ∃ d' r' s'',
    devcycle.pushFlag p dryRun remoteMap d flag s = (d', s) ∧
    devcycle.pushFlag p realRun remoteMap r flag s' = (r', s'') ∧
    dryRunAgrees d' r' ∧
    devcycle.sent s'.2 `prefix_of` devcycle.sent s''.2.
Proof.
  intros Hinv. unfold devcycle.pushFlag. cbn.
  destruct (remoteMap !! flagset.Key flag) as [existing|].
  - destruct (devcycle.variableNeedsUpdate _ _).
    + unfold bind, ret.
      destruct (devcycle.UpdateVariable _ _ _ s') as [[err|] s''] eqn:Hup;
        apply UpdateVariable_sent in Hup; do 3 eexists; split_and!; try done.
      * apply dryRunAgrees_failed; auto.
      * apply dryRunAgrees_both; auto.
    + unfold ret. do 3 eexists. split_and!; try done.
      apply dryRunAgrees_both; auto.
  - unfold bind, ret.
    destruct (devcycle.CreateFeatureWithVariable _ _ s') as [[err|] s''] eqn:Hcr;
      apply CreateFeatureWithVariable_sent in Hcr; do 3 eexists; split_and!; try done.
    + apply dryRunAgrees_failed; auto.
    + apply dryRunAgrees_both; auto.
Qed.

Lemma pushFlags_dry_real p remoteMap flags d r s s' :
  dryRunAgrees d r →
  ∃ d' r' s'',
    devcycle.pushFlags p dryRun remoteMap d flags s = (d', s) ∧
    devcycle.pushFlags p realRun remoteMap r flags s' = (r', s'') ∧
    dryRunAgrees d' r' ∧
    devcycle.sent s'.2 `prefix_of` devcycle.sent s''.2.
Proof.
  revert d r s'. induction flags as [|flag flags IH]; intros d r s' Hinv.
  { exists d, r, s'. by cbn. }
  destruct (pushFlag_dry_real p remoteMap d r flag s s' Hinv)
    as (d1 & r1 & s1 & Hd & Hr & Hinv1 & Hpre1).
  destruct (IH d1 r1 s1 Hinv1) as (d' & r' & s'' & Hd' & Hr' & Hinv' & Hpre').
  exists d', r', s''. cbn. unfold bind. rewrite Hd, Hr. split_and!; [done..|].
  by etrans.
Qed.

Lemma dryRunAgrees_empty : dryRunAgrees devcycle.emptyPushResult devcycle.emptyPushResult.
Proof. unfold dryRunAgrees. cbn. by split_and!. Qed.

(** One flag is accounted for by one more key, whatever the calls return. *)
Lemma pushFlag_accounts p opts remoteMap result flag s result' s' :
  devcycle.pushFlag p opts remoteMap result flag s = (result', s') →
  accountedKeys result' ≡ₚ accountedKeys result ++ [flagset.Key flag] ∧
  (Forall (λ e, is_Some (failedKey e)) (plugin.Errors result) →
   Forall (λ e, is_Some (failedKey e)) (plugin.Errors result')).
Proof.
  unfold devcycle.pushFlag, bind, ret.
  assert (∀ (e : option error) what,
    let result' :=
      match e with
      | Some err => devcycle.appendError (Errorf_key what (flagset.Key flag) err) result
      | None => devcycle.appendCreated flag result
      end in
    accountedKeys result' ≡ₚ accountedKeys result ++ [flagset.Key flag] ∧
    (Forall (λ e, is_Some (failedKey e)) (plugin.Errors result) →
     Forall (λ e, is_Some (failedKey e)) (plugin.Errors result'))) as Hcreated.
  { intros [err|] what; unfold accountedKeys; cbn.
    - rewrite omap_app. cbn. split; [by rewrite !app_assoc|].
      intros Hall. apply Forall_app. split; [done|]. apply Forall_singleton. by eexists.
    - rewrite fmap_app. cbn. split; [|done]. rewrite <- !app_assoc. cbn.
      by rewrite <- !Permutation_middle, app_nil_r. }
  assert (∀ (e : option error) what,
    let result' :=
      match e with
      | Some err => devcycle.appendError (Errorf_key what (flagset.Key flag) err) result
      | None => devcycle.appendUpdated flag result
      end in
    accountedKeys result' ≡ₚ accountedKeys result ++ [flagset.Key flag] ∧
    (Forall (λ e, is_Some (failedKey e)) (plugin.Errors result) →
     Forall (λ e, is_Some (failedKey e)) (plugin.Errors result'))) as Hupdated.
  { intros [err|] what; unfold accountedKeys; cbn.
    - rewrite omap_app. cbn. split; [by rewrite !app_assoc|].
      intros Hall. apply Forall_app. split; [done|]. apply Forall_singleton. by eexists.
    - rewrite fmap_app. cbn. split; [|done]. rewrite <- !app_assoc. cbn.
      by rewrite <- !Permutation_middle, app_nil_r. }
  destruct (remoteMap !! flagset.Key flag) as [existing|].
  - destruct (devcycle.variableNeedsUpdate _ _).
    + destruct (if negb (plugin.DryRun opts) then _ else _) as [e s1].
      destruct e as [err|]; intros [= <- <-].
      * apply (Hupdated (Some err)).
      * apply (Hupdated None "").
    + intros [= <- <-]. unfold accountedKeys. cbn. rewrite fmap_app. cbn. split; [|done].
      rewrite <- !app_assoc. cbn. by rewrite <- !Permutation_middle, app_nil_r.
  - destruct (if negb (plugin.DryRun opts) then _ else _) as [e s1].
    destruct e as [err|]; intros [= <- <-].
    + apply (Hcreated (Some err)).
    + apply (Hcreated None "").
Qed.

Lemma pushFlags_accounts p opts remoteMap flags result s result' s' :
  devcycle.pushFlags p opts remoteMap result flags s = (result', s') →
  accountedKeys result' ≡ₚ accountedKeys result ++ (flagset.Key <$> flags) ∧
  (Forall (λ e, is_Some (failedKey e)) (plugin.Errors result) →
   Forall (λ e, is_Some (failedKey e)) (plugin.Errors result')).
Proof.
  revert result s. induction flags as [|flag flags IH]; intros result s.
  { intros [= <- <-]. cbn. by rewrite app_nil_r. }
  cbn. unfold bind.
  destruct (devcycle.pushFlag p opts remoteMap result flag s) as [r1 s1] eqn:Hstep.
  apply pushFlag_accounts in Hstep as [Hperm Hall]. intros [Hperm' Hall']%IH.
  split; [|by auto]. rewrite Hperm', Hperm, <- app_assoc. done.
Qed.

(** The loop never stops early: the flags after a prefix are processed from
    the result and the state the prefix leaves. *)
Lemma pushFlags_app p opts remoteMap flags1 flags2 result s :
  devcycle.pushFlags p opts remoteMap result (flags1 ++ flags2) s =
  let '(result1, s1) := devcycle.pushFlags p opts remoteMap result flags1 s in
  devcycle.pushFlags p opts remoteMap result1 flags2 s1.
Proof.
  revert result s. induction flags1 as [|flag flags1 IH]; intros result s; [done|].
  cbn. unfold bind. destruct (devcycle.pushFlag _ _ _ _ _ _) as [r1 s1]. apply IH.
Qed.
End push_facts.

Lemma length_failedKeys (errors : list error) :
  Forall (λ e, is_Some (failedKey e)) errors →
  length (omap failedKey errors) = length errors.
Proof.
  induction 1 as [|e es [k Hk] _ IH]; [done|]. cbn. rewrite Hk. cbn. by rewrite IH.
Qed.

Section push_claims.
Context `{F : Fmt} `{R : devcycle.Runtime}.
Implicit Types (c : devcycle.Client) (n : devcycle.Net) (p : devcycle.Plugin).

(** C2, as amended.  A dry run and a real run of [Push] from the same state
    stop with the same error before the loop, or both return a result.  The
    dry run sends the requests of the initial fetch and no other, and the real
    run starts with them.  The real run's Created and Updated are sublists of
    the dry run's, its Unchanged is the same, and it holds one error for each
    flag it lists less: a flag whose create or update call fails is Created or
    Updated for the dry run only.  When the real run has no error, Created
    and Updated are the same lists. *)
Theorem Push_dry_run_agrees_up_to_failures p n (local : flagset.Flagset) :
  let dryOut := devcycle.Push local dryRun (p, n) in
  let realOut := devcycle.Push local realRun (p, n) in
  match dryOut.1, realOut.1 with
  | inl e, inl e' => e = e' ∧ dryOut.2 = realOut.2
  | inr d, inr r =>
      dryRunAgrees d r ∧
      devcycle.sent dryOut.2.2 `prefix_of` devcycle.sent realOut.2.2 ∧
      (∀ c, devcycle.client p = Some c →
         devcycle.sent dryOut.2.2 =
         devcycle.sent (devcycle.GetVariables (devcycle.project p) (c, n)).2.2)
  | _, _ => False
  end.
Proof.
  unfold devcycle.Push, devcycle.validated. cbn.
  destruct (devcycle.ValidateConfig p) as [err|]; [done|].
  destruct (devcycle.client p) as [c|]; [|done].
  unfold bind, ret.
  destruct (devcycle.GetVariables (devcycle.project p) (c, n)) as [[err|variables] [c1 n1]]
    eqn:Hget; [done|].
  destruct (pushFlags_dry_real p (devcycle.buildVariableMap variables) (flagset.Flags local)
              devcycle.emptyPushResult devcycle.emptyPushResult (c1, n1) (c1, n1)
              dryRunAgrees_empty) as (d & r & [c2 n2] & Hd & Hr & Hinv & Hpre).
  rewrite Hd, Hr. cbn. split_and!; [done..|]. intros ? [= <-]. by rewrite Hget.
Qed.

(** C5.  Once the initial fetch has succeeded, [Push] returns a result, never
    an error, whatever the create and update calls return: the result of the
    loop over all local flags.  The keys of its Created, Updated and Unchanged
    flags together with the keys its errors name are the local keys, each as
    often as it occurs locally; every error is a per-flag error naming its
    key; the loop processes the flags after any prefix from the result and the
    state that prefix leaves, failed calls included; and a create or update
    call that fails appends its error, with the flag key, to the result. *)
Theorem Push_continues_after_failures p n (local : flagset.Flagset)
    (opts : plugin.PushOptions) c c1 n1 (variables : list devcycle.Variable_) :
  devcycle.ValidateConfig p = None →
  devcycle.client p = Some c →
  devcycle.GetVariables (devcycle.project p) (c, n) = (inr variables, (c1, n1)) →
  (∃ r p' n',
     devcycle.Push local opts (p, n) = (inr r, (p', n')) ∧
     (r, (default c (devcycle.client p'), n')) =
       devcycle.pushFlags p opts (devcycle.buildVariableMap variables)
         devcycle.emptyPushResult (flagset.Flags local) (c1, n1) ∧
     accountedKeys r ≡ₚ flagset.Key <$> flagset.Flags local ∧
     Forall (λ e, is_Some (failedKey e)) (plugin.Errors r) ∧
     (length (plugin.Created r) + length (plugin.Updated r) + length (plugin.Unchanged r) +
      length (plugin.Errors r) = length (flagset.Flags local))%nat) ∧
  (∀ remoteMap flags1 flags2 result s,
     devcycle.pushFlags p opts remoteMap result (flags1 ++ flags2) s =
     let '(result1, s1) := devcycle.pushFlags p opts remoteMap result flags1 s in
     devcycle.pushFlags p opts remoteMap result1 flags2 s1) ∧
  (∀ remoteMap result flag s err s',
     let variable := devcycle.flagToVariable flag (devcycle.project p) in
     (remoteMap !! flagset.Key flag = None →
      devcycle.CreateFeatureWithVariable (devcycle.project p) variable s = (Some err, s') →
      devcycle.pushFlag p realRun remoteMap result flag s =
        (devcycle.appendError (Errorf_key "failed to create" (flagset.Key flag) err) result,
         s')) ∧
     (∀ existing,
        remoteMap !! flagset.Key flag = Some existing →
        devcycle.variableNeedsUpdate existing variable = true →
        devcycle.UpdateVariable (devcycle.project p) (flagset.Key flag) variable s
          = (Some err, s') →
        devcycle.pushFlag p realRun remoteMap result flag s =
          (devcycle.appendError (Errorf_key "failed to update" (flagset.Key flag) err) result,
           s'))).
Proof.
  intros Hv Hc Hget. split_and!; [|apply pushFlags_app|].
  2:{ intros remoteMap result flag s err s' variable. subst variable. split.
      - intros Hnone Hcall. unfold devcycle.pushFlag. rewrite Hnone. cbn. unfold bind.
        by rewrite Hcall.
      - intros existing Hex Hneeds Hcall. unfold devcycle.pushFlag.
        rewrite Hex, Hneeds. cbn. unfold bind. by rewrite Hcall. }
  unfold devcycle.Push, devcycle.validated. rewrite Hv, Hc. unfold bind, ret. rewrite Hget.
  destruct (devcycle.pushFlags _ _ _ _ _ _) as [r [c2 n2]] eqn:Hloop.
  apply pushFlags_accounts in Hloop as [Hperm Hall].
  do 3 eexists. split_and!; [done|done|exact Hperm|by apply Hall|].
  apply Permutation_length in Hperm. unfold accountedKeys in Hperm.
  rewrite !length_app, !length_fmap in Hperm.
  rewrite (length_failedKeys (plugin.Errors r)) in Hperm by (by apply Hall).
  cbn in Hperm. lia.
Qed.
End push_claims.

(** C2 as worded fails: the server refuses to create "b", so the dry run
    lists "b" as Created and the real run does not. *)
Lemma dry_run_classification_differs :
  ¬ sameClassification
      (devcycle.Push (H := scalarFmt) {| flagset.Flags := [sim.localA; sim.localB] |}
         dryRun (sim.configured, sim.net sim.world1)).1
      (devcycle.Push (H := scalarFmt) {| flagset.Flags := [sim.localA; sim.localB] |}
         realRun (sim.configured, sim.net sim.world1)).1.
Proof.
  remember (devcycle.Push _ dryRun _).1 as d eqn:Hd. vm_compute in Hd. subst d.
  remember (devcycle.Push _ realRun _).1 as r eqn:Hr. vm_compute in Hr. subst r.
  intros [Hcreated _]. unfold keysOf in Hcreated. cbn in Hcreated. set_solver.
Qed.

(** With a server that accepts every change, the real run has no error and
    lists what the dry run lists. *)
Lemma Push_dry_run_agrees_up_to_failures_witness :
  let local := {| flagset.Flags := [sim.localA; sim.localB] |} in
  let result :=
    {| plugin.Created := [sim.localB]; plugin.Updated := [sim.localA];
       plugin.Deleted := []; plugin.Unchanged := []; plugin.Errors := [] |} in
  (devcycle.Push (H := scalarFmt) local dryRun (sim.configured, sim.net sim.world0)).1
    = inr result ∧
  (devcycle.Push (H := scalarFmt) local realRun (sim.configured, sim.net sim.world0)).1
    = inr result ∧
  dryRunAgrees result result.
Proof.
  intros local result.
  pose proof (Push_dry_run_agrees_up_to_failures (F := scalarFmt) (R := sim.runtime)
                sim.configured (sim.net sim.world0) local) as H.
  cbv zeta in H.
  assert ((devcycle.Push (H := scalarFmt) local dryRun
             (sim.configured, sim.net sim.world0)).1 = inr result) as Hd
    by (vm_compute; reflexivity).
  assert ((devcycle.Push (H := scalarFmt) local realRun
             (sim.configured, sim.net sim.world0)).1 = inr result) as Hr
    by (vm_compute; reflexivity).
  rewrite Hd, Hr in H. destruct H as (Hagree & _). by split_and!.
Defined.

(** The server refuses to create "b", the first local flag; "a" is still
    updated, and the result accounts for both keys. *)
Lemma Push_continues_after_failures_witness :
  let local := {| flagset.Flags := [sim.localB; sim.localA] |} in
  let fetched := devcycle.GetVariables "proj" (sim.freshClient, sim.net sim.world1) in
  let pushed := devcycle.Push (H := scalarFmt) local realRun
                  (sim.configured, sim.net sim.world1) in
  fetched.1 = inr [sim.remoteA] ∧
  pushed.1 =
    inr {| plugin.Created := []; plugin.Updated := [sim.localA]; plugin.Deleted := [];
           plugin.Unchanged := [];
           plugin.Errors :=
             [Errorf_key "failed to create" "b"
                (Errorf_status "failed to create feature" 500 "rejected")] |} ∧
  ∃ r p' n', pushed = (inr r, (p', n')) ∧ accountedKeys r ≡ₚ ["b"; "a"].
Proof.
  intros local fetched pushed.
  assert (fetched.1 = inr [sim.remoteA]) as Hfetched by (vm_compute; reflexivity).
  assert (fetched = (inr [sim.remoteA], (fetched.2.1, fetched.2.2))) as Hget.
  { rewrite <- Hfetched. clear Hfetched. clearbody fetched. by destruct fetched as [? [? ?]]. }
  destruct (Push_continues_after_failures (F := scalarFmt) (R := sim.runtime)
              sim.configured (sim.net sim.world1) local realRun sim.freshClient
              fetched.2.1 fetched.2.2 [sim.remoteA] eq_refl eq_refl Hget)
    as [(r & p' & n' & Hpush & _ & Hperm & _) _].
  split_and!.
  - exact Hfetched.
  - vm_compute. reflexivity.
  - exists r, p', n'. split; [exact Hpush|exact Hperm].
Defined.

(** C3 at its failing input.  The remote variable "a" is Boolean with default
    false; the local flag "a" has default true.  The first real push succeeds
    without error and reports "a" as Updated; the server, which applies the
    fields it is sent, still holds the default false; the second push of the
    same local flagset from the resulting state reports "a" as Updated
    again. *)
Theorem Push_twice_updates_again :
  let local := {| flagset.Flags := [sim.localA] |} in
  let first := devcycle.Push (H := scalarFmt) local realRun (sim.configured, sim.net sim.world0) in
  let second := devcycle.Push (H := scalarFmt) local realRun first.2 in
  first.1 = inr {| plugin.Created := []; plugin.Updated := [sim.localA];
                   plugin.Deleted := []; plugin.Unchanged := []; plugin.Errors := [] |} ∧
  sim.store (devcycle.world first.2.2) = [sim.remoteA] ∧
  second.1 = inr {| plugin.Created := []; plugin.Updated := [sim.localA];
                    plugin.Deleted := []; plugin.Unchanged := []; plugin.Errors := [] |}.
Proof. by vm_compute. Qed.

(** ** The manifest document *)
Section json_facts.
Context `{C : flagset.ManifestCodec}.
Implicit Types (flags : list flagset.Flag) (entries : list (string * flagset.ManifestFlag)).

Lemma ParseFlagType_String s t :
  flagset.ParseFlagType s = inr t → flagset.ParseFlagType (flagset.String t) = inr t.
Proof.
  intros Hparse. assert (t ≠ flagset.UnknownFlagType) as Hknown.
  { revert Hparse. unfold flagset.ParseFlagType. repeat case_bool_decide; by intros [= <-]. }
  by destruct t.
Qed.

Lemma appendParsed_inv entries acc flags' :
  flagset.appendParsed entries acc = (None, flags') →
  Forall (λ e, is_Some (decodeEntry e)) entries ∧ flags' = acc ++ omap decodeEntry entries.
Proof.
  revert acc. induction entries as [|[k mf] entries IH]; intros acc; cbn.
  { intros [= <-]. by rewrite app_nil_r. }
  unfold decodeEntry at 2 3. cbn.
  destruct (flagset.ParseFlagType (flagset.MFlagType mf)) as [err|t] eqn:Ht; [done|].
  intros [Hall ->]%IH. split; [|by rewrite <- app_assoc].
  constructor; [|done]. unfold decodeEntry. cbn. rewrite Ht. by eexists.
Qed.

Lemma appendParsed_decodable entries acc :
  Forall (λ e, is_Some (decodeEntry e)) entries →
  flagset.appendParsed entries acc = (None, acc ++ omap decodeEntry entries).
Proof.
  intros Hall. revert acc. induction Hall as [|[k mf] entries [f Hf] _ IH]; intros acc; cbn.
  { by rewrite app_nil_r. }
  unfold decodeEntry in Hf |- *. cbn in *.
  destruct (flagset.ParseFlagType (flagset.MFlagType mf)) as [err|t]; [done|].
  rewrite IH. by rewrite <- app_assoc.
Qed.

Lemma decodeEntry_key e f : decodeEntry e = Some f → flagset.Key f = e.1.
Proof.
  unfold decodeEntry. destruct (flagset.ParseFlagType _); [done|]. by intros [= <-].
Qed.

Lemma decodeEntry_entryOf e f : decodeEntry e = Some f → decodeEntry (entryOf f) = Some f.
Proof.
  unfold decodeEntry. destruct (flagset.ParseFlagType _) as [|t] eqn:Ht; [done|].
  intros [= <-]. cbn. by rewrite (ParseFlagType_String _ _ Ht).
Qed.

Lemma keys_omap_decodeEntry entries :
  Forall (λ e, is_Some (decodeEntry e)) entries →
  flagset.Key <$> omap decodeEntry entries = entries.*1.
Proof.
  induction 1 as [|e entries [f Hf] _ IH]; [done|]. cbn. rewrite Hf. cbn.
  by rewrite IH, (decodeEntry_key _ _ Hf).
Qed.

(** A flag is well-formed when it is what decoding its own entry gives; a
    flag the loader appended is. *)
Lemma omap_decodeEntry_wf entries :
  Forall (λ f, decodeEntry (entryOf f) = Some f) (omap decodeEntry entries).
Proof.
  induction entries as [|e entries IH]; [constructor|]. cbn.
  destruct (decodeEntry e) as [f|] eqn:Hf; [|done]. constructor; [|done].
  by apply (decodeEntry_entryOf e).
Qed.

Lemma omap_decodeEntry_entryOf flags :
  Forall (λ f, decodeEntry (entryOf f) = Some f) flags →
  omap decodeEntry (entryOf <$> flags) = flags.
Proof. induction 1 as [|f flags Hf _ IH]; [done|]. cbn. by rewrite Hf, IH. Qed.

Lemma manifestOf_buildMap fs :
  flagset.manifestOf fs = flagset.manifestFlagOf <$> buildMap (flagset.Flags fs).
Proof.
  unfold flagset.manifestOf. destruct fs as [flags]. cbn.
  induction flags as [|f flags IH] using rev_ind.
  { unfold buildMap. cbn. by rewrite fmap_empty. }
  rewrite buildMap_snoc, foldl_app, fmap_insert. cbn. by rewrite IH.
Qed.

Lemma map_to_list_buildMap flags :
  NoDup (flagset.Key <$> flags) →
  map_to_list (buildMap flags) ≡ₚ (λ f, (flagset.Key f, f)) <$> flags.
Proof.
  intros Hnd. apply NoDup_Permutation.
  - apply NoDup_map_to_list.
  - apply (NoDup_fmap_1 fst). by rewrite <- list_fmap_compose.
  - intros [k f]. rewrite elem_of_map_to_list, list_elem_of_fmap. split.
    + intros [<- Hin]%buildMap_lookup. by exists f.
    + intros (f' & [= -> ->] & Hin). by apply buildMap_lookup_NoDup.
Qed.

Lemma map_to_list_manifestOf fs :
  NoDup (flagset.Key <$> flagset.Flags fs) →
  map_to_list (flagset.manifestOf fs) ≡ₚ entryOf <$> flagset.Flags fs.
Proof.
  intros Hnd. rewrite manifestOf_buildMap, map_to_list_fmap, (map_to_list_buildMap _ Hnd).
  by rewrite <- list_fmap_compose.
Qed.

(** What the loader guarantees of the flagset it returns. *)
Lemma loaderProduced_inv fs :
  loaderProduced fs →
  Sorted flagset.keyLe (flagset.Flags fs) ∧
  NoDup (flagset.Key <$> flagset.Flags fs) ∧
  Forall (λ f, decodeEntry (entryOf f) = Some f) (flagset.Flags fs).
Proof.
  intros (ord & srt & data & Hload). unfold flagset.UnmarshalJSON in Hload.
  destruct (flagset.json_Unmarshal_manifest data) as [err|manifest]; [done|].
  destruct (flagset.appendParsed _ _) as [[err|] flags] eqn:Hparsed; [done|].
  injection Hload as <-. cbn in *.
  apply appendParsed_inv in Hparsed as [Hall ->]. cbn.
  split_and!.
  - apply flagset.sortFlags_sorted.
  - rewrite (flagset.sortFlags_perm srt), (keys_omap_decodeEntry _ Hall), (visit_perm ord).
    apply NoDup_fst_map_to_list.
  - rewrite (flagset.sortFlags_perm srt). apply omap_decodeEntry_wf.
Qed.

(** C8.  Let [fs] be a flagset the loader produced.  If [MarshalJSON] returns
    a document and encoding/json decodes that document to the map that was
    encoded, then [UnmarshalJSON] of the document, on an empty receiver,
    returns [fs] itself: the same flags (key, type, description, default
    value, expiry), in the same order, which is sorted by key, without two
    flags of one key.  It holds for every order of ranging over the decoded
    map and every outcome of [sort.Slice]. *)
Theorem manifest_roundtrip (ord : MapRange flagset.ManifestFlag) (srt : flagset.KeySort)
    (fs : flagset.Flagset) (data : flagset.Document) :
  loaderProduced fs →
  flagset.MarshalJSON fs = inr data →
  flagset.json_Unmarshal_manifest data = inr (flagset.manifestOf fs) →
  flagset.UnmarshalJSON ord srt data {| flagset.Flags := [] |} = (None, fs) ∧
  Sorted flagset.keyLe (flagset.Flags fs) ∧
  NoDup (flagset.Key <$> flagset.Flags fs).
Proof.
  intros (Hsorted & Hnd & Hwf)%loaderProduced_inv _ Hdecode. split_and!; [|done..].
  unfold flagset.UnmarshalJSON. rewrite Hdecode.
  pose proof (visit_perm ord (flagset.manifestOf fs)) as Hvisit.
  rewrite (map_to_list_manifestOf _ Hnd) in Hvisit.
  assert (Forall (λ e, is_Some (decodeEntry e)) (visit ord (flagset.manifestOf fs))) as Hall.
  { rewrite Hvisit. apply Forall_fmap. eapply Forall_impl; [exact Hwf|].
    intros f Hf. cbn. by rewrite Hf. }
  rewrite (appendParsed_decodable _ _ Hall). cbn.
  assert (omap decodeEntry (visit ord (flagset.manifestOf fs)) ≡ₚ flagset.Flags fs) as Hperm.
  { rewrite Hvisit. by rewrite omap_decodeEntry_entryOf. }
  destruct fs as [flags]. cbn in *. do 2 f_equal.
  apply (Sorted_unique_strong flagset.keyLe).
  - intros f g Hf Hg Hfg Hgf.
    rewrite (flagset.sortFlags_perm srt), Hperm in Hf.
    apply (NoDup_keys_unique flags); [done..|].
    by apply (anti_symm String.le).
  - apply flagset.sortFlags_sorted.
  - done.
  - by rewrite (flagset.sortFlags_perm srt).
Qed.
End json_facts.

(** The loader reads the example manifest; what it returns is stored and read
    back unchanged. *)
Lemma manifest_roundtrip_witness :
  let fs := (flagset.UnmarshalJSON (H := structuredCodec) (canonicalRange _)
               flagset.mergeKeySort exampleManifest {| flagset.Flags := [] |}).2 in
  flagset.Key <$> flagset.Flags fs = ["a"; "b"] ∧
  flagset.UnmarshalJSON (H := structuredCodec) (canonicalRange _) flagset.mergeKeySort
    (flagset.manifestOf fs) {| flagset.Flags := [] |} = (None, fs).
Proof.
  intros fs. split; [by vm_compute|].
  apply (manifest_roundtrip (C := structuredCodec) (canonicalRange _) flagset.mergeKeySort
           fs (flagset.manifestOf fs)); [|reflexivity..].
  exists (canonicalRange _), flagset.mergeKeySort, exampleManifest. by vm_compute.
Defined.

(** * More of the code *)

(** ** The registry: listing and lookup *)
Section manager_more.
Context {P : Type} `{plugin.SyncPlugin P}.
Implicit Types (m : plugin.Manager P) (factory : plugin.PluginFactory P).

Lemma listPluginNames_perm m :
  plugin.listPluginNames m ≡ₚ (map_to_list (plugin.plugins m)).*1.
Proof. unfold plugin.listPluginNames. apply merge_sort_Permutation. Qed.

Lemma elem_of_listPluginNames m name :
  name ∈ plugin.listPluginNames m ↔ is_Some (plugin.plugins m !! name).
Proof.
  rewrite listPluginNames_perm, list_elem_of_fmap. split.
  - intros ([k info] & -> & Hin%elem_of_map_to_list). by exists info.
  - intros [info Hinfo]. exists (name, info). split; [done|]. by apply elem_of_map_to_list.
Qed.

(** X1.  [List] returns the registered names and nothing else, each once, in
    ascending byte order: a name is listed exactly when [HasPlugin] holds for
    it, and there are as many names as entries of the map. *)
Theorem List_sorted_and_exact m :
  StronglySorted String.le (plugin.List m) ∧
  NoDup (plugin.List m) ∧
  (∀ name, name ∈ plugin.List m ↔ plugin.HasPlugin name m = true) ∧
  length (plugin.List m) = size (plugin.plugins m).
Proof.
  unfold plugin.List. split_and!.
  - apply StronglySorted_merge_sort; apply _.
  - rewrite listPluginNames_perm. apply NoDup_fst_map_to_list.
  - intros name. rewrite elem_of_listPluginNames. unfold plugin.HasPlugin.
    by rewrite bool_decide_eq_true.
  - rewrite listPluginNames_perm, length_fmap. apply length_map_to_list.
Qed.

(** X2.  The table of [PrintPluginsTable] is the header row followed by one
    row per registered plugin, in the order of [List]: the name, then the
    description and the stability stored for that name. *)
Theorem pluginsTableData_rows m :
  ∃ rows,
    plugin.pluginsTableData m = ["Plugin"; "Description"; "Stability"] :: rows ∧
    Forall2 (λ name row,
               ∃ info, plugin.plugins m !! name = Some info ∧
                       row = [name; plugin.InfoDescription info;
                              plugin.Stability_string (plugin.InfoStability info)])
            (plugin.List m) rows.
Proof.
  unfold plugin.pluginsTableData, plugin.List.
  assert (Forall (λ name, is_Some (plugin.plugins m !! name)) (plugin.listPluginNames m))
    as Hall by (apply Forall_forall; intros name; apply elem_of_listPluginNames).
  revert Hall. generalize (plugin.listPluginNames m). intros names.
  induction names as [|name names IH] using rev_ind; intros Hall.
  { exists []. split; [done|constructor]. }
  apply Forall_app in Hall as [Hall [[info Hinfo] _]%Forall_cons].
  destruct (IH Hall) as (rows & Heq & Hrows). rewrite foldl_app. cbn. rewrite Heq, Hinfo.
  exists (rows ++ [[name; plugin.InfoDescription info;
                    plugin.Stability_string (plugin.InfoStability info)]]).
  split; [done|]. apply Forall2_app; [done|]. constructor; [by exists info|constructor].
Qed.

(** X3.  A [Register] that succeeds adds exactly its own name: the name was
    free and is not empty; afterwards [HasPlugin] holds for it, [Get] builds
    the factory's plugin, [GetInfo] returns the name, description and
    stability of its metadata; every other name is looked up as before; and
    [List] has one more entry. *)
Theorem Register_success_effect factory m m' :
  plugin.Register factory m = (None, m') →
  let meta := plugin.GetMetadata (factory ()) in
  let name := plugin.Name meta in
  name ≠ "" ∧
  plugin.HasPlugin name m = false ∧
  plugin.HasPlugin name m' = true ∧
  plugin.Get name m' = inr (factory ()) ∧
  plugin.GetInfo name m' =
    inr {| plugin.InfoName := name; plugin.InfoDescription := plugin.Description meta;
           plugin.InfoStability := plugin.Stability_ meta; plugin.Factory := factory |} ∧
  (∀ other, other ≠ name →
     plugin.plugins m' !! other = plugin.plugins m !! other ∧
     plugin.HasPlugin other m' = plugin.HasPlugin other m) ∧
  plugin.List m' ≡ₚ name :: plugin.List m.
Proof.
  intros Hreg meta name. unfold plugin.Register in Hreg. cbv zeta in Hreg.
  fold meta name in Hreg. case_bool_decide as Hne; [done|].
  destruct (plugin.plugins m !! name) eqn:Hfree; [done|]. injection Hreg as <-.
  unfold plugin.HasPlugin, plugin.Get, plugin.GetInfo, plugin.List. cbn.
  rewrite Hfree, lookup_insert_eq. split_and!; try done.
  - intros other Hother. by rewrite lookup_insert_ne.
  - rewrite !listPluginNames_perm. cbn. rewrite map_to_list_insert by done. done.
Qed.

(** The first factory of the list whose metadata name is [name]. *)
Lemma registerAll_lookup (factories : list (plugin.PluginFactory P)) m name :
  name ≠ "" →
  plugin.plugins (registerAll factories m) !! name =
  match plugin.plugins m !! name with
  | Some info => Some info
  | None =>
      (λ found : nat * plugin.PluginFactory P,
         let meta := plugin.GetMetadata (found.2 ()) in
         {| plugin.InfoName := name; plugin.InfoDescription := plugin.Description meta;
            plugin.InfoStability := plugin.Stability_ meta; plugin.Factory := found.2 |})
      <$> list_find (λ factory, plugin.Name (plugin.GetMetadata (factory ())) = name) factories
  end.
Proof.
  intros Hname. revert m. induction factories as [|f fs IH]; intros m.
  { cbn. by destruct (plugin.plugins m !! name). }
  cbn [registerAll foldl]. fold (registerAll fs (plugin.Register f m).2). rewrite IH.
  unfold plugin.Register. cbv zeta. cbn [list_find].
  case_bool_decide as Hempty.
  { cbn. rewrite decide_False by congruence.
    destruct (plugin.plugins m !! name); [done|].
    destruct (list_find _ fs) as [[i g]|]; done. }
  destruct (plugin.plugins m !! plugin.Name _) as [taken|] eqn:Htaken; cbn.
  - case_decide as Heq.
    + rewrite Heq in Htaken. by rewrite Htaken.
    + destruct (plugin.plugins m !! name); [done|].
      destruct (list_find _ fs) as [[i g]|]; done.
  - case_decide as Heq.
    + rewrite <- Heq, lookup_insert_eq, Htaken. by rewrite Heq.
    + rewrite lookup_insert_ne by done.
      destruct (plugin.plugins m !! name); [done|].
      destruct (list_find _ fs) as [[i g]|]; done.
Qed.

Lemma registerAll_no_empty_name (factories : list (plugin.PluginFactory P)) m :
  plugin.plugins m !! "" = None → plugin.plugins (registerAll factories m) !! "" = None.
Proof.
  revert m. induction factories as [|f fs IH]; intros m Hm; [done|].
  cbn [registerAll foldl]. apply IH. unfold plugin.Register. cbv zeta.
  case_bool_decide as Hn; [done|].
  destruct (plugin.plugins m !! plugin.Name _); [done|]. cbn.
  by rewrite lookup_insert_ne.
Qed.

(** X4.  After any sequence of registrations on a new manager, [Get] of a
    non-empty name builds the plugin of the first factory in the sequence
    whose metadata has that name, and fails with the not-found error when
    there is none; the empty name is never registered.  So a plugin [Get]
    returns always carries the name it was asked for. *)
Theorem Get_after_registrations (factories : list (plugin.PluginFactory P)) (name : string) :
  let m := registerAll factories plugin.NewManager in
  plugin.HasPlugin "" m = false ∧
  (name ≠ "" →
   plugin.Get name m =
     match list_find (λ factory, plugin.Name (plugin.GetMetadata (factory ())) = name)
             factories with
     | Some (_, factory) => inr (factory ())
     | None => inl (ErrPluginNotFound name (plugin.List m))
     end) ∧
  (∀ p, plugin.Get name m = inr p → plugin.Name (plugin.GetMetadata p) = name).
Proof.
  intros m.
  assert (plugin.plugins m !! "" = None) as Hempty
    by (by apply registerAll_no_empty_name).
  assert (name ≠ "" →
          plugin.Get name m =
            match list_find (λ factory, plugin.Name (plugin.GetMetadata (factory ())) = name)
                    factories with
            | Some (_, factory) => inr (factory ())
            | None => inl (ErrPluginNotFound name (plugin.List m))
            end) as Hget.
  { intros Hname. unfold plugin.Get, plugin.List. subst m.
    rewrite (registerAll_lookup _ _ _ Hname). cbn. rewrite lookup_empty.
    by destruct (list_find _ factories) as [[i f]|]. }
  split_and!; [|done|].
  - unfold plugin.HasPlugin. rewrite Hempty. apply bool_decide_eq_false_2. by intros [? [=]].
  - intros p. destruct (decide (name = "")) as [->|Hname].
    { unfold plugin.Get. by rewrite Hempty. }
    rewrite (Hget Hname).
    destruct (list_find _ factories) as [[i f]|] eqn:Hfind; [|done].
    intros [= <-]. by apply list_find_Some in Hfind as (_ & ? & _).
Qed.
End manager_more.

(** The mock plugin, registered twice among others. *)
Lemma Register_success_effect_witness :
  let m' := (plugin.Register NewMockPlugin plugin.NewManager).2 in
  plugin.HasPlugin "mock" m' = true ∧
  plugin.Get "mock" m' = inr (NewMockPlugin ()) ∧
  plugin.List m' ≡ₚ ["mock"].
Proof.
  intros m'.
  assert (plugin.Register NewMockPlugin plugin.NewManager = (None, m')) as Hreg
    by reflexivity.
  destruct (Register_success_effect NewMockPlugin plugin.NewManager m' Hreg)
    as (_ & _ & Hhas & Hget & _ & _ & Hlist).
  split_and!; [exact Hhas|exact Hget|exact Hlist].
Defined.

Lemma Get_after_registrations_witness :
  let factories := [mockNamed "" "nameless"; mockNamed "b" "first b"; NewMockPlugin;
                    mockNamed "b" "second b"] in
  plugin.Get "b" (registerAll factories plugin.NewManager) = inr (mockNamed "b" "first b" ()) ∧
  plugin.Name (plugin.GetMetadata (mockNamed "b" "first b" ())) = "b".
Proof.
  intros factories.
  destruct (Get_after_registrations factories "b") as (_ & Hget & Hname).
  pose proof (Hget ltac:(discriminate)) as Hb. cbn in Hb.
  split; [exact Hb|]. by apply Hname.
Defined.

(** ** Flag types, filtering and expiry *)

(** X5.  [ParseFlagType] undoes [FlagType.String] on the five known types
    and rejects the name of the unknown type; it never returns the unknown
    type; [String] gives different names to different types; and the four
    DevCycle type names parse to the types [devCycleTypeToFlagType] gives
    them. *)
Theorem ParseFlagType_String_roundtrip :
  (∀ t, t ≠ flagset.UnknownFlagType → flagset.ParseFlagType (flagset.String t) = inr t) ∧
  flagset.ParseFlagType (flagset.String flagset.UnknownFlagType)
    = inl (Errorf "unknown flag type: unknown") ∧
  (∀ s t, flagset.ParseFlagType s = inr t → t ≠ flagset.UnknownFlagType) ∧
  (∀ t1 t2, flagset.String t1 = flagset.String t2 → t1 = t2) ∧
  (∀ s t, devcycle.devCycleTypeToFlagType s = inr t → flagset.ParseFlagType s = inr t).
Proof.
  split_and!.
  - by intros [].
  - reflexivity.
  - intros s t. unfold flagset.ParseFlagType. repeat case_bool_decide; by intros [= <-].
  - by intros [] [].
  - intros s t. unfold devcycle.devCycleTypeToFlagType.
    repeat case_bool_decide; intros [= <-]; by subst.
Qed.

Lemma Flagset_eq (a b : flagset.Flagset) : flagset.Flags a = flagset.Flags b → a = b.
Proof. destruct a, b. cbn. by intros ->. Qed.

Lemma Filter_filter (fs : flagset.Flagset) (unsupported : gmap flagset.FlagType bool) :
  flagset.Flags (flagset.Filter fs unsupported) =
  filter (λ f, unsupported !! flagset.Type_ f ≠ Some true) (flagset.Flags fs).
Proof.
  unfold flagset.Filter. destruct fs as [flags]. cbn [flagset.Flags].
  enough (∀ acc,
    foldl (λ filtered flag,
             if negb (default false (unsupported !! flagset.Type_ flag))
             then filtered ++ [flag] else filtered) acc flags =
    acc ++ filter (λ f, unsupported !! flagset.Type_ f ≠ Some true) flags) as Hacc
    by apply (Hacc []).
  induction flags as [|f flags IH]; intros acc.
  { by rewrite filter_nil, app_nil_r. }
  cbn [foldl]. rewrite IH.
  destruct (unsupported !! flagset.Type_ f) as [[]|] eqn:Hu; cbn [default from_option negb id].
  - rewrite filter_cons_False; [done|]. intros Hne. by apply Hne.
  - rewrite filter_cons_True by (by rewrite Hu). by rewrite <- app_assoc.
  - rewrite filter_cons_True by (by rewrite Hu). by rewrite <- app_assoc.
Qed.

(** X6.  [Filter] keeps, in their order, exactly the flags whose type is not
    mapped to true: a type that is missing from the map or mapped to false is
    kept.  Filtering twice is filtering once, and filtering with an empty map
    returns the same flags. *)
Theorem Filter_keeps_supported (fs : flagset.Flagset)
    (unsupported : gmap flagset.FlagType bool) :
  let kept := flagset.Flags (flagset.Filter fs unsupported) in
  sublist kept (flagset.Flags fs) ∧
  (∀ f, f ∈ kept ↔ f ∈ flagset.Flags fs ∧ unsupported !! flagset.Type_ f ≠ Some true) ∧
  flagset.Filter (flagset.Filter fs unsupported) unsupported = flagset.Filter fs unsupported ∧
  flagset.Filter fs ∅ = fs.
Proof.
  intros kept. subst kept. rewrite Filter_filter. split_and!.
  - apply sublist_filter.
  - intros f. by rewrite list_elem_of_filter, (comm and).
  - apply Flagset_eq. rewrite !Filter_filter, list_filter_filter.
    apply list_filter_iff. intros f. tauto.
  - apply Flagset_eq. rewrite Filter_filter.
    induction (flagset.Flags fs) as [|f flags IH]; [done|].
    rewrite filter_cons_True by (by rewrite lookup_empty). by rewrite IH.
Qed.

Section expiry.
Context {World : Type} `{D : flagset.DateLib World}.

(** X7.  A flag without expiry, or whose expiry does not parse as a date, is
    not expired and [IsExpired] does not read the clock.  Otherwise
    [IsExpired] reads the clock once and answers whether the date
    [ExpiryTime] gives is before that reading; so a flag that is expired at
    one reading is expired at every later reading, and an expired flag has an
    expiry. *)
Theorem IsExpired_reads_clock_once (f : flagset.Flag) (w : World) :
  (flagset.HasExpiry f = false → flagset.IsExpired f w = (false, w)) ∧
  (∀ err, flagset.time_Parse_date (flagset.Expiry f) = inl err →
          flagset.IsExpired f w = (false, w)) ∧
  (∀ d, flagset.HasExpiry f = true →
        flagset.time_Parse_date (flagset.Expiry f) = inr d →
        flagset.ExpiryTime f = d ∧
        flagset.IsExpired f w =
          (bool_decide (d < (flagset.time_Now w).1), (flagset.time_Now w).2)) ∧
  ((flagset.IsExpired f w).1 = true → flagset.HasExpiry f = true) ∧
  (∀ w', (flagset.IsExpired f w).1 = true →
         (flagset.time_Now w).1 ≤ (flagset.time_Now w').1 →
         (flagset.IsExpired f w').1 = true).
Proof.
  unfold flagset.IsExpired, flagset.HasExpiry, flagset.ExpiryTime, bind, ret.
  split_and!.
  - intros Hno%bool_decide_eq_false. rewrite bool_decide_eq_true_2; [done|].
    by destruct (decide (flagset.Expiry f = "")).
  - intros err ->. by case_bool_decide.
  - intros d Hhas%bool_decide_eq_true ->. rewrite !bool_decide_eq_false_2 by done.
    split; [done|]. by destruct (flagset.time_Now w).
  - case_bool_decide as He; [done|]. intros _. by apply bool_decide_eq_true_2.
  - intros w'. case_bool_decide as He; [done|].
    destruct (flagset.time_Parse_date _) as [err|d]; [done|].
    destruct (flagset.time_Now w) as [now w1], (flagset.time_Now w') as [now' w1']. cbn.
    rewrite !bool_decide_eq_true. lia.
Qed.

Lemma countExpiry_acc (flags : list flagset.Flag) (expiredCount expiringCount : Z)
    (w : World) :
  let '((expired, expiring), _) := cmd.countExpiry flags expiredCount expiringCount w in
  expiredCount ≤ expired ∧ expiringCount ≤ expiring ∧
  (expired - expiredCount) + (expiring - expiringCount) =
    Z.of_nat (length (filter (λ f, flagset.HasExpiry f = true) flags)).
Proof.
  revert expiredCount expiringCount w.
  induction flags as [|f flags IH]; intros e g w; cbn [cmd.countExpiry].
  { unfold ret. rewrite filter_nil. cbn. lia. }
  destruct (flagset.HasExpiry f) eqn:Hhas.
  - rewrite filter_cons_True by done. unfold bind.
    destruct (flagset.IsExpired f w) as [[] w1].
    + specialize (IH (e + 1) g w1). destruct (cmd.countExpiry _ _ _ _) as [[e' g'] w2].
      cbn. lia.
    + specialize (IH e (g + 1) w1). destruct (cmd.countExpiry _ _ _ _) as [[e' g'] w2].
      cbn. lia.
  - rewrite filter_cons_False by (by rewrite Hhas). apply IH.
Qed.

(** X8.  The counting loop of [displayFlagList], which starts both counters
    at zero, adds one to exactly one of them for each flag with an expiry and
    nothing for the others, whatever the clock reads: the expired and the
    expiring counts together are the number of flags with an expiry, neither
    is negative, and together they are at most the number of flags. *)
Theorem countExpiry_total (flags : list flagset.Flag) (w : World) :
  let '((expired, expiring), _) := cmd.countExpiry flags 0 0 w in
  0 ≤ expired ∧ 0 ≤ expiring ∧
  expired + expiring =
    Z.of_nat (length (filter (λ f, flagset.HasExpiry f = true) flags)) ∧
  expired + expiring ≤ Z.of_nat (length flags).
Proof.
  pose proof (countExpiry_acc flags 0 0 w) as Hacc.
  destruct (cmd.countExpiry flags 0 0 w) as [[expired expiring] w'].
  pose proof (length_filter (λ f, flagset.HasExpiry f = true) flags). lia.
Qed.
End expiry.

(** A flag that expired in 2020, seen in 2023 (expired) and in 2019 (not
    yet). *)
Lemma IsExpired_reads_clock_once_witness :
  let f := {| flagset.Key := "old"; flagset.Type_ := flagset.BoolType;
              flagset.Description := ""; flagset.DefaultValue := AnyBool false;
              flagset.Expiry := "2020-01-01" |} in
  flagset.IsExpired f (1700000000 * 1000000000) = (true, 1700000000 * 1000000000) ∧
  flagset.IsExpired f (1500000000 * 1000000000) = (false, 1500000000 * 1000000000) ∧
  (flagset.IsExpired f (1800000000 * 1000000000)).1 = true.
Proof.
  intros f.
  destruct (IsExpired_reads_clock_once (D := fixedDateLib) f (1700000000 * 1000000000))
    as (_ & _ & Hparsed & _ & Hlater).
  destruct (IsExpired_reads_clock_once (D := fixedDateLib) f (1500000000 * 1000000000))
    as (_ & _ & Hparsed' & _ & _).
  destruct (Hparsed (1577836800 * 1000000000) eq_refl eq_refl) as [_ Hat].
  destruct (Hparsed' (1577836800 * 1000000000) eq_refl eq_refl) as [_ Hat'].
  split_and!.
  - rewrite Hat. reflexivity.
  - rewrite Hat'. reflexivity.
  - apply Hlater; [rewrite Hat; reflexivity|]. vm_compute. discriminate.
Defined.

(** ** Loading source flags *)

Lemma appendSource_spec (source : list flagset.SourceFlag) (acc : list flagset.Flag) :
  match flagset.appendSource source acc with
  | inr flags =>
      ∃ new, flags = acc ++ new ∧
        Forall2 (λ sf f,
                   flagset.Key f = flagset.SKey sf ∧
                   flagset.ParseFlagType (flagset.SType sf) = inr (flagset.Type_ f) ∧
                   flagset.Description f = flagset.SDescription sf ∧
                   flagset.DefaultValue f = flagset.SDefaultValue sf ∧
                   flagset.Expiry f = flagset.SExpiry sf) source new
  | inl err =>
      ∃ before sf after, source = before ++ sf :: after ∧
        Forall (λ sf, ∃ t, flagset.ParseFlagType (flagset.SType sf) = inr t) before ∧
        flagset.ParseFlagType (flagset.SType sf) = inl err
  end.
Proof.
  revert acc. induction source as [|sf source IH]; intros acc; cbn [flagset.appendSource].
  { exists []. by rewrite app_nil_r. }
  destruct (flagset.ParseFlagType (flagset.SType sf)) as [err|t] eqn:Ht.
  { exists [], sf, source. by split_and!. }
  specialize (IH (acc ++ [{| flagset.Key := flagset.SKey sf; flagset.Type_ := t;
                             flagset.Description := flagset.SDescription sf;
                             flagset.DefaultValue := flagset.SDefaultValue sf;
                             flagset.Expiry := flagset.SExpiry sf |}])).
  destruct (flagset.appendSource source _) as [err|flags].
  - destruct IH as (before & sf' & after & -> & Hbefore & Herr).
    exists (sf :: before), sf', after. split_and!; [done| |done].
    constructor; [by exists t|done].
  - destruct IH as (new & -> & Hnew). eexists (_ :: new).
    split; [by rewrite <- app_assoc|]. by constructor.
Qed.

(** X9.  [LoadFromSourceFlags] reads the array under ["flags"] when the
    document decodes as an object whose flags are not nil, whatever the
    document is as an array; otherwise it reads the document as an array, and
    when that fails too it returns its own format error.  The flags it
    returns are the source flags one for one, in the order of the source:
    same key, description, default value and expiry, the type parsed; nothing
    is sorted and duplicate keys are kept.  If a type does not parse, the
    error is that of the first such source flag and no flags come back. *)
Theorem LoadFromSourceFlags_in_source_order (C : flagset.SourceCodec)
    (data : flagset.SourceDocument) :
  (∀ source,
     flagset.json_Unmarshal_wrapper data = inr (Some source) ∨
     (¬ (∃ l, flagset.json_Unmarshal_wrapper data = inr (Some l)) ∧
      flagset.json_Unmarshal_array data = inr source) →
     match flagset.LoadFromSourceFlags data with
     | inr flags =>
         Forall2 (λ sf f,
                    flagset.Key f = flagset.SKey sf ∧
                    flagset.ParseFlagType (flagset.SType sf) = inr (flagset.Type_ f) ∧
                    flagset.Description f = flagset.SDescription sf ∧
                    flagset.DefaultValue f = flagset.SDefaultValue sf ∧
                    flagset.Expiry f = flagset.SExpiry sf) source flags
     | inl err =>
         ∃ before sf after, source = before ++ sf :: after ∧
           Forall (λ sf, ∃ t, flagset.ParseFlagType (flagset.SType sf) = inr t) before ∧
           flagset.ParseFlagType (flagset.SType sf) = inl err
     end) ∧
  (¬ (∃ l, flagset.json_Unmarshal_wrapper data = inr (Some l)) →
   ∀ err, flagset.json_Unmarshal_array data = inl err →
   flagset.LoadFromSourceFlags data = inl (Errorf flagset.sourceFormatError)).
Proof.
  unfold flagset.LoadFromSourceFlags. split.
  - intros source Hsource.
    assert (match flagset.json_Unmarshal_wrapper data with
            | inr (Some flags) => inr flags
            | _ => match flagset.json_Unmarshal_array data with
                   | inl _ => inl (Errorf flagset.sourceFormatError)
                   | inr flags => inr flags
                   end
            end = inr source) as ->.
    { destruct Hsource as [->|[Hno ->]]; [done|].
      destruct (flagset.json_Unmarshal_wrapper data) as [?|[l|]]; [done| |done].
      destruct Hno. by exists l. }
    pose proof (appendSource_spec source []) as Hspec.
    destruct (flagset.appendSource source []) as [err|flags]; [done|].
    by destruct Hspec as (new & -> & Hnew).
  - intros Hno err ->.
    destruct (flagset.json_Unmarshal_wrapper data) as [?|[l|]]; [done| |done].
    destruct Hno. by exists l.
Qed.

(** An object with two flags is read in its order; a bare array with a type
    that does not parse gives that error; an object without flags that is no
    array gives the format error. *)
Lemma LoadFromSourceFlags_in_source_order_witness :
  let sf key type :=
    {| flagset.SKey := key; flagset.SType := type; flagset.SDescription := "";
       flagset.SDefaultValue := AnyNil; flagset.SExpiry := "" |} in
  (∃ f g, flagset.LoadFromSourceFlags (H := structuredSourceCodec)
            (SourceObject (Some [sf "z" "boolean"; sf "a" "Number"])) = inr [f; g] ∧
          flagset.Key f = "z" ∧ flagset.Key g = "a" ∧
          flagset.Type_ g = flagset.FloatType) ∧
  flagset.LoadFromSourceFlags (H := structuredSourceCodec)
    (SourceArray [sf "z" "boolean"; sf "a" "double"]) =
    inl (Errorf "unknown flag type: double") ∧
  flagset.LoadFromSourceFlags (H := structuredSourceCodec) (SourceObject None) =
    inl (Errorf flagset.sourceFormatError).
Proof.
  intros sf. split_and!.
  - destruct (LoadFromSourceFlags_in_source_order structuredSourceCodec
                (SourceObject (Some [sf "z" "boolean"; sf "a" "Number"]))) as [Hread _].
    specialize (Hread [sf "z" "boolean"; sf "a" "Number"] (or_introl eq_refl)).
    destruct (flagset.LoadFromSourceFlags _) as [err|flags].
    { destruct Hread as (before & sf' & after & Hsplit & Hbefore & Herr).
      exfalso. destruct before as [|? [|? [|]]]; simplify_eq/=; by vm_compute in Herr. }
    apply Forall2_cons_inv_l in Hread as (f & flags' & (Hf & _) & Hrest & ->).
    apply Forall2_cons_inv_l in Hrest as (g & flags'' & (Hg & Htg & _) & ->%Forall2_nil_inv_l & ->).
    exists f, g. split_and!; [done..|]. by injection Htg as <-.
  - reflexivity.
  - destruct (LoadFromSourceFlags_in_source_order structuredSourceCodec (SourceObject None))
      as [_ Hformat].
    apply Hformat with (err := Errorf "json: cannot unmarshal object into Go value");
      [intros [l Hl]; discriminate Hl|reflexivity].
Defined.

(** ** The manifest: any receiver, any flagset *)

Section manifest_more.
Context `{C : flagset.ManifestCodec}.

Lemma appendParsed_error entries acc err flags' :
  flagset.appendParsed entries acc = (Some err, flags') →
  ∃ before e after, entries = before ++ e :: after ∧
    Forall (λ e, is_Some (decodeEntry e)) before ∧
    flagset.ParseFlagType (flagset.MFlagType e.2) = inl err ∧
    flags' = acc ++ omap decodeEntry before.
Proof.
  revert acc. induction entries as [|[k mf] entries IH]; intros acc; cbn; [done|].
  destruct (flagset.ParseFlagType (flagset.MFlagType mf)) as [err'|t] eqn:Ht.
  { intros [= -> <-]. exists [], (k, mf), entries. cbn. by rewrite app_nil_r. }
  intros (before & e & after & -> & Hbefore & Herr & ->)%IH.
  exists ((k, mf) :: before), e, after. split_and!; [done| |done|].
  - constructor; [|done]. unfold decodeEntry. cbn. rewrite Ht. by eexists.
  - cbn. unfold decodeEntry at 2. cbn. rewrite Ht. by rewrite <- app_assoc.
Qed.

Lemma length_omap_decodeEntry entries :
  Forall (λ e, is_Some (decodeEntry e)) entries →
  length (omap decodeEntry entries) = length entries.
Proof. induction 1 as [|e entries [f Hf] _ IH]; [done|]. cbn. rewrite Hf. cbn. by rewrite IH. Qed.

(** X10.  [UnmarshalJSON] on a receiver that already holds flags.  When it
    succeeds, every entry of the decoded map had a type that parses, and the
    receiver holds its old flags together with one flag for each entry,
    rearranged so that the keys ascend: the old flags are sorted in with the
    new ones, not replaced.  When it fails, either the document did not
    decode and the receiver is untouched, or some entry has a type that does
    not parse, the error is that entry's, and the receiver keeps its old
    flags in front followed by the flags of the entries ranged over before
    it, unsorted.  An unknown type is never turned into a flag. *)
Theorem UnmarshalJSON_on_any_receiver (ord : MapRange flagset.ManifestFlag)
    (srt : flagset.KeySort) (data : flagset.Document) (fs : flagset.Flagset) :
  match flagset.UnmarshalJSON ord srt data fs with
  | (None, fs') =>
      ∃ manifest, flagset.json_Unmarshal_manifest data = inr manifest ∧
        map_Forall (λ _ mf, ∃ t, flagset.ParseFlagType (flagset.MFlagType mf) = inr t)
          manifest ∧
        flagset.Flags fs' ≡ₚ flagset.Flags fs ++ omap decodeEntry (map_to_list manifest) ∧
        Sorted flagset.keyLe (flagset.Flags fs') ∧
        length (flagset.Flags fs') = (length (flagset.Flags fs) + size manifest)%nat
  | (Some err, fs') =>
      (flagset.json_Unmarshal_manifest data = inl err ∧ fs' = fs) ∨
      (∃ manifest key mf, flagset.json_Unmarshal_manifest data = inr manifest ∧
         manifest !! key = Some mf ∧
         flagset.ParseFlagType (flagset.MFlagType mf) = inl err ∧
         flagset.Flags fs `prefix_of` flagset.Flags fs' ∧
         (length (flagset.Flags fs') < length (flagset.Flags fs) + size manifest)%nat ∧
         Forall (λ f, flagset.Type_ f ≠ flagset.UnknownFlagType)
           (drop (length (flagset.Flags fs)) (flagset.Flags fs')))
  end.
Proof.
  unfold flagset.UnmarshalJSON.
  destruct (flagset.json_Unmarshal_manifest data) as [err|manifest]; [by left|].
  pose proof (visit_perm ord manifest) as Hvisit.
  destruct (flagset.appendParsed _ _) as [[err|] flags] eqn:Hparsed.
  - right. apply appendParsed_error in Hparsed as (before & [k mf] & after & Hsplit & Hbefore & Herr & ->).
    exists manifest, k, mf. cbn. split_and!; [done| |done|by eexists| |].
    + apply elem_of_map_to_list. rewrite <- Hvisit, Hsplit. apply elem_of_app. right. left.
    + rewrite length_app, (length_omap_decodeEntry _ Hbefore).
      rewrite <- length_map_to_list, <- Hvisit, Hsplit, length_app. cbn. lia.
    + rewrite drop_app_length. apply Forall_forall. intros f (e & _ & Hf)%list_elem_of_omap.
      unfold decodeEntry in Hf.
      destruct (flagset.ParseFlagType (flagset.MFlagType e.2)) as [|t] eqn:Ht; [done|]. injection Hf as <-. cbn.
      revert Ht. unfold flagset.ParseFlagType. repeat case_bool_decide; by intros [= <-].
  - apply appendParsed_inv in Hparsed as [Hall ->]. exists manifest. cbn.
    split_and!; [done| | |apply flagset.sortFlags_sorted|].
    + intros k mf Hk. apply elem_of_map_to_list in Hk. rewrite <- Hvisit in Hk.
      rewrite Forall_forall in Hall. destruct (Hall _ Hk) as [f Hf].
      unfold decodeEntry in Hf. cbn in Hf.
      destruct (flagset.ParseFlagType _) as [|t]; [done|]. by exists t.
    + by rewrite (flagset.sortFlags_perm srt), Hvisit.
    + rewrite (flagset.sortFlags_perm srt), length_app, (length_omap_decodeEntry _ Hall).
      by rewrite Hvisit, length_map_to_list.
Qed.
Lemma decodeEntry_entryOf_known (f : flagset.Flag) :
  flagset.Type_ f ≠ flagset.UnknownFlagType → decodeEntry (entryOf f) = Some f.
Proof. destruct f as [k [] d v e]; by cbn. Qed.

Lemma buildMap_lookup_last (flags : list flagset.Flag) (k : string) :
  buildMap flags !! k = last (filter (λ f, flagset.Key f = k) flags).
Proof.
  induction flags as [|f flags IH] using rev_ind; [done|].
  rewrite buildMap_snoc, filter_app, lookup_insert. case_decide as Hk.
  - rewrite filter_cons_True by done. by rewrite filter_nil, last_snoc.
  - rewrite filter_cons_False by done. by rewrite filter_nil, app_nil_r.
Qed.

(** X11.  Writing and reading back a flagset that did not come from the
    loader.  Let the keys of [fs] be distinct, let [MarshalJSON] return a
    document and let encoding/json decode it to the map that was encoded.  If
    every flag has one of the five known types, [UnmarshalJSON] on an empty
    receiver succeeds, and with the same flagset for every order of ranging
    over the map and every outcome of the sort: the flags of [fs] rearranged
    so that the keys ascend.  If some flag has the unknown type, the document
    that [MarshalJSON] wrote cannot be read back: [UnmarshalJSON] fails with
    the unknown-type error. *)
Theorem MarshalJSON_then_UnmarshalJSON (fs : flagset.Flagset) (data : flagset.Document) :
  NoDup (flagset.Key <$> flagset.Flags fs) →
  flagset.MarshalJSON fs = inr data →
  flagset.json_Unmarshal_manifest data = inr (flagset.manifestOf fs) →
  (Forall (λ f, flagset.Type_ f ≠ flagset.UnknownFlagType) (flagset.Flags fs) →
   ∃ fs', (∀ ord srt,
             flagset.UnmarshalJSON ord srt data {| flagset.Flags := [] |} = (None, fs')) ∧
          flagset.Flags fs' ≡ₚ flagset.Flags fs ∧
          Sorted flagset.keyLe (flagset.Flags fs')) ∧
  (Exists (λ f, flagset.Type_ f = flagset.UnknownFlagType) (flagset.Flags fs) →
   ∀ ord srt, ∃ fs',
     flagset.UnmarshalJSON ord srt data {| flagset.Flags := [] |} =
       (Some (Errorf "unknown flag type: unknown"), fs')).
Proof.
  intros Hnd _ Hdecode.
  assert (∀ ord : MapRange flagset.ManifestFlag,
            visit ord (flagset.manifestOf fs) ≡ₚ entryOf <$> flagset.Flags fs) as Hvisit.
  { intros ord. by rewrite (visit_perm ord), (map_to_list_manifestOf _ Hnd). }
  split.
  - intros Hknown.
    assert (Forall (λ f, decodeEntry (entryOf f) = Some f) (flagset.Flags fs)) as Hwf.
    { eapply Forall_impl; [exact Hknown|]. apply decodeEntry_entryOf_known. }
    exists {| flagset.Flags := merge_sort flagset.keyLe (flagset.Flags fs) |}. cbn.
    split_and!; [|apply merge_sort_Permutation|apply Sorted_merge_sort, _].
    intros ord srt. unfold flagset.UnmarshalJSON. rewrite Hdecode.
    assert (Forall (λ e, is_Some (decodeEntry e)) (visit ord (flagset.manifestOf fs))) as Hall.
    { rewrite Hvisit. apply Forall_fmap. eapply Forall_impl; [exact Hwf|].
      intros f Hf. cbn. by rewrite Hf. }
    rewrite (appendParsed_decodable _ _ Hall). cbn.
    assert (omap decodeEntry (visit ord (flagset.manifestOf fs)) ≡ₚ flagset.Flags fs) as Hperm.
    { rewrite Hvisit. by rewrite omap_decodeEntry_entryOf. }
    do 2 f_equal. apply (Sorted_unique_strong flagset.keyLe).
    + intros f g Hf Hg Hfg Hgf. rewrite (flagset.sortFlags_perm srt), Hperm in Hf.
      rewrite merge_sort_Permutation in Hg.
      apply (NoDup_keys_unique (flagset.Flags fs)); [done..|].
      by apply (anti_symm String.le).
    + apply flagset.sortFlags_sorted.
    + apply Sorted_merge_sort, _.
    + by rewrite (flagset.sortFlags_perm srt), Hperm, merge_sort_Permutation.
  - intros (f & Hf & Hunknown)%Exists_exists ord srt.
    unfold flagset.UnmarshalJSON. rewrite Hdecode.
    destruct (flagset.appendParsed _ _) as [[err|] flags] eqn:Hparsed.
    + apply appendParsed_error in Hparsed as (before & e & after & Hsplit & _ & Herr & _).
      assert (e ∈ entryOf <$> flagset.Flags fs) as (g & -> & _)%list_elem_of_fmap.
      { rewrite <- (Hvisit ord), Hsplit. apply elem_of_app. right. left. }
      cbn in Herr. destruct (flagset.Type_ g); cbn in Herr; try done.
      injection Herr as <-. by eexists.
    + apply appendParsed_inv in Hparsed as [Hall _]. exfalso.
      rewrite Forall_forall in Hall. destruct (Hall (entryOf f)) as [g Hg].
      { rewrite (Hvisit ord). by apply list_elem_of_fmap_2. }
      unfold decodeEntry in Hg. cbn in Hg. by rewrite Hunknown in Hg.
Qed.

(** X12.  [MarshalJSON] with repeated keys: the entry the map holds for a
    key is made of the last flag with that key, the earlier ones are dropped
    without an error, and a key no flag has is absent.  The map has one entry
    for each distinct key. *)
Theorem MarshalJSON_last_duplicate_wins (fs : flagset.Flagset) :
  (∀ key, flagset.manifestOf fs !! key =
          flagset.manifestFlagOf <$> last (filter (λ f, flagset.Key f = key) (flagset.Flags fs))) ∧
  size (flagset.manifestOf fs) = length (remove_dups (flagset.Key <$> flagset.Flags fs)).
Proof.
  rewrite manifestOf_buildMap. split.
  - intros key. by rewrite lookup_fmap, buildMap_lookup_last.
  - rewrite <- size_dom, dom_fmap_L, dom_buildMap. unfold keysOf.
    rewrite <- (size_list_to_set (C := gset string) (remove_dups _)) by apply NoDup_remove_dups.
    f_equal. apply set_eq. intros k.
    by rewrite !elem_of_list_to_set, elem_of_remove_dups.
Qed.

End manifest_more.

(** Two flags out of order, as a pull may return them, are written and read
    back with the keys ascending. *)
Lemma MarshalJSON_then_UnmarshalJSON_witness :
  let flag key :=
    {| flagset.Key := key; flagset.Type_ := flagset.BoolType; flagset.Description := "";
       flagset.DefaultValue := AnyBool true; flagset.Expiry := "" |} in
  let fs := {| flagset.Flags := [flag "b"; flag "a"] |} in
  ∃ fs', flagset.UnmarshalJSON (H := structuredCodec) (canonicalRange _) flagset.mergeKeySort
           (flagset.manifestOf fs) {| flagset.Flags := [] |} = (None, fs') ∧
         flagset.Flags fs' ≡ₚ flagset.Flags fs ∧
         Sorted flagset.keyLe (flagset.Flags fs').
Proof.
  intros flag fs.
  assert (NoDup (flagset.Key <$> flagset.Flags fs)) as Hnd.
  { apply NoDup_cons. split; [by intros [=]%list_elem_of_singleton|apply NoDup_singleton]. }
  destruct (MarshalJSON_then_UnmarshalJSON (C := structuredCodec) fs (flagset.manifestOf fs)
              Hnd eq_refl eq_refl) as [Hknown _].
  destruct Hknown as (fs' & Hread & Hperm & Hsorted).
  { by repeat constructor. }
  exists fs'. split; [apply Hread|done].
Defined.

(** ** DevCycle: conversions and configuration *)

Section devcycle_more.
Context `{F : Fmt} `{R : devcycle.Runtime}.
Implicit Types (c : devcycle.Client) (n : devcycle.Net) (p : devcycle.Plugin).

Lemma variableToFlag_type (v : devcycle.Variable_) (flag : flagset.Flag) :
  devcycle.variableToFlag v = inr flag →
  flagset.Type_ flag ≠ flagset.IntType ∧ flagset.Type_ flag ≠ flagset.UnknownFlagType ∧
  flagset.Expiry flag = "".
Proof.
  unfold devcycle.variableToFlag, devcycle.devCycleTypeToFlagType.
  repeat case_bool_decide; by intros [= <-].
Qed.

(** X13.  A flag made into a DevCycle variable and back keeps its key,
    description and default value, loses its expiry, and keeps its type
    unless the type is integer, which comes back as float, or unknown, which
    comes back as string.  A variable that converts to a flag is given back
    by [flagToVariable] with its key, type, description and default value,
    and with its id, name and timestamps blank.  A variable converts exactly
    when its type is one of Boolean, String, Number and JSON. *)
Theorem flag_variable_roundtrip :
  (∀ (flag : flagset.Flag) (project : string),
     ∃ back, devcycle.variableToFlag (devcycle.flagToVariable flag project) = inr back ∧
       flagset.Key back = flagset.Key flag ∧
       flagset.Description back = flagset.Description flag ∧
       flagset.DefaultValue back = flagset.DefaultValue flag ∧
       flagset.Expiry back = "" ∧
       (flagset.Type_ flag = flagset.IntType → flagset.Type_ back = flagset.FloatType) ∧
       (flagset.Type_ flag = flagset.UnknownFlagType →
        flagset.Type_ back = flagset.StringType) ∧
       (flagset.Type_ flag ≠ flagset.IntType →
        flagset.Type_ flag ≠ flagset.UnknownFlagType →
        flagset.Type_ back = flagset.Type_ flag)) ∧
  (∀ (v : devcycle.Variable_) (flag : flagset.Flag) (project : string),
     devcycle.variableToFlag v = inr flag →
     devcycle.flagToVariable flag project =
       {| devcycle.ID := ""; devcycle.Key := devcycle.Key v; devcycle.Name := "";
          devcycle.Type_ := devcycle.Type_ v; devcycle.Description := devcycle.Description v;
          devcycle.DefaultValue := devcycle.DefaultValue v;
          devcycle.CreatedAt := ""; devcycle.UpdatedAt := "" |}) ∧
  (∀ v : devcycle.Variable_,
     (∃ flag, devcycle.variableToFlag v = inr flag) ↔
     devcycle.Type_ v ∈ ["Boolean"; "String"; "Number"; "JSON"]).
Proof.
  split_and!.
  - intros [k t d v e] project. destruct t; eexists; cbn; by split_and!.
  - intros v flag project. unfold devcycle.variableToFlag, devcycle.flagToVariable.
    destruct (devcycle.devCycleTypeToFlagType _) as [err|t] eqn:Ht; [done|].
    intros [= <-]. cbn. by rewrite (devCycleType_roundtrip _ _ Ht).
  - intros v. unfold devcycle.variableToFlag, devcycle.devCycleTypeToFlagType.
    rewrite !elem_of_cons, elem_of_nil. split.
    + intros [flag Hflag]. repeat case_bool_decide; try done; tauto.
    + intros Htype. repeat case_bool_decide; try by eexists. tauto.
Qed.

(** X14.  [Compare] and [Push] judge a flag against a remote variable by
    different tests.  When [flagsEqual], the test of [Compare], holds of the
    local flag and the converted variable, [variableNeedsUpdate], the test of
    [Push], says that no update is needed.  The converse fails exactly for
    integer and unknown-type flags: no converted variable is ever equal to
    one, so [Compare] never lists such a flag as Unchanged, while [Push]
    leaves it unchanged when description and rendered default agree. *)
Theorem Compare_stricter_than_Push (v : devcycle.Variable_) (remote local : flagset.Flag)
    (project : string) :
  devcycle.variableToFlag v = inr remote →
  flagset.Key local = devcycle.Key v →
  (devcycle.flagsEqual local remote = true →
   devcycle.variableNeedsUpdate v (devcycle.flagToVariable local project) = false) ∧
  (devcycle.variableNeedsUpdate v (devcycle.flagToVariable local project) = false →
   devcycle.flagsEqual local remote = false →
   flagset.Type_ local = flagset.IntType ∨ flagset.Type_ local = flagset.UnknownFlagType) ∧
  (flagset.Type_ local = flagset.IntType ∨ flagset.Type_ local = flagset.UnknownFlagType →
   devcycle.flagsEqual local remote = false).
Proof.
  intros Hconv Hkey.
  pose proof (variableToFlag_type _ _ Hconv) as (Hint & Hunknown & _).
  unfold devcycle.variableToFlag in Hconv.
  destruct (devcycle.devCycleTypeToFlagType _) as [err|t] eqn:Ht; [done|].
  injection Hconv as <-. apply devCycleType_roundtrip in Ht.
  unfold devcycle.flagsEqual, devcycle.variableNeedsUpdate. cbn in *.
  split_and!.
  - repeat case_bool_decide; cbn; try done; intros _; congruence.
  - repeat case_bool_decide; cbn; try done; intros _ _;
      destruct (flagset.Type_ local), t; cbn in *; first [done|congruence|by auto].
  - intros [Ht'|Ht']; repeat case_bool_decide; cbn; try done; congruence.
Qed.
End devcycle_more.

(** DevCycle holds the number "n"; the local flag "n" is an integer with the
    same description and default.  [Push] would leave it unchanged, [Compare]
    calls it modified. *)
Lemma Compare_stricter_than_Push_witness :
  let v := {| devcycle.ID := "7"; devcycle.Key := "n"; devcycle.Name := "n";
              devcycle.Type_ := "Number"; devcycle.Description := "";
              devcycle.DefaultValue := AnyInt 5;
              devcycle.CreatedAt := ""; devcycle.UpdatedAt := "" |} in
  let remote := {| flagset.Key := "n"; flagset.Type_ := flagset.FloatType;
                   flagset.Description := ""; flagset.DefaultValue := AnyInt 5;
                   flagset.Expiry := "" |} in
  let local := {| flagset.Key := "n"; flagset.Type_ := flagset.IntType;
                  flagset.Description := ""; flagset.DefaultValue := AnyInt 5;
                  flagset.Expiry := "2030-01-01" |} in
  devcycle.variableNeedsUpdate (H := scalarFmt) v (devcycle.flagToVariable local "proj") = false ∧
  devcycle.flagsEqual (H := scalarFmt) local remote = false.
Proof.
  intros v remote local.
  destruct (Compare_stricter_than_Push (F := scalarFmt) v remote local "proj"
              eq_refl eq_refl) as (_ & _ & Hinteger).
  split; [reflexivity|]. apply Hinteger. by left.
Defined.

Section devcycle_config.
Context `{F : Fmt} `{R : devcycle.Runtime}.
Implicit Types (c : devcycle.Client) (n : devcycle.Net) (p : devcycle.Plugin).

(** X15.  [Configure] succeeds exactly when the custom settings hold a
    non-empty string under clientId and under clientSecret; a value that is
    not a string counts as missing.  It stores the configuration, the project
    and the environment before it looks at the credentials, so they are
    changed even when it fails, and then the client is the one the plugin had
    before.  A missing project keeps the project the plugin had, a missing
    environment resets it to development.  After a success the client holds
    the credentials and no token, and [ValidateConfig] passes exactly when
    the project is not empty. *)
Theorem Configure_effect (cfg : plugin.Config) p :
  let e := (devcycle.Configure cfg p).1 in
  let p' := (devcycle.Configure cfg p).2 in
  (e = None ↔
   ∃ id secret, plugin.Custom cfg !! "clientId" = Some (AnyString id) ∧ id ≠ "" ∧
                plugin.Custom cfg !! "clientSecret" = Some (AnyString secret) ∧
                secret ≠ "") ∧
  (e ≠ None →
   e = Some (Errorf_w "failed to create DevCycle client"
               (Errorf "clientId and clientSecret are required")) ∧
   devcycle.client p' = devcycle.client p) ∧
  devcycle.config p' = cfg ∧
  (∀ s, plugin.Custom cfg !! "project" = Some (AnyString s) → devcycle.project p' = s) ∧
  ((∀ s, plugin.Custom cfg !! "project" ≠ Some (AnyString s)) →
   devcycle.project p' = devcycle.project p) ∧
  (∀ s, plugin.Custom cfg !! "environment" = Some (AnyString s) →
        devcycle.environment p' = s) ∧
  ((∀ s, plugin.Custom cfg !! "environment" ≠ Some (AnyString s)) →
   devcycle.environment p' = "development") ∧
  (e = None →
   (∃ c, devcycle.client p' = Some c ∧ devcycle.accessToken c = "" ∧
         plugin.Custom cfg !! "clientId" = Some (AnyString (devcycle.clientID c)) ∧
         plugin.Custom cfg !! "clientSecret" = Some (AnyString (devcycle.clientSecret c))) ∧
   (devcycle.ValidateConfig p' = None ↔ devcycle.project p' ≠ "")).
Proof.
  intros e p'. subst e p'. unfold devcycle.Configure, devcycle.customString, devcycle.NewClient.
  assert (∀ key, (∃ s, plugin.Custom cfg !! key = Some (AnyString s) ∧
                       match plugin.Custom cfg !! key with
                       | Some (AnyString s) => Some s | _ => None end = Some s) ∨
                 ((∀ s, plugin.Custom cfg !! key ≠ Some (AnyString s)) ∧
                  match plugin.Custom cfg !! key with
                  | Some (AnyString s) => Some s | _ => None end = None)) as Hcases.
  { intros key. destruct (plugin.Custom cfg !! key) as [[]|]; by eauto. }
  destruct (Hcases "clientId") as [(id & Hid & ->)|[Hid ->]],
    (Hcases "clientSecret") as [(secret & Hsecret & ->)|[Hsecret ->]],
    (Hcases "project") as [(proj & Hproj & ->)|[Hproj ->]],
    (Hcases "environment") as [(env & Henv & ->)|[Henv ->]]; cbn;
    repeat case_bool_decide; cbn; unfold devcycle.ValidateConfig; cbn;
    split_and!; try done; try (intros; congruence); try (by intros; exfalso; eauto).
  all: try (split; [done|]; intros (? & ? & ? & ? & ? & ?); congruence).
  all: try (split; [intros _; by eauto 10|done]).
  all: try (intros _; split; [by eauto 10|]; by case_bool_decide).
Qed.

(** X16.  A plugin without a project or without a client, as [NewPlugin]
    returns it and as a failed [Configure] leaves a new plugin, is stopped by
    [ValidateConfig]: [Pull], [Push] and [Compare] return its configuration
    error, send no request, not even the token exchange, and leave the plugin
    as it is.  [ValidateConfig] passes exactly when the plugin has a project
    and a client. *)
Theorem invalid_config_stops_operations p n (local : flagset.Flagset)
    (opts : plugin.PushOptions) (ordLocal ordRemote : MapRange flagset.Flag) :
  devcycle.project p = "" ∨ devcycle.client p = None →
  (∃ message,
     devcycle.ValidateConfig p = Some (ErrConfigInvalid "devcycle" message) ∧
     devcycle.Pull (p, n) = (inl (ErrConfigInvalid "devcycle" message), (p, n)) ∧
     devcycle.Push local opts (p, n) = (inl (ErrConfigInvalid "devcycle" message), (p, n)) ∧
     devcycle.Compare ordLocal ordRemote local (p, n) =
       (inl (ErrConfigInvalid "devcycle" message), (p, n))) ∧
  (∀ q, devcycle.ValidateConfig q = None ↔
        devcycle.project q ≠ "" ∧ is_Some (devcycle.client q)).
Proof.
  intros Hinvalid. split.
  - unfold devcycle.Pull, devcycle.Push, devcycle.Compare, devcycle.validated,
      devcycle.ValidateConfig.
    case_bool_decide as Hproject; [by eexists|].
    destruct Hinvalid as [?| ->]; [done|]. by eexists.
  - intros q. unfold devcycle.ValidateConfig. case_bool_decide as Hproject.
    + split; [done|]. by intros [? _].
    + destruct (devcycle.client q) as [c|].
      * split; [by eauto|done].
      * split; [done|]. by intros [_ [? ?]].
Qed.

(** X17.  With a valid configuration [Pull] makes the one call
    [GetVariables] and nothing else.  When that call fails, [Pull] returns
    its error wrapped; otherwise it returns, in the order of the response,
    one flag for each variable whose type is Boolean, String, Number or JSON,
    with the variable's key, description and default value; the other
    variables are dropped without an error.  No pulled flag has the integer
    or the unknown type or an expiry, and pulling leaves project, environment
    and configuration as they are. *)
Theorem Pull_returns_convertible_variables p n c c' n'
    (r : error + list devcycle.Variable_) :
  devcycle.ValidateConfig p = None →
  devcycle.client p = Some c →
  devcycle.GetVariables (devcycle.project p) (c, n) = (r, (c', n')) →
  ∃ out p', devcycle.Pull (p, n) = (out, (p', n')) ∧
    p' = {| devcycle.config := devcycle.config p; devcycle.client := Some c';
            devcycle.project := devcycle.project p;
            devcycle.environment := devcycle.environment p |} ∧
    match r with
    | inl err => out = inl (Errorf_w "failed to fetch DevCycle variables" err)
    | inr variables =>
        ∃ fs, out = inr fs ∧
          Forall2 (λ v flag,
                     devcycle.variableToFlag v = inr flag ∧
                     flagset.Key flag = devcycle.Key v ∧
                     flagset.Description flag = devcycle.Description v ∧
                     flagset.DefaultValue flag = devcycle.DefaultValue v)
            (filter (λ v, devcycle.Type_ v ∈ ["Boolean"; "String"; "Number"; "JSON"])
               variables)
            (flagset.Flags fs) ∧
          Forall (λ flag, flagset.Type_ flag ≠ flagset.IntType ∧
                          flagset.Type_ flag ≠ flagset.UnknownFlagType ∧
                          flagset.Expiry flag = "") (flagset.Flags fs)
    end.
Proof.
  intros Hvalid Hclient Hget.
  unfold devcycle.Pull, devcycle.validated, bind, ret. rewrite Hvalid, Hclient, Hget.
  destruct r as [err|variables]; do 2 eexists; (split; [reflexivity|]); split; try done.
  eexists. split; [done|]. cbn.
  pose proof (variablesToFlags_filter variables) as Hall. split.
  - eapply Forall2_impl; [exact Hall|]. intros v flag Hv. split; [done|].
    unfold devcycle.variableToFlag in Hv.
    destruct (devcycle.devCycleTypeToFlagType _); [done|]. by injection Hv as <-.
  - eapply Forall2_Forall_r; [exact Hall|]. apply Forall_forall.
    intros v _ flag Hv. by apply (variableToFlag_type v).
Qed.

End devcycle_config.

(** A plugin fresh from [NewPlugin] has no project: nothing is sent. *)
Lemma invalid_config_stops_operations_witness :
  let p := devcycle.NewPlugin () in
  let n := sim.net sim.world0 in
  ∃ message,
    devcycle.Pull (p, n) = (inl (ErrConfigInvalid "devcycle" message), (p, n)) ∧
    devcycle.Push (H := scalarFmt) {| flagset.Flags := [sim.localA] |} realRun (p, n) =
      (inl (ErrConfigInvalid "devcycle" message), (p, n)).
Proof.
  intros p n.
  destruct (invalid_config_stops_operations (F := scalarFmt) (R := sim.runtime) p n
              {| flagset.Flags := [sim.localA] |} realRun (canonicalRange _) (canonicalRange _)
              (or_introl eq_refl)) as [(message & _ & Hpull & Hpush & _) _].
  exists message. by split.
Defined.

(** The configured plugin pulls the one variable of the in-memory project. *)
Lemma Pull_returns_convertible_variables_witness :
  let fetched := devcycle.GetVariables "proj" (sim.freshClient, sim.net sim.world0) in
  fetched.1 = inr [sim.remoteA] ∧
  ∃ p' fs,
    devcycle.Pull (sim.configured, sim.net sim.world0) =
      (inr fs, (p', fetched.2.2)) ∧
    Forall (λ flag, flagset.Type_ flag ≠ flagset.IntType ∧
                    flagset.Type_ flag ≠ flagset.UnknownFlagType ∧
                    flagset.Expiry flag = "") (flagset.Flags fs).
Proof.
  intros fetched.
  assert (fetched.1 = inr [sim.remoteA]) as Hfetched by (vm_compute; reflexivity).
  assert (fetched = (inr [sim.remoteA], (fetched.2.1, fetched.2.2))) as Hget.
  { rewrite <- Hfetched. clear Hfetched. clearbody fetched. by destruct fetched as [? [? ?]]. }
  split; [done|].
  destruct (Pull_returns_convertible_variables (R := sim.runtime)
              sim.configured (sim.net sim.world0) sim.freshClient fetched.2.1 fetched.2.2
              (inr [sim.remoteA]) eq_refl eq_refl Hget)
    as (out & p' & Hpull & _ & fs & -> & _ & Htypes).
  exists p', fs. exact (conj Hpull Htypes).
Defined.

(** ** DevCycle: what Push does with each flag *)

Section push_more.
Context `{F : Fmt} `{R : devcycle.Runtime}.
Implicit Types (c : devcycle.Client) (n : devcycle.Net) (p : devcycle.Plugin)
  (s : devcycle.Client * devcycle.Net).

Lemma buildVariableMap_lookup_last (variables : list devcycle.Variable_) (k : string) :
  devcycle.buildVariableMap variables !! k = last (filter (λ v, devcycle.Key v = k) variables).
Proof.
  unfold devcycle.buildVariableMap.
  induction variables as [|v variables IH] using rev_ind; [done|].
  rewrite foldl_app, filter_app. cbn [foldl]. rewrite lookup_insert. case_decide as Hk.
  - rewrite filter_cons_True by done. by rewrite filter_nil, last_snoc.
  - rewrite filter_cons_False by done. by rewrite filter_nil, app_nil_r.
Qed.

Lemma filter_cons_class {A} (P : A → Prop) `{∀ x, Decision (P x)} (x : A) (l : list A) :
  filter P (x :: l) = (if decide (P x) then [x] else []) ++ filter P l.
Proof. rewrite filter_cons. by case_decide. Qed.

Local Ltac class_list l :=
  exists l; rewrite ?app_nil_r; repeat case_decide;
  split_and!; first [done|apply sublist_nil_l|intros; congruence].

(** One flag of the loop, by its class. *)
Lemma pushFlag_classify p opts remoteMap result flag s r s' :
  let cls f := (λ v, devcycle.variableNeedsUpdate v
                       (devcycle.flagToVariable f (devcycle.project p))) <$>
               remoteMap !! flagset.Key f in
  devcycle.pushFlag p opts remoteMap result flag s = (r, s') →
  plugin.Deleted r = plugin.Deleted result ∧
  plugin.Unchanged r =
    plugin.Unchanged result ++ (if decide (cls flag = Some false) then [flag] else []) ∧
  (∃ created, plugin.Created r = plugin.Created result ++ created ∧
     sublist created (if decide (cls flag = None) then [flag] else []) ∧
     (plugin.DryRun opts = true →
      created = if decide (cls flag = None) then [flag] else [])) ∧
  (∃ updated, plugin.Updated r = plugin.Updated result ++ updated ∧
     sublist updated (if decide (cls flag = Some true) then [flag] else []) ∧
     (plugin.DryRun opts = true →
      updated = if decide (cls flag = Some true) then [flag] else [])) ∧
  (plugin.DryRun opts = true ∨ cls flag = Some false →
   plugin.Errors r = plugin.Errors result ∧ s' = s).
Proof.
  intros cls. subst cls. cbn beta. unfold devcycle.pushFlag, bind, ret.
  destruct (remoteMap !! flagset.Key flag) as [existing|]; cbn [fmap option_fmap option_map].
  - destruct (devcycle.variableNeedsUpdate _ _) eqn:Hneeds.
    + destruct (plugin.DryRun opts) eqn:Hdry; cbn [negb].
      * intros [= <- <-]. cbn.
        split_and!; [done|by rewrite app_nil_r|class_list (@nil flagset.Flag)
                    |class_list [flag]|done].
      * destruct (devcycle.UpdateVariable _ _ _ s) as [[err|] s1]; intros [= <- <-]; cbn.
        -- split_and!; [done|by rewrite app_nil_r|class_list (@nil flagset.Flag)
                       |class_list (@nil flagset.Flag)|by intros [|]].
        -- split_and!; [done|by rewrite app_nil_r|class_list (@nil flagset.Flag)
                       |class_list [flag]|by intros [|]].
    + intros [= <- <-]. cbn.
      split_and!; [done|done|class_list (@nil flagset.Flag)
                  |class_list (@nil flagset.Flag)|done].
  - destruct (plugin.DryRun opts) eqn:Hdry; cbn [negb].
    + intros [= <- <-]. cbn.
      split_and!; [done|by rewrite app_nil_r|class_list [flag]
                  |class_list (@nil flagset.Flag)|done].
    + destruct (devcycle.CreateFeatureWithVariable _ _ s) as [[err|] s1]; intros [= <- <-];
        cbn.
      * split_and!; [done|by rewrite app_nil_r|class_list (@nil flagset.Flag)
                    |class_list (@nil flagset.Flag)|by intros [|]].
      * split_and!; [done|by rewrite app_nil_r|class_list [flag]
                    |class_list (@nil flagset.Flag)|by intros [|]].
Qed.

Lemma pushFlags_classify p opts remoteMap flags result s r s' :
  let cls f := (λ v, devcycle.variableNeedsUpdate v
                       (devcycle.flagToVariable f (devcycle.project p))) <$>
               remoteMap !! flagset.Key f in
  devcycle.pushFlags p opts remoteMap result flags s = (r, s') →
  plugin.Deleted r = plugin.Deleted result ∧
  plugin.Unchanged r = plugin.Unchanged result ++ filter (λ f, cls f = Some false) flags ∧
  (∃ created, plugin.Created r = plugin.Created result ++ created ∧
     sublist created (filter (λ f, cls f = None) flags) ∧
     (plugin.DryRun opts = true → created = filter (λ f, cls f = None) flags)) ∧
  (∃ updated, plugin.Updated r = plugin.Updated result ++ updated ∧
     sublist updated (filter (λ f, cls f = Some true) flags) ∧
     (plugin.DryRun opts = true → updated = filter (λ f, cls f = Some true) flags)) ∧
  (plugin.DryRun opts = true ∨ Forall (λ f, cls f = Some false) flags →
   plugin.Errors r = plugin.Errors result ∧ s' = s).
Proof.
  intros cls. revert result s. induction flags as [|flag flags IH]; intros result s.
  { cbn. unfold ret. intros [= <- <-]. rewrite ?app_nil_r.
    split_and!; [done|done| | |done]; exists []; by rewrite app_nil_r. }
  cbn [devcycle.pushFlags]. unfold bind.
  destruct (devcycle.pushFlag p opts remoteMap result flag s) as [r1 s1] eqn:Hstep.
  apply pushFlag_classify in Hstep
    as (Hd1 & Hn1 & (c1 & Hc1 & Hsub1 & Hdry1) & (u1 & Hu1 & Hsubu1 & Hdryu1) & He1).
  intros (Hd & Hn & (c2 & Hc2 & Hsub2 & Hdry2) & (u2 & Hu2 & Hsubu2 & Hdryu2) & He)%IH.
  change ((λ v, devcycle.variableNeedsUpdate v
                  (devcycle.flagToVariable flag (devcycle.project p))) <$>
          remoteMap !! flagset.Key flag) with (cls flag) in *.
  rewrite (filter_cons_class (λ f, cls f = None)),
    (filter_cons_class (λ f, cls f = Some true)),
    (filter_cons_class (λ f, cls f = Some false)).
  split_and!.
  - congruence.
  - by rewrite Hn, Hn1, <- app_assoc.
  - exists (c1 ++ c2). rewrite Hc2, Hc1, <- app_assoc.
    split_and!; [done|by apply sublist_app|]. intros Hdry. by rewrite Hdry1, Hdry2.
  - exists (u1 ++ u2). rewrite Hu2, Hu1, <- app_assoc.
    split_and!; [done|by apply sublist_app|]. intros Hdry. by rewrite Hdryu1, Hdryu2.
  - intros Hquiet.
    destruct He1 as [He1 ->].
    { destruct Hquiet as [?|Hall]; [by left|]. right. by apply Forall_cons in Hall as [? _]. }
    destruct He as [He ->]; [|by rewrite He].
    destruct Hquiet as [?|Hall]; [by left|]. right. by apply Forall_cons in Hall as [_ ?].
Qed.

Lemma remoteClass_lookup (variables : list devcycle.Variable_) (project : string)
    (flag : flagset.Flag) :
  remoteClass variables project flag =
  (λ v, devcycle.variableNeedsUpdate v (devcycle.flagToVariable flag project)) <$>
  devcycle.buildVariableMap variables !! flagset.Key flag.
Proof. unfold remoteClass. by rewrite buildVariableMap_lookup_last. Qed.

Lemma remoteClass_None (variables : list devcycle.Variable_) (project : string)
    (flag : flagset.Flag) :
  remoteClass variables project flag = None ↔
  flagset.Key flag ∉ devcycle.Key <$> variables.
Proof.
  unfold remoteClass. rewrite fmap_None.
  induction variables as [|v variables IH] using rev_ind.
  { cbn. split; [intros _; apply not_elem_of_nil|done]. }
  rewrite filter_app, fmap_app, not_elem_of_app. cbn [fmap list_fmap].
  destruct (decide (devcycle.Key v = flagset.Key flag)) as [Hk|Hk].
  - rewrite filter_cons_True by done. rewrite filter_nil, last_snoc.
    split; [done|]. intros [_ Hnot]. destruct Hnot. rewrite Hk. left.
  - rewrite filter_cons_False by done. rewrite filter_nil, app_nil_r, IH.
    split; [|by intros [? _]]. intros Hnot. split; [done|].
    intros Hin%list_elem_of_singleton. by apply Hk.
Qed.

Lemma filter_all {A} (P : A → Prop) `{∀ x, Decision (P x)} (l : list A) :
  Forall P l → filter P l = l.
Proof. induction 1 as [|x l Hx _ IH]; [done|]. rewrite filter_cons_True by done. by rewrite IH. Qed.

Lemma filter_none {A} (P : A → Prop) `{∀ x, Decision (P x)} (l : list A) :
  Forall (λ x, ¬ P x) l → filter P l = [].
Proof. induction 1 as [|x l Hx _ IH]; [done|]. by rewrite filter_cons_False. Qed.

(** X18.  How [Push] sorts the local flags, once the fetch has succeeded.  A
    flag is judged against the last variable of the response that has its
    key.  Unchanged holds, in local order, exactly the flags whose variable
    needs no update; Created holds flags no variable has the key of and
    Updated flags whose variable needs an update, in local order, all of them
    in a dry run and in a real run those whose call succeeded.  Deleted is
    always empty: a variable without a local flag is never touched.  A dry
    run has no errors. *)
Theorem Push_classification p n (local : flagset.Flagset) (opts : plugin.PushOptions)
    c c1 n1 (variables : list devcycle.Variable_) (r : plugin.PushResult) p' n' :
  devcycle.ValidateConfig p = None →
  devcycle.client p = Some c →
  devcycle.GetVariables (devcycle.project p) (c, n) = (inr variables, (c1, n1)) →
  devcycle.Push local opts (p, n) = (inr r, (p', n')) →
  let cls := remoteClass variables (devcycle.project p) in
  plugin.Deleted r = [] ∧
  plugin.Unchanged r = filter (λ f, cls f = Some false) (flagset.Flags local) ∧
  sublist (plugin.Created r) (filter (λ f, cls f = None) (flagset.Flags local)) ∧
  sublist (plugin.Updated r) (filter (λ f, cls f = Some true) (flagset.Flags local)) ∧
  (plugin.DryRun opts = true →
   plugin.Created r = filter (λ f, cls f = None) (flagset.Flags local) ∧
   plugin.Updated r = filter (λ f, cls f = Some true) (flagset.Flags local) ∧
   plugin.Errors r = []) ∧
  (∀ f, cls f = None ↔ flagset.Key f ∉ devcycle.Key <$> variables).
Proof.
  intros Hvalid Hclient Hget Hpush cls.
  unfold devcycle.Push, devcycle.validated, bind, ret in Hpush.
  rewrite Hvalid, Hclient, Hget in Hpush.
  destruct (devcycle.pushFlags _ _ _ _ _ _) as [r' [c2 n2]] eqn:Hloop.
  injection Hpush as -> _ _.
  apply pushFlags_classify in Hloop
    as (Hd & Hn & (created & Hc & Hsub & Hdry) & (updated & Hu & Hsubu & Hdryu) & He).
  cbn in Hd, Hn, Hc, Hu, He.
  assert (∀ (b : option bool) f,
            (λ v, devcycle.variableNeedsUpdate v
                    (devcycle.flagToVariable f (devcycle.project p))) <$>
            devcycle.buildVariableMap variables !! flagset.Key f = b ↔ cls f = b) as Hcls.
  { intros b f. unfold cls. by rewrite remoteClass_lookup. }
  rewrite (list_filter_iff _ _ _ (Hcls (Some false))) in Hn.
  rewrite (list_filter_iff _ _ _ (Hcls None)) in Hsub, Hdry.
  rewrite (list_filter_iff _ _ _ (Hcls (Some true))) in Hsubu, Hdryu.
  subst created updated.
  split_and!; [done|done|done|done| |intros f; apply remoteClass_None].
  intros Hdryrun. split_and!; [by apply Hdry|by apply Hdryu|].
  by destruct He as [-> _]; [left|].
Qed.


Lemma buildVariableMap_lookup_NoDup (variables : list devcycle.Variable_)
    (v : devcycle.Variable_) :
  NoDup (devcycle.Key <$> variables) → v ∈ variables →
  devcycle.buildVariableMap variables !! devcycle.Key v = Some v.
Proof.
  unfold devcycle.buildVariableMap.
  induction variables as [|x variables IH] using rev_ind; [by intros _ ?%elem_of_nil|].
  rewrite fmap_app, NoDup_app, foldl_app. cbn [foldl]. intros (Hnd & Hdisj & _) Hin.
  apply elem_of_app in Hin as [Hin|Hin%list_elem_of_singleton].
  - rewrite lookup_insert_ne; [by apply IH|].
    intros Heq. apply (Hdisj (devcycle.Key v)).
    + apply list_elem_of_fmap. by exists v.
    + rewrite <- Heq. cbn. by apply list_elem_of_singleton.
  - subst. by rewrite lookup_insert_eq.
Qed.

Lemma variableToFlag_in_sync (v : devcycle.Variable_) (flag : flagset.Flag)
    (project : string) :
  devcycle.variableToFlag v = inr flag →
  flagset.Key flag = devcycle.Key v ∧
  devcycle.variableNeedsUpdate v (devcycle.flagToVariable flag project) = false.
Proof.
  unfold devcycle.variableToFlag.
  destruct (devcycle.devCycleTypeToFlagType _) as [err|t] eqn:Ht; [done|].
  intros [= <-]. split; [done|]. apply devCycleType_roundtrip in Ht.
  unfold devcycle.variableNeedsUpdate. cbn. rewrite Ht.
  by rewrite !bool_decide_eq_false_2 by (intros Hne; by apply Hne).
Qed.

(** X19.  Pushing back what was pulled changes nothing.  If no two variables
    of the response share a key, [Push] of the flags [Pull] makes of that
    response lists every flag as Unchanged and nothing else, in a dry run and
    in a real run alike, and sends no request after the fetch. *)
Theorem Push_of_pulled_flags_changes_nothing p n (opts : plugin.PushOptions) c c1 n1
    (variables : list devcycle.Variable_) :
  devcycle.ValidateConfig p = None →
  devcycle.client p = Some c →
  devcycle.GetVariables (devcycle.project p) (c, n) = (inr variables, (c1, n1)) →
  NoDup (devcycle.Key <$> variables) →
  ∃ p', devcycle.Push {| flagset.Flags := devcycle.variablesToFlags variables |} opts (p, n) =
          (inr {| plugin.Created := []; plugin.Updated := []; plugin.Deleted := [];
                  plugin.Unchanged := devcycle.variablesToFlags variables;
                  plugin.Errors := [] |}, (p', n1)) ∧
        devcycle.client p' = Some c1.
Proof.
  intros Hvalid Hclient Hget Hnd.
  unfold devcycle.Push, devcycle.validated, bind, ret. rewrite Hvalid, Hclient, Hget.
  destruct (devcycle.pushFlags _ _ _ _ _ _) as [r [c2 n2]] eqn:Hloop.
  apply pushFlags_classify in Hloop
    as (Hd & Hn & (created & Hc & Hsub & _) & (updated & Hu & Hsubu & _) & He).
  cbn in Hd, Hn, Hc, Hu, He, Hsub, Hsubu. subst created updated.
  assert (Forall (λ f, (λ v, devcycle.variableNeedsUpdate v
                               (devcycle.flagToVariable f (devcycle.project p))) <$>
                       devcycle.buildVariableMap variables !! flagset.Key f = Some false)
            (devcycle.variablesToFlags variables)) as Hall.
  { apply Forall_forall. intros f (v & Hv & Hf)%list_elem_of_omap.
    destruct (devcycle.variableToFlag v) as [err|f'] eqn:Hconv; [done|]. injection Hf as ->.
    apply (variableToFlag_in_sync _ _ (devcycle.project p)) in Hconv as [-> Hsync].
    by rewrite (buildVariableMap_lookup_NoDup _ _ Hnd Hv); cbn; rewrite Hsync. }
  destruct He as [He [= -> ->]]; [by right|].
  rewrite (filter_all _ _ Hall) in Hn.
  rewrite filter_none in Hsub, Hsubu
    by (eapply Forall_impl; [exact Hall|]; by intros f ->).
  apply sublist_nil_r in Hsub, Hsubu.
  assert (r = {| plugin.Created := []; plugin.Updated := []; plugin.Deleted := [];
                 plugin.Unchanged := devcycle.variablesToFlags variables;
                 plugin.Errors := [] |}) as ->
    by (destruct r; cbn in *; by subst).
  by eexists.
Qed.

End push_more.

(** A dry run against the in-memory project: "a" is there with another
    default, "b" is not there. *)
Lemma Push_classification_witness :
  let local := {| flagset.Flags := [sim.localA; sim.localB] |} in
  let fetched := devcycle.GetVariables "proj" (sim.freshClient, sim.net sim.world0) in
  let pushed := devcycle.Push (H := scalarFmt) local dryRun
                  (sim.configured, sim.net sim.world0) in
  let cls := remoteClass (H := scalarFmt) [sim.remoteA] (devcycle.project sim.configured) in
  fetched.1 = inr [sim.remoteA] ∧
  ∃ r, pushed.1 = inr r ∧
    plugin.Deleted r = [] ∧
    plugin.Created r = filter (λ f, cls f = None) [sim.localA; sim.localB] ∧
    plugin.Updated r = filter (λ f, cls f = Some true) [sim.localA; sim.localB].
Proof.
  intros local fetched pushed cls.
  assert (fetched.1 = inr [sim.remoteA]) as Hfetched by (vm_compute; reflexivity).
  assert (fetched = (inr [sim.remoteA], (fetched.2.1, fetched.2.2))) as Hget.
  { rewrite <- Hfetched. clear Hfetched. clearbody fetched. by destruct fetched as [? [? ?]]. }
  split; [done|].
  pose (r := {| plugin.Created := [sim.localB]; plugin.Updated := [sim.localA];
                plugin.Deleted := []; plugin.Unchanged := []; plugin.Errors := [] |}).
  assert (pushed.1 = inr r) as Hresult by (vm_compute; reflexivity).
  assert (pushed = (inr r, (pushed.2.1, pushed.2.2))) as Hpush.
  { rewrite <- Hresult. clear Hresult. clearbody pushed. by destruct pushed as [? [? ?]]. }
  destruct (Push_classification (F := scalarFmt) (R := sim.runtime) sim.configured
              (sim.net sim.world0) local dryRun sim.freshClient fetched.2.1 fetched.2.2
              [sim.remoteA] r pushed.2.1 pushed.2.2 eq_refl eq_refl Hget Hpush)
    as (Hdeleted & _ & _ & _ & Hdry & _).
  destruct (Hdry eq_refl) as (Hcreated & Hupdated & _).
  exists r. by split_and!.
Defined.

(** What was pulled from the in-memory project is pushed back in a real run:
    everything is unchanged and the net is as the fetch left it. *)
Lemma Push_of_pulled_flags_changes_nothing_witness :
  let fetched := devcycle.GetVariables "proj" (sim.freshClient, sim.net sim.world0) in
  fetched.1 = inr [sim.remoteA] ∧
  ∃ p', devcycle.Push (H := scalarFmt)
          {| flagset.Flags := devcycle.variablesToFlags [sim.remoteA] |} realRun
          (sim.configured, sim.net sim.world0) =
        (inr {| plugin.Created := []; plugin.Updated := []; plugin.Deleted := [];
                plugin.Unchanged := devcycle.variablesToFlags [sim.remoteA];
                plugin.Errors := [] |}, (p', fetched.2.2)) ∧
        devcycle.client p' = Some fetched.2.1.
Proof.
  intros fetched.
  assert (fetched.1 = inr [sim.remoteA]) as Hfetched by (vm_compute; reflexivity).
  assert (fetched = (inr [sim.remoteA], (fetched.2.1, fetched.2.2))) as Hget.
  { rewrite <- Hfetched. clear Hfetched. clearbody fetched. by destruct fetched as [? [? ?]]. }
  split; [done|].
  apply (Push_of_pulled_flags_changes_nothing (F := scalarFmt) (R := sim.runtime)
           sim.configured (sim.net sim.world0) realRun sim.freshClient fetched.2.1
           fetched.2.2 [sim.remoteA] eq_refl eq_refl Hget).
  apply NoDup_singleton.
Defined.

(** ** The DevCycle client: first request and failures *)

Section client_more.
Context `{R : devcycle.Runtime}.
Implicit Types (c : devcycle.Client) (n : devcycle.Net).

Lemma authenticate_without_token c n :
  devcycle.accessToken c = "" →
  ∃ e c1 n1, devcycle.authenticate (c, n) = (e, (c1, n1)) ∧
             devcycle.sent n1 = devcycle.sent n ++ [authRequest c].
Proof.
  intros Hempty. destruct (devcycle.time_Now (devcycle.world n)) as [now w1] eqn:Hnow.
  destruct (authenticate_refresh c n now w1 Hnow) as (e & c1 & n1 & Hauth & Hsent & _).
  { by intros [Htoken _]. }
  by exists e, c1, n1.
Qed.

(** X20.  [NewClient] refuses an empty client id or secret and otherwise
    returns a client that holds them and no token.  Such a client starts
    every first call with the token exchange, whatever the clock reads: one
    POST to the authentication URL, form-encoded, whose form holds the grant
    type client_credentials, the client id, the client secret and the
    audience, and nothing else. *)
Theorem NewClient_authenticates_first (id secret : string) :
  match devcycle.NewClient id secret with
  | inl err =>
      (id = "" ∨ secret = "") ∧ err = Errorf "clientId and clientSecret are required"
  | inr c =>
      id ≠ "" ∧ secret ≠ "" ∧
      devcycle.clientID c = id ∧ devcycle.clientSecret c = secret ∧
      devcycle.accessToken c = "" ∧
      (∀ n, ∃ e c1 n1, devcycle.authenticate (c, n) = (e, (c1, n1)) ∧
                       newRequests n n1 = [authRequest c]) ∧
      devcycle.Method (authRequest c) = "POST" ∧
      devcycle.URL (authRequest c) = devcycle.authURL ∧
      devcycle.Header (authRequest c) !! "Content-Type" =
        Some "application/x-www-form-urlencoded" ∧
      ∃ form, devcycle.Body (authRequest c) = Some (devcycle.url_Encode form) ∧
        dom form = {["grant_type"; "client_id"; "client_secret"; "audience"]} ∧
        form !! "grant_type" = Some "client_credentials" ∧
        form !! "client_id" = Some id ∧
        form !! "client_secret" = Some secret ∧
        form !! "audience" = Some "https://api.devcycle.com/"
  end.
Proof.
  unfold devcycle.NewClient.
  destruct (decide (id = "")) as [->|Hid]; [by split; [left|]|].
  destruct (decide (secret = "")) as [->|Hsecret].
  { rewrite bool_decide_eq_false_2 by done. cbn. by split; [right|]. }
  rewrite !bool_decide_eq_false_2 by done. cbn.
  split_and!; try done.
  - intros n. destruct (authenticate_without_token
                          {| devcycle.clientID := id; devcycle.clientSecret := secret;
                             devcycle.accessToken := ""; devcycle.tokenExpiry := devcycle.zeroTime |}
                          n eq_refl) as (e & c1 & n1 & Hauth & Hsent).
    exists e, c1, n1. split; [done|]. by apply newRequests_app.
  - eexists. split; [reflexivity|]. unfold devcycle.authForm. cbn.
    by split_and!.
Qed.

(** X21.  When [authenticate] fails, the one request that was sent is the
    token exchange, the client keeps the token and expiry it had, and the
    error says which step failed: the transport, a status other than 200, or
    the decoding of the answer.  [doRequest] and with it [GetVariables],
    [CreateFeatureWithVariable] and [UpdateVariable] return that error as it
    is and send nothing more. *)
Theorem authentication_failure_stops_request c n err c1 n1 :
  devcycle.authenticate (c, n) = (Some err, (c1, n1)) →
  c1 = c ∧
  newRequests n n1 = [authRequest c] ∧
  ((∃ cause, err = Errorf_w "failed to authenticate" cause) ∨
   (∃ status body, err = Errorf_status "authentication failed" status body ∧ status ≠ 200) ∨
   (∃ cause, err = Errorf_w "failed to parse auth response" cause)) ∧
  (∀ method path body,
     devcycle.doRequest method path body (c, n) = (inl err, (c, n1))) ∧
  (∀ project, devcycle.GetVariables project (c, n) = (inl err, (c, n1))) ∧
  (∀ project variable,
     devcycle.CreateFeatureWithVariable project variable (c, n) = (Some err, (c, n1))) ∧
  (∀ project key variable,
     devcycle.UpdateVariable project key variable (c, n) = (Some err, (c, n1))).
Proof.
  intros Hauth.
  assert (c1 = c ∧ devcycle.sent n1 = devcycle.sent n ++ [authRequest c] ∧
          ((∃ cause, err = Errorf_w "failed to authenticate" cause) ∨
           (∃ status body,
              err = Errorf_status "authentication failed" status body ∧ status ≠ 200) ∨
           (∃ cause, err = Errorf_w "failed to parse auth response" cause)))
    as (-> & Hsent & Hkind).
  { destruct (devcycle.time_Now (devcycle.world n)) as [now w1] eqn:Hnow.
    destruct (decide (devcycle.accessToken c ≠ "" ∧ now < devcycle.tokenExpiry c))
      as [[Htok Hexp]|Hinvalid].
    { by rewrite (authenticate_valid _ _ _ _ Hnow Htok Hexp) in Hauth. }
    destruct (authenticate_failure_kind c n) as (e & c1' & n1' & Heq & Hs & Hkind).
    { rewrite Hnow. cbn. destruct (decide (devcycle.accessToken c = "")); [by left|].
      right. destruct (decide (now < devcycle.tokenExpiry c)); [|lia].
      by destruct Hinvalid. }
    rewrite Heq in Hauth. injection Hauth as -> <- <-.
    destruct (Hkind err eq_refl) as [-> ?]. done. }
  assert (∀ method path body,
            devcycle.doRequest method path body (c, n) = (inl err, (c, n1))) as Hdo.
  { intros method path body. unfold devcycle.doRequest, bind, ret. by rewrite Hauth. }
  split_and!; [done|by apply newRequests_app|done|done|..].
  - intros project. unfold devcycle.GetVariables, bind, ret. by rewrite Hdo.
  - intros project variable. unfold devcycle.CreateFeatureWithVariable, bind, ret.
    by rewrite Hdo.
  - intros project key variable. unfold devcycle.UpdateVariable, bind, ret. by rewrite Hdo.
Qed.

(** X22.  [CreateFeatureWithVariable] with a token that is still valid sends
    exactly one request, with no token exchange before it: a POST to
    /v2/projects/<project>/features of the API, bearing the token, whose body
    is the encoded feature.  An error of the transport comes back as it is; a
    status from 200 to 299 is success; any other status is an error that
    carries the status and the body of the answer. *)
Theorem CreateFeatureWithVariable_request c n (project : string)
    (variable : devcycle.Variable_) now w1 w outcome w2 :
  devcycle.time_Now (devcycle.world n) = (now, w1) →
  devcycle.accessToken c ≠ "" → now < devcycle.tokenExpiry c →
  devcycle.json_Marshal (devcycle.BodyFeature (devcycle.featureOf variable)) = inr w →
  devcycle.NewRequest_ok "POST"
    (devcycle.apiURL +:+ "/v2/projects/" +:+ project +:+ "/features") = true →
  devcycle.http_Do
    (apiRequest "POST" ("/v2/projects/" +:+ project +:+ "/features") (Some w)
       (devcycle.accessToken c)) w1 = (outcome, w2) →
  devcycle.CreateFeatureWithVariable project variable (c, n) =
    (match outcome with
     | inl err => Some err
     | inr resp =>
         if decide (200 ≤ devcycle.StatusCode resp < 300) then None
         else Some (Errorf_status "failed to create feature" (devcycle.StatusCode resp)
                      (devcycle.body_string (devcycle.RespBody resp)))
     end,
     (c, {| devcycle.world := w2;
            devcycle.sent :=
              devcycle.sent n ++
              [apiRequest "POST" ("/v2/projects/" +:+ project +:+ "/features") (Some w)
                 (devcycle.accessToken c)] |})).
Proof.
  intros Hnow Htoken Hexpiry Hmarshal Hok Hdo.
  unfold devcycle.CreateFeatureWithVariable, devcycle.doRequest, bind, ret.
  rewrite (authenticate_valid _ _ _ _ Hnow Htoken Hexpiry), Hmarshal.
  unfold devcycle.NewRequestWithContext. rewrite Hok.
  unfold devcycle.this, gets, devcycle.on_net, devcycle.Header_Set, devcycle.Do. cbn.
  fold (apiRequest "POST" ("/v2/projects/" +:+ project +:+ "/features") (Some w)
          (devcycle.accessToken c)).
  rewrite Hdo. destruct outcome as [err|resp]; [done|].
  unfold devcycle.notSuccess. case_decide as Hstatus.
  - by rewrite !bool_decide_eq_false_2 by lia.
  - destruct (decide (devcycle.StatusCode resp < 200)).
    + by rewrite bool_decide_eq_true_2 by done.
    + rewrite bool_decide_eq_false_2 by done.
      by rewrite bool_decide_eq_true_2 by lia.
Qed.

End client_more.

(** Without a network the exchange fails in the transport; nothing else is
    tried. *)
Lemma authentication_failure_stops_request_witness :
  let n := @devcycle.Build_Net offline 1700000000 [] in
  let out := devcycle.authenticate (H := offline) (sim.freshClient, n) in
  out.1 = Some (Errorf_w "failed to authenticate" (Errorf "dial tcp: no route to host")) ∧
  devcycle.GetVariables (H := offline) "proj" (sim.freshClient, n) =
    (inl (Errorf_w "failed to authenticate" (Errorf "dial tcp: no route to host")),
     (sim.freshClient, out.2.2)) ∧
  newRequests n out.2.2 = [authRequest (H := offline) sim.freshClient].
Proof.
  intros n out.
  assert (out.1 = Some (Errorf_w "failed to authenticate"
                          (Errorf "dial tcp: no route to host"))) as Hout by reflexivity.
  assert (out = (Some (Errorf_w "failed to authenticate"
                         (Errorf "dial tcp: no route to host")), (out.2.1, out.2.2))) as Hauth.
  { rewrite <- Hout. clear Hout. clearbody out. by destruct out as [? [? ?]]. }
  destruct (authentication_failure_stops_request (R := offline) sim.freshClient n _ _ _ Hauth)
    as (_ & Hsent & _ & _ & Hget & _).
  split_and!; [done|apply Hget|done].
Defined.

(** The in-memory server creates "b" for a client with a valid token. *)
Lemma CreateFeatureWithVariable_request_witness :
  let variable := devcycle.flagToVariable sim.localB "proj" in
  let req := apiRequest (H := sim.runtime) "POST" "/v2/projects/proj/features"
               (Some (sim.WPayload (devcycle.BodyFeature (devcycle.featureOf variable))))
               "sim-token" in
  let out := devcycle.CreateFeatureWithVariable "proj" variable
               (sim.warmClient, sim.net sim.world0) in
  out.1 = None ∧ out.2.1 = sim.warmClient ∧ devcycle.sent out.2.2 = [req].
Proof.
  intros variable req out.
  pose proof (CreateFeatureWithVariable_request (R := sim.runtime) sim.warmClient
                (sim.net sim.world0) "proj" variable (sim.clock sim.world0) sim.world0
                (sim.WPayload (devcycle.BodyFeature (devcycle.featureOf variable)))
                (sim.serve req sim.world0).1 (sim.serve req sim.world0).2
                eq_refl) as Hcreate.
  fold out in Hcreate. rewrite Hcreate.
  - split_and!; [by vm_compute|done|done].
  - discriminate.
  - by vm_compute.
  - reflexivity.
  - reflexivity.
  - change (sim.serve req sim.world0 =
            ((sim.serve req sim.world0).1, (sim.serve req sim.world0).2)).
    by destruct (sim.serve req sim.world0).
Defined.

(** ** Compare: what each list holds *)

Section compare_more.
Variable flagsEqual : flagset.Flag → flagset.Flag → bool.
Variables (ordLocal ordRemote : MapRange flagset.Flag).
Implicit Types (localFlags remoteFlags : list flagset.Flag) (f : flagset.Flag).

Lemma visit_keys_NoDup {V} (ord : MapRange V) (m : gmap string V) : NoDup (visit ord m).*1.
Proof. rewrite (visit_perm ord m). apply NoDup_fst_map_to_list. Qed.

Lemma visit_buildMap_keys (ord : MapRange flagset.Flag) flags :
  Forall (λ e, flagset.Key e.2 = e.1) (visit ord (buildMap flags)).
Proof.
  apply Forall_forall. intros [k f] Hin%elem_of_visit. cbn.
  by apply buildMap_lookup in Hin as [? _].
Qed.

Lemma keys_omap_sublist (g : string * flagset.Flag → option flagset.Flag)
    (o : list (string * flagset.Flag)) :
  (∀ e f, g e = Some f → f = e.2) →
  Forall (λ e, flagset.Key e.2 = e.1) o →
  sublist (flagset.Key <$> omap g o) o.*1.
Proof.
  intros Hg. induction 1 as [|e o He _ IH]; [done|]. cbn.
  destruct (g e) as [f|] eqn:Hf; cbn; [|by apply sublist_cons].
  rewrite (Hg _ _ Hf), He. by apply sublist_skip.
Qed.

Lemma Added_spec localFlags remoteFlags f :
  f ∈ plugin.Added (compareFlags flagsEqual ordLocal ordRemote localFlags remoteFlags) ↔
  buildMap localFlags !! flagset.Key f = Some f ∧
  buildMap remoteFlags !! flagset.Key f = None.
Proof.
  rewrite compareFlags_eq. cbn. unfold addedOf. rewrite list_elem_of_omap. split.
  - intros ([k l] & Hin%elem_of_visit & Hg). cbn in Hg.
    destruct (buildMap remoteFlags !! k) eqn:Hr; [done|]. injection Hg as ->.
    apply buildMap_lookup in Hin as Hk. destruct Hk as [<- _]. done.
  - intros [Hl Hr]. exists (flagset.Key f, f). split; [by apply elem_of_visit|].
    cbn. by rewrite Hr.
Qed.

Lemma Removed_spec localFlags remoteFlags f :
  f ∈ plugin.Removed (compareFlags flagsEqual ordLocal ordRemote localFlags remoteFlags) ↔
  buildMap remoteFlags !! flagset.Key f = Some f ∧
  buildMap localFlags !! flagset.Key f = None.
Proof.
  rewrite compareFlags_eq. cbn. unfold removedOf. rewrite list_elem_of_omap. split.
  - intros ([k r] & Hin%elem_of_visit & Hg). cbn in Hg.
    destruct (buildMap localFlags !! k) eqn:Hl; [done|]. injection Hg as ->.
    apply buildMap_lookup in Hin as Hk. destruct Hk as [<- _]. done.
  - intros [Hr Hl]. exists (flagset.Key f, f). split; [by apply elem_of_visit|].
    cbn. by rewrite Hl.
Qed.

Lemma Modified_spec localFlags remoteFlags (d : plugin.FlagDiff) :
  d ∈ plugin.Modified (compareFlags flagsEqual ordLocal ordRemote localFlags remoteFlags) ↔
  buildMap localFlags !! plugin.Key d = Some (plugin.Local d) ∧
  buildMap remoteFlags !! plugin.Key d = Some (plugin.Remote d) ∧
  flagsEqual (plugin.Local d) (plugin.Remote d) = false.
Proof.
  rewrite compareFlags_eq. cbn. unfold modifiedOf. rewrite list_elem_of_omap. split.
  - intros ([k l] & Hin%elem_of_visit & Hg). cbn in Hg.
    destruct (buildMap remoteFlags !! k) as [r|] eqn:Hr; [|done].
    destruct (flagsEqual l r) eqn:He; [done|]. by injection Hg as <-.
  - intros (Hl & Hr & He). exists (plugin.Key d, plugin.Local d).
    split; [by apply elem_of_visit|]. cbn. rewrite Hr, He. cbn. by destruct d.
Qed.

Lemma Unchanged_spec localFlags remoteFlags f :
  f ∈ plugin.CmpUnchanged
        (compareFlags flagsEqual ordLocal ordRemote localFlags remoteFlags) ↔
  buildMap localFlags !! flagset.Key f = Some f ∧
  ∃ r, buildMap remoteFlags !! flagset.Key f = Some r ∧ flagsEqual f r = true.
Proof.
  rewrite compareFlags_eq. cbn. unfold unchangedOf. rewrite list_elem_of_omap. split.
  - intros ([k l] & Hin%elem_of_visit & Hg). cbn in Hg.
    destruct (buildMap remoteFlags !! k) as [r|] eqn:Hr; [|done].
    destruct (flagsEqual l r) eqn:He; [|done]. injection Hg as ->.
    apply buildMap_lookup in Hin as Hk. destruct Hk as [<- _]. by eauto.
  - intros (Hl & r & Hr & He). exists (flagset.Key f, f).
    split; [by apply elem_of_visit|]. cbn. by rewrite Hr, He.
Qed.

Lemma compare_lengths (rm : gmap string flagset.Flag) (o : list (string * flagset.Flag)) :
  (length (addedOf rm o) + length (modifiedOf flagsEqual rm o) +
   length (unchangedOf flagsEqual rm o))%nat = length o.
Proof.
  induction o as [|[k l] o IH]; [done|]. unfold addedOf, modifiedOf, unchangedOf in *. cbn.
  destruct (rm !! k) as [r|]; [destruct (flagsEqual l r)|]; cbn; lia.
Qed.

(** X23.  What the four lists of a compare result hold, for either plugin's
    equality test and any order of ranging over the two maps.  Of several
    flags with one key only the last counts, on either side.  Added holds the
    counting local flags whose key no remote flag has, Removed the counting
    remote flags whose key no local flag has; Modified holds, for each key on
    both sides whose two counting flags are not equal, the key with those two
    flags, and Unchanged the counting local flag when they are equal.  No
    list holds a key twice, and Added, Modified and Unchanged together have
    as many entries as there are distinct local keys. *)
Theorem compareFlags_contents localFlags remoteFlags :
  let r := compareFlags flagsEqual ordLocal ordRemote localFlags remoteFlags in
  let counting (flags : list flagset.Flag) (key : string) :=
    last (filter (λ f, flagset.Key f = key) flags) in
  (∀ f, f ∈ plugin.Added r ↔
        counting localFlags (flagset.Key f) = Some f ∧
        counting remoteFlags (flagset.Key f) = None) ∧
  (∀ f, f ∈ plugin.Removed r ↔
        counting remoteFlags (flagset.Key f) = Some f ∧
        counting localFlags (flagset.Key f) = None) ∧
  (∀ d, d ∈ plugin.Modified r ↔
        counting localFlags (plugin.Key d) = Some (plugin.Local d) ∧
        counting remoteFlags (plugin.Key d) = Some (plugin.Remote d) ∧
        flagsEqual (plugin.Local d) (plugin.Remote d) = false) ∧
  (∀ f, f ∈ plugin.CmpUnchanged r ↔
        counting localFlags (flagset.Key f) = Some f ∧
        ∃ remote, counting remoteFlags (flagset.Key f) = Some remote ∧
                  flagsEqual f remote = true) ∧
  NoDup (flagset.Key <$> plugin.Added r) ∧
  NoDup (flagset.Key <$> plugin.Removed r) ∧
  NoDup (plugin.Key <$> plugin.Modified r) ∧
  NoDup (flagset.Key <$> plugin.CmpUnchanged r) ∧
  (length (plugin.Added r) + length (plugin.Modified r) +
   length (plugin.CmpUnchanged r))%nat = size (keysOf localFlags).
Proof.
  intros r counting. subst r counting. cbn beta.
  split_and!.
  - intros f. by rewrite Added_spec, !buildMap_lookup_last.
  - intros f. by rewrite Removed_spec, !buildMap_lookup_last.
  - intros d. by rewrite Modified_spec, !buildMap_lookup_last.
  - intros f. rewrite Unchanged_spec, buildMap_lookup_last.
    by setoid_rewrite buildMap_lookup_last.
  - rewrite compareFlags_eq. cbn. apply (sublist_NoDup _ (visit ordLocal (buildMap localFlags)).*1);
      [apply visit_keys_NoDup|].
    apply keys_omap_sublist; [|apply visit_buildMap_keys].
    intros [k l] f. cbn. destruct (_ !! k); [done|]. by intros [= <-].
  - rewrite compareFlags_eq. cbn. apply (sublist_NoDup _ (visit ordRemote (buildMap remoteFlags)).*1);
      [apply visit_keys_NoDup|].
    apply keys_omap_sublist; [|apply visit_buildMap_keys].
    intros [k l] f. cbn. destruct (_ !! k); [done|]. by intros [= <-].
  - rewrite compareFlags_eq. cbn. apply (sublist_NoDup _ (visit ordLocal (buildMap localFlags)).*1);
      [apply visit_keys_NoDup|].
    unfold modifiedOf. induction (visit ordLocal (buildMap localFlags)) as [|[k l] o IH];
      [done|]. cbn.
    destruct (buildMap remoteFlags !! k) as [rf|]; cbn; [|by apply sublist_cons].
    destruct (flagsEqual l rf); cbn; [by apply sublist_cons|by apply sublist_skip].
  - rewrite compareFlags_eq. cbn. apply (sublist_NoDup _ (visit ordLocal (buildMap localFlags)).*1);
      [apply visit_keys_NoDup|].
    apply keys_omap_sublist; [|apply visit_buildMap_keys].
    intros [k l] f. cbn. destruct (_ !! k) as [rf|]; [|done].
    destruct (flagsEqual l rf); [|done]. by intros [= <-].
  - rewrite compareFlags_eq. cbn. rewrite compare_lengths.
    rewrite (Permutation_length (visit_perm ordLocal _)), length_map_to_list.
    by rewrite <- size_dom, dom_buildMap.
Qed.

End compare_more.

Section compare_laws.
Variable flagsEqual : flagset.Flag → flagset.Flag → bool.
Implicit Types (localFlags remoteFlags flags : list flagset.Flag) (f : flagset.Flag).

Lemma compareFlags_swap (ord1 ord2 ord3 ord4 : MapRange flagset.Flag)
    localFlags remoteFlags :
  (∀ a b, flagsEqual a b = flagsEqual b a) →
  let r := compareFlags flagsEqual ord1 ord2 localFlags remoteFlags in
  let r' := compareFlags flagsEqual ord3 ord4 remoteFlags localFlags in
  (∀ f, f ∈ plugin.Added r ↔ f ∈ plugin.Removed r') ∧
  (∀ f, f ∈ plugin.Removed r ↔ f ∈ plugin.Added r') ∧
  (∀ d, d ∈ plugin.Modified r ↔ swapDiff d ∈ plugin.Modified r') ∧
  keysOf (plugin.CmpUnchanged r) = keysOf (plugin.CmpUnchanged r').
Proof.
  intros Hsym r r'. subst r r'. split_and!.
  - intros f. by rewrite Added_spec, Removed_spec.
  - intros f. by rewrite Added_spec, Removed_spec.
  - intros d. rewrite !Modified_spec. cbn. rewrite (Hsym (plugin.Remote d)). tauto.
  - apply set_eq. intros k. rewrite !elem_of_keysOf. split.
    + intros (f & (Hl & rf & Hr & He)%Unchanged_spec & <-).
      exists rf. apply buildMap_lookup in Hr as Hk. destruct Hk as [Hk _].
      split; [|done]. apply Unchanged_spec. rewrite Hk. split; [done|].
      exists f. by rewrite Hsym.
    + intros (f & (Hl & rf & Hr & He)%Unchanged_spec & <-).
      exists rf. apply buildMap_lookup in Hr as Hk. destruct Hk as [Hk _].
      split; [|done]. apply Unchanged_spec. rewrite Hk. split; [done|].
      exists f. by rewrite Hsym.
Qed.

Lemma compareFlags_self (ord1 ord2 : MapRange flagset.Flag) flags :
  (∀ a, flagsEqual a a = true) →
  let r := compareFlags flagsEqual ord1 ord2 flags flags in
  plugin.Added r = [] ∧ plugin.Removed r = [] ∧ plugin.Modified r = [] ∧
  keysOf (plugin.CmpUnchanged r) = keysOf flags ∧
  Forall (λ f, f ∈ flags) (plugin.CmpUnchanged r).
Proof.
  intros Hrefl r. subst r.
  assert (plugin.Added (compareFlags flagsEqual ord1 ord2 flags flags) = []) as Ha.
  { apply elem_of_nil_inv. intros f [Hl Hr]%Added_spec. congruence. }
  assert (plugin.Removed (compareFlags flagsEqual ord1 ord2 flags flags) = []) as Hr.
  { apply elem_of_nil_inv. intros f [Hl Hr]%Removed_spec. congruence. }
  assert (plugin.Modified (compareFlags flagsEqual ord1 ord2 flags flags) = []) as Hm.
  { apply elem_of_nil_inv. intros d (Hl & Hr' & He)%Modified_spec.
    rewrite Hl in Hr'. injection Hr' as Heq. rewrite Heq, Hrefl in He. done. }
  split_and!; [done..| |].
  - pose proof (compareFlags_diffComplete flagsEqual ord1 ord2 flags flags)
      as (_ & _ & _ & Hcover & _).
    rewrite Ha, Hm in Hcover. unfold keysOf in Hcover at 1. cbn in Hcover.
    rewrite <- Hcover. by rewrite !(left_id_L ∅ (∪)).
  - apply Forall_forall. intros f [Hl _]%Unchanged_spec.
    by apply buildMap_lookup in Hl as [_ ?].
Qed.
End compare_laws.

Section compare_plugins.
Context `{F : Fmt}.

Lemma flagsEqual_refl (a : flagset.Flag) : devcycle.flagsEqual a a = true.
Proof.
  unfold devcycle.flagsEqual.
  rewrite !bool_decide_eq_false_2 by (intros Hne; by apply Hne). cbn.
  by apply bool_decide_eq_true_2.
Qed.

Lemma flagsEqual_sym (a b : flagset.Flag) : devcycle.flagsEqual a b = devcycle.flagsEqual b a.
Proof. unfold devcycle.flagsEqual. repeat case_bool_decide; cbn; congruence. Qed.

(** X24.  The two plugins compare flags with the same test, and the test is
    an equivalence: every flag equals itself, the order of the two flags does
    not matter, and equality carries over a chain.  So [Compare] is
    symmetric: comparing in the other direction swaps Added with Removed,
    swaps the two flags of every Modified entry, and leaves the keys of
    Unchanged as they are, whatever the orders of ranging over the maps. *)
Theorem Compare_is_symmetric (ord1 ord2 ord3 ord4 : MapRange flagset.Flag)
    (localFlags remoteFlags : list flagset.Flag) :
  (∀ a b, builtin.flagsEqual a b = devcycle.flagsEqual a b) ∧
  (∀ a, devcycle.flagsEqual a a = true) ∧
  (∀ a b, devcycle.flagsEqual a b = devcycle.flagsEqual b a) ∧
  (∀ a b c, devcycle.flagsEqual a b = true → devcycle.flagsEqual b c = true →
            devcycle.flagsEqual a c = true) ∧
  let r := compareFlags devcycle.flagsEqual ord1 ord2 localFlags remoteFlags in
  let r' := compareFlags devcycle.flagsEqual ord3 ord4 remoteFlags localFlags in
  (∀ f, f ∈ plugin.Added r ↔ f ∈ plugin.Removed r') ∧
  (∀ f, f ∈ plugin.Removed r ↔ f ∈ plugin.Added r') ∧
  (∀ d, d ∈ plugin.Modified r ↔ swapDiff d ∈ plugin.Modified r') ∧
  keysOf (plugin.CmpUnchanged r) = keysOf (plugin.CmpUnchanged r').
Proof.
  split_and!.
  - done.
  - apply flagsEqual_refl.
  - apply flagsEqual_sym.
  - intros a b c. unfold devcycle.flagsEqual.
    repeat case_bool_decide; cbn; try done; intros _ _; congruence.
  - apply (compareFlags_swap devcycle.flagsEqual ord1 ord2 ord3 ord4), flagsEqual_sym.
Qed.

(** X25.  Comparing with a remote that holds the very flags being compared
    finds no difference: when the fetch of [Compare] returns the local flags
    (for DevCycle, variables that convert to them), Added, Removed and
    Modified are empty and Unchanged has exactly the local keys, each with a
    local flag.  It holds also when keys repeat. *)
Theorem Compare_with_itself_finds_nothing :
  (∀ (World : Type) (S : SyncAPI World) (ordLocal ordRemote : MapRange flagset.Flag)
     (p : builtin.DefaultPlugin) (remote : flagset.Flagset) (c : SyncClient) (w w' : World),
     builtin.client p = Some c →
     sync_PullFlags c w = (inr remote, w') →
     ∃ r, builtin.Compare ordLocal ordRemote p remote w = (inr r, w') ∧
          plugin.Added r = [] ∧ plugin.Removed r = [] ∧ plugin.Modified r = [] ∧
          keysOf (plugin.CmpUnchanged r) = keysOf (flagset.Flags remote) ∧
          Forall (λ f, f ∈ flagset.Flags remote) (plugin.CmpUnchanged r)) ∧
  (∀ (R : devcycle.Runtime) (ordLocal ordRemote : MapRange flagset.Flag)
     (p : devcycle.Plugin) (c c' : devcycle.Client) (n n' : devcycle.Net)
     (variables : list devcycle.Variable_),
     devcycle.ValidateConfig p = None →
     devcycle.client p = Some c →
     devcycle.GetVariables (devcycle.project p) (c, n) = (inr variables, (c', n')) →
     ∃ r p',
       devcycle.Compare ordLocal ordRemote
         {| flagset.Flags := devcycle.variablesToFlags variables |} (p, n) =
         (inr r, (p', n')) ∧
       plugin.Added r = [] ∧ plugin.Removed r = [] ∧ plugin.Modified r = [] ∧
       keysOf (plugin.CmpUnchanged r) = keysOf (devcycle.variablesToFlags variables) ∧
       Forall (λ f, f ∈ devcycle.variablesToFlags variables) (plugin.CmpUnchanged r)).
Proof.
  split.
  - intros World S ordLocal ordRemote p remote c w w' Hc Hpull.
    eexists. unfold builtin.Compare, bind, ret. rewrite Hc, Hpull. split; [done|].
    apply (compareFlags_self builtin.flagsEqual), flagsEqual_refl.
  - intros R ordLocal ordRemote p c c' n n' variables Hv Hc Hget.
    unfold devcycle.Compare, devcycle.validated, bind, ret. rewrite Hv, Hc, Hget.
    do 2 eexists. split; [done|].
    apply (compareFlags_self devcycle.flagsEqual), flagsEqual_refl.
Qed.
End compare_plugins.

(** The in-memory manifest holds "a" and is compared with "a"; the in-memory
    DevCycle holds the variable "a" and is compared with the flag made of it. *)
Lemma Compare_with_itself_finds_nothing_witness :
  let fetched := devcycle.GetVariables "proj" (sim.freshClient, sim.net sim.world0) in
  (∃ r, builtin.Compare (H := scalarFmt) (canonicalRange _) (canonicalRange _)
          memoryPlugin {| flagset.Flags := [sim.localA] |} [sim.localA] =
          (inr r, [sim.localA]) ∧
        plugin.Added r = [] ∧ plugin.Removed r = [] ∧ plugin.Modified r = []) ∧
  fetched.1 = inr [sim.remoteA] ∧
  (∃ r p',
     devcycle.Compare (H := scalarFmt) (canonicalRange _) (canonicalRange _)
       {| flagset.Flags := devcycle.variablesToFlags [sim.remoteA] |}
       (sim.configured, sim.net sim.world0) = (inr r, (p', fetched.2.2)) ∧
     plugin.Added r = [] ∧ plugin.Removed r = [] ∧ plugin.Modified r = []).
Proof.
  intros fetched.
  destruct (Compare_with_itself_finds_nothing (F := scalarFmt)) as [Hdefault Hdevcycle].
  assert (fetched.1 = inr [sim.remoteA]) as Hfetched by (vm_compute; reflexivity).
  assert (fetched = (inr [sim.remoteA], (fetched.2.1, fetched.2.2))) as Hget.
  { rewrite <- Hfetched. clear Hfetched. clearbody fetched. by destruct fetched as [? [? ?]]. }
  split_and!.
  - destruct (Hdefault _ memorySyncAPI (canonicalRange _) (canonicalRange _)
                memoryPlugin {| flagset.Flags := [sim.localA] |}
                "https://flags.example.com"%string [sim.localA] [sim.localA]
                eq_refl eq_refl) as (r & Hcmp & Ha & Hr & Hm & _).
    exists r. exact (conj Hcmp (conj Ha (conj Hr Hm))).
  - exact Hfetched.
  - destruct (Hdevcycle sim.runtime (canonicalRange _) (canonicalRange _) sim.configured
                sim.freshClient fetched.2.1 (sim.net sim.world0) fetched.2.2
                [sim.remoteA] eq_refl eq_refl Hget) as (r & p' & Hcmp & Ha & Hr & Hm & _).
    exists r, p'. exact (conj Hcmp (conj Ha (conj Hr Hm))).
Defined.

(** ** The default plugin: configuration *)

Section default_more.
Context `{F : Fmt} {World : Type} `{S : SyncAPI World}.
Implicit Types (p : builtin.DefaultPlugin) (w : World).

(** X26.  [Configure] of the default plugin stores the configuration first
    and then asks the sync package for a client.  If that fails, the error is
    wrapped, the new configuration stays stored and the plugin keeps the
    client it had.  [ValidateConfig] looks at the base URL only, and [Pull],
    [Push] and [Compare] never call it: they run whenever the plugin has a
    client, also one left from an earlier [Configure], and fail as
    unconfigured otherwise, without touching the remote side. *)
Theorem default_Configure_effect (cfg : plugin.Config) p :
  let e := (builtin.Configure cfg p).1 in
  let p' := (builtin.Configure cfg p).2 in
  builtin.config p' = cfg ∧
  (∀ c, sync_NewClient (plugin.BaseURL cfg) (plugin.AuthToken cfg) = inr c →
        e = None ∧ builtin.client p' = Some c) ∧
  (∀ err, sync_NewClient (plugin.BaseURL cfg) (plugin.AuthToken cfg) = inl err →
          e = Some (Errorf_w "failed to create sync client" err) ∧
          builtin.client p' = builtin.client p) ∧
  (builtin.ValidateConfig p' = None ↔ plugin.BaseURL cfg ≠ "") ∧
  (∀ c w, builtin.client p' = Some c → builtin.Pull p' w = sync_PullFlags c w) ∧
  (∀ w local opts ordLocal ordRemote,
     builtin.client p' = None →
     builtin.Pull p' w = (inl builtin.notConfigured, w) ∧
     builtin.Push p' local opts w = (inl builtin.notConfigured, w) ∧
     builtin.Compare ordLocal ordRemote p' local w = (inl builtin.notConfigured, w)).
Proof.
  intros e p'. subst e p'. unfold builtin.Configure, builtin.ValidateConfig.
  destruct (sync_NewClient _ _) as [err|c] eqn:Hnew; cbn.
  - split_and!; [done|done|by intros ? [= <-]| | |].
    + case_bool_decide as Hurl; split; try done; by intros ?.
    + intros c w Hc. unfold builtin.Pull. cbn. by rewrite Hc.
    + intros w local opts ordLocal ordRemote Hc.
      unfold builtin.Pull, builtin.Push, builtin.Compare. cbn. by rewrite Hc.
  - split_and!; [done|by intros ? [= <-]|done| | |done].
    + case_bool_decide as Hurl; split; try done; by intros ?.
    + intros c' w [= <-]. done.
Qed.
End default_more.

(** ** The usage report: its sort order *)

Lemma ltb_strict (a b : string) : String.ltb a b = true ↔ strict String.le a b.
Proof.
  unfold strict, String.le, String.ltb, String.leb.
  rewrite (String.compare_antisym a b). destruct (String.compare b a); cbn.
  - split; [done|]. intros [_ Hn]. by destruct Hn.
  - split; [done|]. by intros [[] _].
  - split; [|done]. intros _. split; [done|]. by intros [].
Qed.

Lemma string_trichotomy (a b : string) :
  strict String.le a b ∨ a = b ∨ strict String.le b a.
Proof.
  destruct (decide (String.le a b)) as [Hab|Hab], (decide (String.le b a)) as [Hba|Hba].
  - right. left. by apply (anti_symm String.le).
  - left. by split.
  - right. right. by split.
  - destruct (total String.le a b); tauto.
Qed.

Lemma usageLess_lex (a b : cmd.FlagUsageReport) :
  let expired r := if cmd.IsExpired r then 0 else 1 in
  let dated r := if bool_decide (cmd.Expiry r ≠ "") then 0 else 1 in
  cmd.usageLess a b = true ↔
  expired a < expired b ∨
  expired a = expired b ∧
  (dated a < dated b ∨
   dated a = dated b ∧
   (cmd.UsageCount a < cmd.UsageCount b ∨
    cmd.UsageCount a = cmd.UsageCount b ∧ strict String.le (cmd.FlagKey a) (cmd.FlagKey b))).
Proof.
  cbn zeta. unfold cmd.usageLess. rewrite <- ltb_strict.
  assert ((if bool_decide (cmd.UsageCount a ≠ cmd.UsageCount b)
           then bool_decide (cmd.UsageCount a < cmd.UsageCount b)
           else String.ltb (cmd.FlagKey a) (cmd.FlagKey b)) = true ↔
          cmd.UsageCount a < cmd.UsageCount b ∨
          cmd.UsageCount a = cmd.UsageCount b ∧
          String.ltb (cmd.FlagKey a) (cmd.FlagKey b) = true) as Hinner.
  { case_bool_decide as Hn.
    - rewrite bool_decide_eq_true. split; [by left|]. intros [?|[? _]]; [done|lia].
    - split; [|intros [?|[_ ?]]; [lia|done]]. intros ?. right. split; [lia|done]. }
  revert Hinner.
  generalize (if bool_decide (cmd.UsageCount a ≠ cmd.UsageCount b)
              then bool_decide (cmd.UsageCount a < cmd.UsageCount b)
              else String.ltb (cmd.FlagKey a) (cmd.FlagKey b)).
  generalize (String.ltb (cmd.FlagKey a) (cmd.FlagKey b)).
  generalize (cmd.IsExpired a) (cmd.IsExpired b)
    (bool_decide (cmd.Expiry a ≠ "")) (bool_decide (cmd.Expiry b ≠ "")).
  intros [] [] [] [] keys inner Hinner;
    try change (bool_decide (true ≠ true)) with false;
    try change (bool_decide (false ≠ false)) with false;
    try change (bool_decide (true ≠ false)) with true;
    try change (bool_decide (false ≠ true)) with true;
    cbn [negb]; rewrite ?Hinner; intuition (first [lia|discriminate]).
Qed.

Local Ltac lex_solve :=
  first [ left; lia
        | right; split; [lia|];
          first [ left; lia
                | right; split; [lia|];
                  first [ left; lia | right; split; [lia|]; eauto ] ] ].

Lemma usageLess_tied (a b : cmd.FlagUsageReport) :
  cmd.usageLess a b = false ∧ cmd.usageLess b a = false ↔
  (if cmd.IsExpired a then 0 else 1) = (if cmd.IsExpired b then 0 else 1) ∧
  (if bool_decide (cmd.Expiry a ≠ "") then 0 else 1) =
    (if bool_decide (cmd.Expiry b ≠ "") then 0 else 1) ∧
  cmd.UsageCount a = cmd.UsageCount b ∧
  cmd.FlagKey a = cmd.FlagKey b.
Proof.
  rewrite <- !not_true_iff_false, !usageLess_lex. cbn zeta.
  generalize (if cmd.IsExpired a then 0 else 1) (if cmd.IsExpired b then 0 else 1)
    (if bool_decide (cmd.Expiry a ≠ "") then 0 else 1)
    (if bool_decide (cmd.Expiry b ≠ "") then 0 else 1)
    (cmd.UsageCount a) (cmd.UsageCount b) (cmd.FlagKey a) (cmd.FlagKey b).
  intros ea eb da db ua ub ka kb. split.
  - intros [Hab Hba].
    destruct (Z.lt_trichotomy ea eb) as [?|[?|?]];
      [exfalso; apply Hab; lex_solve| |exfalso; apply Hba; lex_solve].
    destruct (Z.lt_trichotomy da db) as [?|[?|?]];
      [exfalso; apply Hab; lex_solve| |exfalso; apply Hba; lex_solve].
    destruct (Z.lt_trichotomy ua ub) as [?|[?|?]];
      [exfalso; apply Hab; lex_solve| |exfalso; apply Hba; lex_solve].
    destruct (string_trichotomy ka kb) as [?|[?|?]];
      [exfalso; apply Hab; lex_solve|done|exfalso; apply Hba; lex_solve].
  - intros (-> & -> & -> & ->).
    split; (intros [?|[_ [?|[_ [?|[_ [? ?]]]]]]]; [lia|lia|lia|done]).
Qed.

(** X27.  The comparison [analyzeUsage] hands to [sort.Slice] is a strict
    weak ordering, as sorting needs: no report comes before itself, two
    reports never come before each other, coming before carries over a chain,
    and so does being tied.  Two reports are tied only when they agree on
    being expired, on having an expiry, on the usage count and on the flag
    key; an expired report comes before every report that is not. *)
Theorem usageLess_strict_weak_order :
  (∀ a, cmd.usageLess a a = false) ∧
  (∀ a b, cmd.usageLess a b = true → cmd.usageLess b a = false) ∧
  (∀ a b c, cmd.usageLess a b = true → cmd.usageLess b c = true →
            cmd.usageLess a c = true) ∧
  (∀ a b c, cmd.usageLess a b = false → cmd.usageLess b a = false →
            cmd.usageLess b c = false → cmd.usageLess c b = false →
            cmd.usageLess a c = false ∧ cmd.usageLess c a = false) ∧
  (∀ a b, cmd.usageLess a b = false → cmd.usageLess b a = false →
          cmd.IsExpired a = cmd.IsExpired b ∧
          (cmd.Expiry a = "" ↔ cmd.Expiry b = "") ∧
          cmd.UsageCount a = cmd.UsageCount b ∧
          cmd.FlagKey a = cmd.FlagKey b) ∧
  (∀ a b, cmd.IsExpired a = true → cmd.IsExpired b = false → cmd.usageLess a b = true).
Proof.
  assert (∀ s t u : string, strict String.le s t → strict String.le t u → strict String.le s u)
    as Htrans.
  { intros s t u [Hst Hts] [Htu Hut]. split; [by etrans|].
    intros Hus. apply Hts. by etrans. }
  split_and!.
  - intros a. by apply (usageLess_tied a a).
  - intros a b Hab. apply not_true_is_false. revert Hab. rewrite !usageLess_lex. cbn zeta.
    intros [?|[? [?|[? [?|[? [? ?]]]]]]] [?|[? [?|[? [?|[? [? ?]]]]]]]; first [lia|done].
  - intros a b c. rewrite !usageLess_lex. cbn zeta.
    pose proof (Htrans (cmd.FlagKey a) (cmd.FlagKey b) (cmd.FlagKey c)).
    intros [?|[? [?|[? [?|[? ?]]]]]] [?|[? [?|[? [?|[? ?]]]]]]; lex_solve.
  - intros a b c Hab Hba Hbc Hcb. apply usageLess_tied.
    destruct (proj1 (usageLess_tied a b) (conj Hab Hba)) as (-> & -> & -> & ->).
    by apply usageLess_tied.
  - intros a b Hab Hba.
    destruct (proj1 (usageLess_tied a b) (conj Hab Hba)) as (He & Hd & Hu & Hk).
    split_and!; [|split|done|done].
    + by destruct (cmd.IsExpired a), (cmd.IsExpired b).
    + intros Ha. rewrite bool_decide_eq_false_2 in Hd by (intros Hne; by apply Hne).
      case_bool_decide as Hb; [done|]. by destruct (decide (cmd.Expiry b = "")).
    + intros Hb. rewrite (bool_decide_eq_false_2 (cmd.Expiry b ≠ "")) in Hd
        by (intros Hne; by apply Hne).
      case_bool_decide as Ha; [done|]. by destruct (decide (cmd.Expiry a = "")).
  - intros a b Ha Hb. rewrite usageLess_lex. cbn zeta. rewrite Ha, Hb. lia.
Qed.

(** ** The push command with the DevCycle plugin *)

Section push_command.
Context `{F : Fmt} `{R : devcycle.Runtime} `{Q : cmd.Quoting}.
Implicit Types (n : devcycle.Net) (p : devcycle.Plugin).

Lemma Configure_with_credentials (cfg : plugin.Config) p (id secret : string) :
  plugin.Custom cfg !! "clientId" = Some (AnyString id) → id ≠ "" →
  plugin.Custom cfg !! "clientSecret" = Some (AnyString secret) → secret ≠ "" →
  devcycle.Configure cfg p =
    (None,
     {| devcycle.config := cfg;
        devcycle.client :=
          Some {| devcycle.clientID := id; devcycle.clientSecret := secret;
                  devcycle.accessToken := ""; devcycle.tokenExpiry := devcycle.zeroTime |};
        devcycle.project := default (devcycle.project p) (devcycle.customString cfg "project");
        devcycle.environment :=
          default "development" (devcycle.customString cfg "environment") |}).
Proof.
  intros Hid Hid' Hsecret Hsecret'.
  unfold devcycle.Configure, devcycle.NewClient, devcycle.customString.
  rewrite Hid, Hsecret. cbn. by rewrite !bool_decide_eq_false_2 by done.
Qed.

Lemma Configure_without_credentials (cfg : plugin.Config) p :
  (∀ id, plugin.Custom cfg !! "clientId" = Some (AnyString id) → id = "") ∨
  (∀ secret, plugin.Custom cfg !! "clientSecret" = Some (AnyString secret) → secret = "") →
  (devcycle.Configure cfg p).1 =
    Some (Errorf_w "failed to create DevCycle client"
            (Errorf "clientId and clientSecret are required")).
Proof.
  intros Hmissing.
  unfold devcycle.Configure, devcycle.NewClient, devcycle.customString.
  assert (bool_decide
            (default "" match plugin.Custom cfg !! "clientId" with
                        | Some (AnyString s) => Some s | _ => None end = "") ||
          bool_decide
            (default "" match plugin.Custom cfg !! "clientSecret" with
                        | Some (AnyString s) => Some s | _ => None end = "") = true) as ->;
    [|done].
  apply orb_true_iff. destruct Hmissing as [Hid|Hsecret]; [left|right];
    apply bool_decide_eq_true_2.
  - destruct (plugin.Custom cfg !! "clientId") as [[]|]; cbn; by auto.
  - destruct (plugin.Custom cfg !! "clientSecret") as [[]|]; cbn; by auto.
Qed.


End push_command.

